(** * apollo-link-contentful: the query translator and the request orchestrator

    A shallow embedding of the module [utils] (the query-AST analyser and
    REST-parameter translator), of the module [constants] and of the class
    [ContentfulRestLink] (its constructor and the decisions of [request]),
    with the properties the specification states about them.

    Conventions of the embedding:
    - a JavaScript string is a [string]; the patterns the code searches for
      are ASCII, so searching bytes or UTF-16 code units finds the same
      occurrences;
    - an object used as a parameter set (runtime variables, query defaults,
      REST parameters, client options) is a [gmap string JsValue], the map of
      its own properties; the object spread [{...a, ...b}] is [b ∪ a]
      (stdpp's union prefers its left operand, the spread its right one);
    - an object whose key order the code observes through [Object.keys] or
      [forEach] (the variable map, a shape descriptor) is an association list
      of its own properties in insertion order, assignment to an existing key
      keeping its place (the keys are GraphQL names, never array indices,
      which JavaScript would enumerate first);
    - every object starts with the prototype [Object.prototype], from which
      it inherits its methods: a call [obj.hasOwnProperty(k)] finds an own
      property of that name first, an assignment [obj['__proto__'] = v]
      reaches the accessor of [Object.prototype] and replaces the prototype
      instead of adding a property, and a read [obj[k]] of a key the object
      does not own finds the members of [Object.prototype];
    - an exception is a value of [Exn] in the result type [Result]. *)

From Stdlib Require Import String Ascii ZArith Lia DecimalString.
From stdpp Require Import gmap strings list fin_maps.

Set Warnings "-register-all".

Local Open Scope nat_scope.

(** ** JavaScript strings *)

Module JsString.

(** [String.prototype.startsWith] with a string argument. *)
Fixpoint startsWith (s searchString : string) {struct searchString} : bool :=
  match searchString, s with
  | EmptyString, _ => true
  | String a p, String b s' => if Ascii.eqb a b then startsWith s' p else false
  | String _ _, EmptyString => false
  end.

Fixpoint drop (n : nat) (s : string) : string :=
  match n, s with
  | O, _ => s
  | S n', String _ s' => drop n' s'
  | S _, EmptyString => EmptyString
  end.

Fixpoint take (n : nat) (s : string) : string :=
  match n, s with
  | O, _ => EmptyString
  | S n', String c s' => String c (take n' s')
  | S _, EmptyString => EmptyString
  end.

(** [String.prototype.endsWith]: the substring of the last
    [length searchString] code units is compared with [searchString]; a
    search string longer than [s] is never a suffix. *)
Definition endsWith (s searchString : string) : bool :=
  if String.length searchString <=? String.length s
  then String.eqb (drop (String.length s - String.length searchString) s) searchString
  else false.

(** [String.prototype.indexOf]: the position of the leftmost occurrence. *)
Fixpoint indexOf (s searchString : string) : option nat :=
  if startsWith s searchString then Some 0
  else match s with
       | EmptyString => None
       | String _ s' => S <$> indexOf s' searchString
       end.

(** [String.prototype.includes]. *)
Definition includes (s searchString : string) : bool :=
  bool_decide (is_Some (indexOf s searchString)).

(** [String.prototype.replace] with a string pattern: only the leftmost
    occurrence is replaced, and a string without an occurrence is returned
    as it is.  (The replacement strings of this program hold no [$], so the
    replacement is inserted literally.) *)
Fixpoint replace (s pattern replacement : string) : string :=
  if startsWith s pattern
  then replacement +:+ drop (String.length pattern) s
  else match s with
       | EmptyString => EmptyString
       | String c s' => String c (replace s' pattern replacement)
       end.

(** [s.replace(/_/g, '.')]: every occurrence of one character replaced. *)
Fixpoint replaceAllChar (s : string) (from to : ascii) : string :=
  match s with
  | EmptyString => EmptyString
  | String c s' =>
      String (if Ascii.eqb c from then to else c) (replaceAllChar s' from to)
  end.

(** The separator-joined concatenation of [Array.prototype.join]. *)
Fixpoint join (sep : string) (l : list string) : string :=
  match l with
  | [] => EmptyString
  | [x] => x
  | x :: l' => x +:+ sep +:+ join sep l'
  end.

(** The spec's reading of "strip a trailing suffix": the string without its
    last [length suffix] characters when it ends with [suffix]. *)
Definition stripSuffix (s suffix : string) : string :=
  if endsWith s suffix then take (String.length s - String.length suffix) s else s.

End JsString.

Import JsString.

(** ** JavaScript values *)

(** The values a runtime variable, a literal or a REST parameter can hold;
    none of them is a function.  A number [JNum n] is an integer of a
    magnitude below [10^21]: these are the numbers whose [ToString] is their
    decimal numeral (from [10^21] on JavaScript prints an exponent, and a
    fraction prints its digits, neither of which this type holds). *)
Inductive JsValue : Type :=
| JUndefined
| JNull
| JBool (b : bool)
| JNum (n : Z)
| JStr (s : string)
| JArr (elements : list JsValue)
| JObj (properties : list (string * JsValue)).

(** [ToBoolean]. *)
Definition truthy (v : JsValue) : bool :=
  match v with
  | JUndefined | JNull => false
  | JBool b => b
  | JNum n => negb (Z.eqb n 0)
  | JStr s => negb (String.eqb s "")
  | JArr _ | JObj _ => true
  end.

(** [ToString], as [Array.prototype.join] applies it to an element; an array
    is joined with commas, its [undefined] and [null] elements printing as
    the empty string; an object prints through the method [toString] of
    [Object.prototype] (see [convertible] for the object that shadows it). *)
Fixpoint toString (v : JsValue) : string :=
  match v with
  | JUndefined => "undefined"
  | JNull => "null"
  | JBool true => "true"
  | JBool false => "false"
  | JNum n => NilZero.string_of_int (Z.to_int n)
  | JStr s => s
  | JArr l =>
      join "," (map (fun e => match e with
                              | JUndefined | JNull => EmptyString
                              | _ => toString e
                              end) l)
  | JObj _ => "[object Object]"
  end.

(** [array.join(',')] as a value. *)
Definition joinComma (l : list JsValue) : JsValue := JStr (toString (JArr l)).

(** [ToString] returns on the value.  The conversion of an object looks up
    its method [toString]: an own property of that name is found before the
    method of [Object.prototype], and as the values hold no functions, the
    conversion then throws a [TypeError] ([valueOf] gives no primitive
    either).  An array is convertible when its elements are. *)
Fixpoint convertible (v : JsValue) : bool :=
  match v with
  | JObj properties =>
      negb (existsb (fun property => String.eqb property.1 "toString") properties)
  | JArr elements => forallb convertible elements
  | _ => true
  end.

(** Exceptions and results. *)
Inductive Exn : Type :=
| TypeError (message : string)
| RangeError (message : string).

Inductive Result (A : Type) : Type :=
| Ok (a : A)
| Throw (e : Exn).

Arguments Ok {A} a.
Arguments Throw {A} e.

(** The sequencing of statements that may throw, in stdpp's monad notation
    [x ← r; k]. *)
#[global] Instance Result_bind : MBind Result := fun A B k r =>
  match r with
  | Ok a => k a
  | Throw e => Throw e
  end.

(** ** The module utils: the two normalizers *)

(** [getSearchKey]: the suffix tests in the order the source makes
    them. *)
Definition getSearchKey (variableKey : string) : string :=
  if endsWith variableKey "_in" then
    "fields." +:+ replace variableKey "_in" "" +:+ "[in]"
  else if endsWith variableKey "_not" then
    "fields." +:+ replace variableKey "_not" "" +:+ "[ne]"
  else if endsWith variableKey "_exists" then
    "fields." +:+ replace variableKey "_exists" "" +:+ "[exists]"
  else if endsWith variableKey "_not_in" then
    "fields." +:+ replace variableKey "_not_in" "" +:+ "[nin]"
  else
    "fields." +:+ variableKey.

(** The steps of [getOrderValue] on a non-empty string. *)
Definition orderDots (orderValue : string) : string :=
  replaceAllChar orderValue "_"%char "."%char.

Definition orderPrefix (orderValue : string) : string :=
  if startsWith orderValue "sys." then orderValue else "fields." +:+ orderValue.

Definition orderDirection (orderValue : string) : string :=
  if endsWith orderValue ".DESC" then "-" +:+ replace orderValue ".DESC" ""
  else if endsWith orderValue ".ASC" then replace orderValue ".ASC" ""
  else orderValue.

Definition orderSysDates (orderValue : string) : string :=
  let orderValue :=
    if includes orderValue "sys.firstPublishedAt"
    then replace orderValue "sys.firstPublishedAt" "sys.createdAt"
    else orderValue in
  if includes orderValue "sys.publishedAt"
  then replace orderValue "sys.publishedAt" "sys.updatedAt"
  else orderValue.

(** [getOrderValue]. *)
Definition getOrderValue (orderValue : JsValue) : JsValue :=
  match orderValue with
  | JStr s =>
      if negb (truthy orderValue) then orderValue
      else JStr (orderSysDates (orderDirection (orderPrefix (orderDots s))))
  | _ => orderValue
  end.

(** ** Objects in insertion order *)

(** [o[k] = v] for a key [k] that the assignment makes an own property: an
    existing key keeps its place, a new key goes last. *)
Fixpoint obj_set {V : Type} (k : string) (v : V) (o : list (string * V)) :
    list (string * V) :=
  match o with
  | [] => [(k, v)]
  | (k', v') :: o' =>
      if decide (k' = k) then (k', v) :: o' else (k', v') :: obj_set k v o'
  end.

(** The own property [k] of [o], [None] standing for a key that is not an
    own property. *)
Fixpoint obj_get {V : Type} (k : string) (o : list (string * V)) : option V :=
  match o with
  | [] => None
  | (k', v') :: o' => if decide (k' = k) then Some v' else obj_get k o'
  end.

(** [Object.keys(o)]. *)
Definition obj_keys {V : Type} (o : list (string * V)) : list string := o.*1.

(** [forEach] with a body that may throw: the first exception ends the loop. *)
Fixpoint forEachM {A B : Type} (body : B -> A -> Result B) (acc : B) (l : list A) :
    Result B :=
  match l with
  | [] => Ok acc
  | x :: l' => acc' ← body acc x; forEachM body acc' l'
  end.

(** [omit] of the package lomit, an external collaborator: the object without
    the listed keys. *)
Definition omit (obj : gmap string JsValue) (keys : list string) :
    gmap string JsValue :=
  foldr delete obj keys.

(** [obj[k]] on a parameter set, for a key [k] the object owns: every read
    of this program follows a test [obj.hasOwnProperty(k)] on the same key or
    takes the key from [Object.keys].  ([undefined] stands for a key that is
    not there.) *)
Definition js_get (obj : gmap string JsValue) (k : string) : JsValue :=
  default JUndefined (obj !! k).

(** ** Methods and members inherited from Object.prototype *)

(** The property names of [Object.prototype]. *)
Definition objectPrototypeMembers : list string :=
  [ "constructor"; "__defineGetter__"; "__defineSetter__"; "hasOwnProperty";
    "__lookupGetter__"; "__lookupSetter__"; "isPrototypeOf";
    "propertyIsEnumerable"; "toString"; "valueOf"; "__proto__";
    "toLocaleString" ].

(** The method call [obj.hasOwnProperty(k)] on an object whose own keys
    [owns] tells.  The method is looked up as a property: an own property
    named [hasOwnProperty] is found before the method of [Object.prototype],
    and as the objects of this program hold no functions, calling it throws
    a [TypeError]. *)
Definition callHasOwnProperty (owns : string → bool) (k : string) : Result bool :=
  if owns "hasOwnProperty"
  then Throw (TypeError "hasOwnProperty is not a function")
  else Ok (owns k).

(** [k] is an own property of the parameter set. *)
Definition ownProperty (obj : gmap string JsValue) (k : string) : bool :=
  bool_decide (is_Some (obj !! k)).

(** [obj.hasOwnProperty(k)] on a parameter set. *)
Definition hasOwnProperty (obj : gmap string JsValue) (k : string) : Result bool :=
  callHasOwnProperty (ownProperty obj) k.

(** [o.hasOwnProperty(k)] on an object in insertion order. *)
Definition obj_hasOwnProperty {V : Type} (o : list (string * V)) (k : string) :
    Result bool :=
  callHasOwnProperty (fun key => bool_decide (is_Some (obj_get key o))) k.

(** [filter] with a callback that may throw. *)
Fixpoint js_filterM {A : Type} (p : A → Result bool) (l : list A) : Result (list A) :=
  match l with
  | [] => Ok []
  | x :: l' =>
      keep ← p x;
      rest ← js_filterM p l';
      Ok (if keep : bool then x :: rest else rest)
  end.

(** ** The query AST (the nodes and fields the code reads) *)

(** A value node.  The constructor is the node's [kind], [VariableNode]
    standing for the kind ['Variable']; a variable carries [name.value] and a
    scalar its [value]. *)
Inductive ValueNode : Type :=
| VariableNode (name : string)
| IntValue (value : string)
| FloatValue (value : string)
| StringValue (value : string)
| BooleanValue (value : bool)
| NullValue
| EnumValue (value : string)
| ListValue (values : list ValueNode)
| ObjectValue (fields : list (string * ValueNode)).

(** An [Argument] node: [name.value] and [value]. An [ObjectField] node, a
    pair in [ObjectValue], has the same two parts. *)
Record ArgumentNode : Type := mkArgument {
  arg_name : string;
  arg_value : ValueNode
}.

(** A selection.  Only a [Field] has [arguments]; an inline fragment has no
    [name]. *)
Inductive Selection : Type :=
| Field (name : string) (arguments : list ArgumentNode)
        (selectionSet : option (list Selection))
| FragmentSpread (name : string)
| InlineFragment (selectionSet : list Selection).

Inductive OperationType : Type := query_op | mutation_op | subscription_op.

(** A definition of the document.  [variableDefinitions] holds
    [variable.name.value] of each declaration. *)
Inductive DefinitionNode : Type :=
| OperationDefinition (operation : OperationType) (name : option string)
                      (variableDefinitions : list string)
                      (selectionSet : list Selection)
| FragmentDefinition (name : string) (selectionSet : list Selection).

(** The kinds of the module [constants] that [buildVariableMap] records. *)
Inductive VariableKind : Type := Argument | ObjectField.

(** An own property of the query object other than [definitions]: a query AST
    kept under an operation name, or a value that has no [definitions] and is
    no function (the document's [kind] and [loc]). *)
Inductive OwnProperty : Type :=
| PropAst (definitions : list DefinitionNode)
| PropOther.

Record QueryObject : Type := mkQuery {
  definitions : list DefinitionNode;
  ownProperties : list (string * OwnProperty)
}.

Record Operation : Type := mkOperation {
  query : QueryObject;
  operationName : option string;
  variables : gmap string JsValue
}.

(** The property key an operation name is used as: [undefined] is converted
    to the string ["undefined"]. *)
Definition propertyKey (operationName : option string) : string :=
  default "undefined" operationName.

(** ** The module utils *)

(** [k] is an own property of the query object. *)
Definition queryOwns (query : QueryObject) (k : string) : bool :=
  bool_decide (k = "definitions")
  || bool_decide (is_Some (obj_get k (ownProperties query))).

(** [getRootQuery]: [query[operationName]] when [query.hasOwnProperty] says
    that the query object has that own property, the query object otherwise.
    The result is given by its [definitions], [None] when the value has
    none (the array [query.definitions] itself, the document's [kind]). *)
Definition getRootQuery (operation : Operation) :
    Result (option (list DefinitionNode)) :=
  let key := propertyKey (operationName operation) in
  owned ← callHasOwnProperty (queryOwns (query operation)) key;
  if owned : bool then
    if decide (key = "definitions") then Ok None
    else match obj_get key (ownProperties (query operation)) with
         | Some (PropAst defs) => Ok (Some defs)
         | Some PropOther | None => Ok None
         end
  else Ok (Some (definitions (query operation))).

(** [getRootQuery(operation).definitions] followed by a method call, which
    throws when there is no [definitions]. *)
Definition rootDefinitions (operation : Operation) : Result (list DefinitionNode) :=
  root ← getRootQuery operation;
  match root with
  | Some defs => Ok defs
  | None => Throw (TypeError "Cannot read properties of undefined")
  end.

Definition isOperationDefinition (definition : DefinitionNode) : bool :=
  match definition with
  | OperationDefinition _ _ _ _ => true
  | FragmentDefinition _ _ => false
  end.

Definition isQuery (definition : DefinitionNode) : bool :=
  match definition with
  | OperationDefinition query_op _ _ _ => true
  | _ => false
  end.

(** [Array.prototype.find]. *)
Fixpoint js_find {A : Type} (p : A -> bool) (l : list A) : option A :=
  match l with
  | [] => None
  | x :: l' => if p x then Some x else js_find p l'
  end.

(** [find] with a callback that may throw. *)
Fixpoint js_findM {A : Type} (p : A -> Result bool) (l : list A) : Result (option A) :=
  match l with
  | [] => Ok None
  | x :: l' => b ← p x; if b : bool then Ok (Some x) else js_findM p l'
  end.

(** [selection.name], which an inline fragment does not have. *)
Definition selectionName (selection : Selection) : option string :=
  match selection with
  | Field name _ _ => Some name
  | FragmentSpread name => Some name
  | InlineFragment _ => None
  end.

(** [getRootKey]: [null] is [None]. *)
Definition getRootKey (operation : Operation) : Result (option string) :=
  defs ← rootDefinitions operation;
  match js_find isQuery defs with
  | Some (OperationDefinition _ _ _ selections) =>
      selection ← js_findM (fun selection =>
                              match selectionName selection with
                              | Some _ => Ok true
                              | None => Throw (TypeError "Cannot read properties of undefined (reading 'kind')")
                              end) selections;
      Ok (selection ≫= selectionName)
  | _ => Ok None
  end.

(** The Reserved Parameter Set. *)
Definition contentfulReservedParameters : list string :=
  [ "access_token"; "id"; "include"; "locale"; "content_type"; "select";
    "query"; "links_to_entry"; "links_to_asset"; "order"; "limit"; "skip";
    "mimetype_group"; "preview" ].

Definition nonEmpty (s : string) : bool := negb (String.eqb s "").

(** A binding of the variable map: [{kind, field}]. *)
Definition Binding : Type := VariableKind * string.

(** [variableMap[k] = { kind, field }].  For the key [__proto__] the
    assignment reaches the accessor of [Object.prototype]: it makes the
    binding object the prototype of the map and adds no own property.  The
    binding object owns [kind] and [field] only and inherits from
    [Object.prototype] itself, so what the map inherits besides is as
    before: its methods, and that accessor for a later assignment. *)
Definition setBinding (k : string) (binding : Binding)
    (variableMap : list (string * Binding)) : list (string * Binding) :=
  if decide (k = "__proto__") then variableMap else obj_set k binding variableMap.

(** The body of [argument.value.fields.forEach] in [buildVariableMap]. *)
Definition bindObjectField (variableMap : list (string * Binding))
    (field : string * ValueNode) : list (string * Binding) :=
  match field.2 with
  | VariableNode v =>
      if nonEmpty v && nonEmpty field.1
      then setBinding v (ObjectField, field.1) variableMap
      else variableMap
  | _ => variableMap
  end.

(** The body of [selection.arguments.forEach] in [buildVariableMap]. *)
Definition bindArgument (variableMap : list (string * Binding))
    (argument : ArgumentNode) : list (string * Binding) :=
  match arg_value argument with
  | ObjectValue fields => fold_left bindObjectField fields variableMap
  | VariableNode v =>
      if nonEmpty v && nonEmpty (arg_name argument)
      then setBinding v (Argument, arg_name argument) variableMap
      else variableMap
  | _ => variableMap
  end.

(** [selection.arguments.forEach] / [.map]: only a field has [arguments]. *)
Definition selectionArguments (selection : Selection) : Result (list ArgumentNode) :=
  match selection with
  | Field _ arguments _ => Ok arguments
  | _ => Throw (TypeError "Cannot read properties of undefined")
  end.

Definition definitionSelections (definition : DefinitionNode) : list Selection :=
  match definition with
  | OperationDefinition _ _ _ selections => selections
  | FragmentDefinition _ selections => selections
  end.

(** [buildVariableMap]. *)
Definition buildVariableMap (operation : Operation) : Result (list (string * Binding)) :=
  defs ← rootDefinitions operation;
  forEachM (fun variableMap definition =>
      forEachM (fun variableMap selection =>
          arguments ← selectionArguments selection;
          Ok (fold_left bindArgument arguments variableMap))
        variableMap (definitionSelections definition))
    [] (filter (fun d => isOperationDefinition d = true) defs).

(** A shape descriptor: [null] or an object of shape descriptors.  The
    object has its own entries and its prototype: [None] is
    [Object.prototype], with which every object starts, and [Some shape] the
    value an assignment to [__proto__] has put in its place, [null] or an
    object. *)
Inductive Shape : Type :=
| SNull
| SObj (prototype : option Shape) (entries : list (string * Shape)).

(** The name [__proto__], looked up from the object [shape] along its
    prototypes, is found as the accessor of [Object.prototype]: no object on
    the way owns a property of that name, and the way does not end in a
    [null] prototype before. *)
Fixpoint inheritsProtoAccessor (shape : Shape) : bool :=
  match shape with
  | SNull => false
  | SObj prototype entries =>
      match obj_get "__proto__" entries with
      | Some _ => false
      | None =>
          match prototype with
          | None => true
          | Some parent => inheritsProtoAccessor parent
          end
      end
  end.

(** An object under construction: its prototype and its own entries. *)
Definition ShapeObject : Type := option Shape * list (string * Shape).

Definition newObject : ShapeObject := (None, []).

(** [selections[k] = shape].  The key becomes or stays an own property,
    except for the key [__proto__] while that name is found as the accessor
    of [Object.prototype]: the setter then replaces the prototype by [shape]
    (which is [null] or an object, never a primitive) and no property is
    added.  Once the prototype is [null], or an object that owns or inherits
    a property [__proto__], the same assignment adds an own property. *)
Definition shape_set (k : string) (shape : Shape) (object : ShapeObject) : ShapeObject :=
  if decide (k = "__proto__") then
    if inheritsProtoAccessor (SObj object.1 object.2)
    then (Some shape, object.2)
    else (object.1, obj_set k shape object.2)
  else (object.1, obj_set k shape object.2).

(** The callback of [definitions.find] in [extractSelections]. *)
Definition isFragmentNamed (name : string) (definition : DefinitionNode) : bool :=
  match definition with
  | FragmentDefinition dname _ =>
      nonEmpty dname && nonEmpty name && bool_decide (dname = name)
  | OperationDefinition _ _ _ _ => false
  end.

(** [extractSelections].  The recursion follows fragment definitions by name
    and need not end; [stack] is the number of nested calls the engine still
    admits, and a call beyond it throws the engine's [RangeError]. *)
Fixpoint extractSelections (stack : nat) (selectionSet : option (list Selection))
    (definitions : list DefinitionNode) : Result Shape :=
  match stack with
  | O => Throw (RangeError "Maximum call stack size exceeded")
  | S stack' =>
      match selectionSet with
      | None | Some [] => Ok SNull
      | Some selections =>
          object ← forEachM (fun object selection =>
              match selection with
              | Field name _ selectionSet' =>
                  if nonEmpty name then
                    shape ← extractSelections stack' selectionSet' definitions;
                    Ok (shape_set name shape object)
                  else Ok object
              | FragmentSpread name =>
                  match js_find (isFragmentNamed name) definitions with
                  | Some fragmentDefinition =>
                      shape ← extractSelections stack'
                                (Some (definitionSelections fragmentDefinition))
                                definitions;
                      Ok (shape_set ("..." +:+ name) shape object)
                  | None => Ok object
                  end
              | InlineFragment _ => Ok object
              end) newObject selections;
          Ok (SObj object.1 object.2)
      end
  end.

(** [buildDefinitionMap]: an object with at most one entry, which the
    computed key of the object literal makes an own property whatever the
    name. *)
Definition buildDefinitionMap (stack : nat) (operation : Operation) :
    Result (list (string * Shape)) :=
  match js_find isOperationDefinition (definitions (query operation)) with
  | Some (OperationDefinition _ (Some name) _ selections) =>
      if nonEmpty name then
        shape ← extractSelections stack (Some selections) (definitions (query operation));
        Ok [(name, shape)]
      else Ok []
  | _ => Ok []
  end.

(** [argumentValue?.value] of an element of a list literal. *)
Definition nodeValue (node : ValueNode) : JsValue :=
  match node with
  | IntValue s | FloatValue s | StringValue s | EnumValue s => JStr s
  | BooleanValue b => JBool b
  | _ => JUndefined
  end.

(** The [switch (argument?.value?.kind)] of [parseQueryVariables]; [value]
    starts as [null] and stays so in the default case. *)
Definition literalValue (argument : ArgumentNode) : JsValue :=
  match arg_value argument with
  | ListValue values =>
      joinComma (map (fun argumentValue =>
                        if decide (arg_name argument = "order")
                        then getOrderValue (nodeValue argumentValue)
                        else nodeValue argumentValue) values)
  | BooleanValue b => JBool b
  | EnumValue s | FloatValue s | IntValue s | StringValue s => JStr s
  | VariableNode name => JStr name
  | _ => JNull
  end.

(** The callback of [arguments.map]: [None] is the [null] that the following
    [filter] removes. *)
Definition operationArgument (argument : ArgumentNode) : option (string * JsValue) :=
  if nonEmpty (arg_name argument) then
    let value := literalValue argument in
    if truthy value then Some (arg_name argument, value) else None
  else None.

(** [.reduce((acc, cur) => ({ ...acc, ...cur }), {})] over one-key objects. *)
Definition mergeItems (items : list (string * JsValue)) : gmap string JsValue :=
  fold_left (fun acc cur => {[ cur.1 := cur.2 ]} ∪ acc) items ∅.

(** Layer 1: the inline arguments of the first selection. *)
Definition operationArguments (arguments : list ArgumentNode) : gmap string JsValue :=
  mergeItems (omap operationArgument arguments).

(** The body of the [try] in [parseQueryVariables], for one variable key
    that the [filter] has let through: a key the binding map owns and the
    runtime variables own.  In the translation of [order] both the [map] of
    a value that is no array and the [join] of an element that cannot be
    converted to a string throw. *)
Definition translateVariable (variableMap : list (string * Binding))
    (variables : gmap string JsValue) (variableKey : string) :
    Result (option (string * JsValue)) :=
  match obj_get variableKey variableMap with
  | Some (Argument, field) =>
      if nonEmpty field && bool_decide (field ∈ contentfulReservedParameters) then
        if bool_decide (field = "preview") && negb (truthy (js_get variables variableKey))
        then Ok None
        else if bool_decide (field = "order") then
          match js_get variables variableKey with
          | JArr orderVariables =>
              let orderValues := map getOrderValue orderVariables in
              if forallb convertible orderValues
              then Ok (Some (field, joinComma orderValues))
              else Throw (TypeError "Cannot convert object to primitive value")
          | _ => Throw (TypeError "variables[variableKey].map is not a function")
          end
        else Ok (Some (field, js_get variables variableKey))
      else Ok None
  | Some (ObjectField, field) =>
      Ok (Some (getSearchKey field, js_get variables variableKey))
  | None => Throw (TypeError "Cannot read properties of undefined (reading 'kind')")
  end.

(** [try { ... } catch (err) { console.error(err); return null }]. *)
Definition tryTranslate (variableMap : list (string * Binding))
    (variables : gmap string JsValue) (variableKey : string) :
    option (string * JsValue) :=
  match translateVariable variableMap variables variableKey with
  | Ok item => item
  | Throw _ => None
  end.

(** The callback of the [filter] over [Object.keys(variableMap)]: the two
    method calls, the second made only when the first answers [true]. *)
Definition isBoundVariable (variableMap : list (string * Binding))
    (variables : gmap string JsValue) (variableKey : string) : Result bool :=
  passed ← hasOwnProperty variables variableKey;
  if passed : bool then obj_hasOwnProperty variableMap variableKey else Ok false.

(** Layer 2: the bound-variable translation.  The [filter] runs outside the
    [try]: what its callback throws leaves the translator. *)
Definition operationQueries (variableMap : list (string * Binding))
    (variables : gmap string JsValue) : Result (gmap string JsValue) :=
  variableKeys ← js_filterM (isBoundVariable variableMap variables)
                   (obj_keys variableMap);
  Ok (mergeItems (omap (tryTranslate variableMap variables) variableKeys)).

(** [parseQueryVariables]. *)
Definition parseQueryVariables (operation : Operation) : Result (gmap string JsValue) :=
  variableMap ← buildVariableMap operation;
  defs ← rootDefinitions operation;
  match js_find isOperationDefinition defs with
  | Some (OperationDefinition _ _ operationVariables selections) =>
      match selections with
      | selection :: _ =>
          arguments ← selectionArguments selection;
          queries ← operationQueries variableMap (variables operation);
          Ok (omit (variables operation) operationVariables
              ∪ (queries ∪ operationArguments arguments))
      | [] => Throw (TypeError "Cannot read properties of undefined (reading 'arguments')")
      end
  | _ => Throw (TypeError "Cannot read properties of undefined (reading 'variableDefinitions')")
  end.

(** ** The class ContentfulRestLink *)

Inductive ClientRef : Type := DeliveryClient | PreviewClient.

Inductive QueryMethod : Type := getEntry | getEntries.

(** An argument of the client call: a value, or a parameter object. *)
Inductive QueryArg : Type :=
| ArgValue (v : JsValue)
| ArgParams (params : gmap string JsValue).

Record ContentfulRestLink : Type := mkLink {
  clientOptions : gmap string JsValue;
  queryDefaults : gmap string JsValue;
  (** the options each client was created with *)
  client : gmap string JsValue;
  previewClient : option (gmap string JsValue)
}.

(** The constructor. *)
Definition newContentfulRestLink (clientOptions queryDefaults : gmap string JsValue) :
    Result ContentfulRestLink :=
  hasToken ← hasOwnProperty clientOptions "previewAccessToken";
  Ok {| clientOptions := clientOptions;
        queryDefaults := queryDefaults;
        client := omit clientOptions ["previewAccessToken"];
        previewClient :=
          if hasToken && truthy (js_get clientOptions "previewAccessToken")
          then Some ({[ "host" := JStr "preview.contentful.com" ]}
                     ∪ ({[ "accessToken" := js_get clientOptions "previewAccessToken" ]}
                        ∪ omit clientOptions ["previewAccessToken"]))
          else None |}.

(** What [request] has decided when it calls the client. *)
Record RestCall : Type := mkCall {
  call_rootKey : option string;
  call_client : ClientRef;
  call_method : QueryMethod;
  call_args : list QueryArg
}.

(** The synchronous part of the subscriber function of [request], up to the
    client call [client[queryMethod](...queryArgs)]. *)
Definition prepareCall (link : ContentfulRestLink) (operation : Operation) :
    Result RestCall :=
  rootKey ← getRootKey operation;
  queryVariables ← parseQueryVariables operation;
  hasId ← hasOwnProperty queryVariables "id";
  let queryMethod := if hasId : bool then getEntry else getEntries in
  queryArgs ← match queryMethod with
              | getEntry =>
                  Ok [ ArgValue (js_get queryVariables "id");
                       ArgParams (omit queryVariables ["id"; "preview"]
                                  ∪ queryDefaults link) ]
              | getEntries =>
                  match rootKey with
                  | Some rootKey =>
                      Ok [ ArgParams
                             ({[ "content_type" := JStr (replace rootKey "Collection" "") ]}
                              ∪ (omit queryVariables ["preview"] ∪ queryDefaults link)) ]
                  | None => Throw (TypeError "Cannot read properties of null (reading 'replace')")
                  end
              end;
  usePreview ← match previewClient link with
               | Some _ =>
                   hasPreview ← hasOwnProperty queryVariables "preview";
                   Ok (hasPreview && truthy (js_get queryVariables "preview"))
               | None => Ok false
               end;
  Ok {| call_rootKey := rootKey;
        call_client := if usePreview : bool then PreviewClient else DeliveryClient;
        call_method := queryMethod;
        call_args := queryArgs |}.

(** What the read [definitionMap[operationName]] gives: the own entry of
    that name; for a name the map does not own, the member of
    [Object.prototype] of that name (a method, or for [__proto__] the
    prototype itself); [undefined] for any other name. *)
Inductive ShapeRead : Type :=
| OwnShape (shape : Shape)
| InheritedMember (member : string)
| NoShape.

Definition readShape (definitionMap : list (string * Shape)) (k : string) : ShapeRead :=
  match obj_get k definitionMap with
  | Some shape => OwnShape shape
  | None =>
      if bool_decide (k ∈ objectPrototypeMembers) then InheritedMember k else NoShape
  end.

Section Request.

(** The external collaborators' data: the backend payload, the reshaped
    tree, the evaluated data, the upstream [errors] and the reasons a
    promise is rejected with. *)
Context {Payload Parsed Data Errors Reason : Type}.

(** How a promise settles. *)
Inductive Settled (A : Type) : Type :=
| Fulfilled (a : A)
| Rejected (reason : Reason).

Arguments Fulfilled {A} a.
Arguments Rejected {A} reason.

(** A failure: an exception thrown by this code, or a rejection. *)
Inductive Failure : Type :=
| Thrown (e : Exn)
| Reject (reason : Reason).

(** What the observer of the returned observable is told. *)
Inductive Notification : Type :=
| next (data : Data) (errors : Errors)
| complete
| error (failure : Failure).

Record Collaborators : Type := mkCollaborators {
  (** [client[queryMethod](...queryArgs)] *)
  clientCall : RestCall -> Settled Payload;
  (** [graphqlParser(rootKey, contentfulData, definitionMap[operationName])] *)
  graphqlParser : option string -> Payload -> ShapeRead -> Result Parsed;
  (** [graphql(contentfulResolver, query, parsedData)]: the call may throw,
      and the promise it returns may be rejected *)
  graphql : QueryObject -> Parsed -> Result (Settled Data)
}.

(** The notifications and the [console.error] lines of one subscription. *)
Record Trace : Type := mkTrace {
  notified : list Notification;
  logged : list Failure
}.

(** The [then] callback of the client call, up to the promise of
    [graphql]. *)
Definition reshape (stack : nat) (collaborators : Collaborators)
    (operation : Operation) (call : RestCall) (contentfulData : Payload) :
    Result (Settled Data) :=
  definitionMap ← buildDefinitionMap stack operation;
  parsedData ← graphqlParser collaborators (call_rootKey call) contentfulData
                 (readShape definitionMap (propertyKey (operationName operation)));
  graphql collaborators (query operation) parsedData.

(** The subscriber function of the observable [request] makes for one
    upstream emission [{ data, errors }].  An exception of the subscriber
    function is reported to the observer by the observable itself. *)
Definition subscriber (link : ContentfulRestLink) (stack : nat)
    (collaborators : Collaborators) (operation : Operation) (errors : Errors) :
    Trace :=
  match prepareCall link operation with
  | Throw e => mkTrace [error (Thrown e)] []
  | Ok call =>
      match clientCall collaborators call with
      | Rejected reason => mkTrace [error (Reject reason)] []
      | Fulfilled contentfulData =>
          match reshape stack collaborators operation call contentfulData with
          | Throw e => mkTrace [error (Thrown e)] []
          | Ok (Fulfilled data) => mkTrace [next data errors; complete] []
          | Ok (Rejected reason) => mkTrace [] [Reject reason]
          end
      end
  end.

End Request.

Arguments Settled : clear implicits.
Arguments Fulfilled {Reason A} a.
Arguments Rejected {Reason A} reason.
Arguments Failure : clear implicits.
Arguments Notification : clear implicits.
Arguments Collaborators : clear implicits.
Arguments Trace : clear implicits.

(** ** The specification's wording of the Ordering Normalizer *)

(** The algorithm of the specification, section 4.1, on a string: every [_]
    becomes [.]; [fields.] is prepended unless the result starts with [sys.];
    a trailing [.DESC] is stripped and turned into a leading [-], otherwise a
    trailing [.ASC] is stripped; then the two legacy pseudo-fields are
    remapped. *)
Definition orderValue_spec (s : string) : string :=
  let dotted := replaceAllChar s "_"%char "."%char in
  let prefixed := if startsWith dotted "sys." then dotted else "fields." +:+ dotted in
  let directed :=
    if endsWith prefixed ".DESC" then "-" +:+ stripSuffix prefixed ".DESC"
    else stripSuffix prefixed ".ASC" in
  replace (replace directed "sys.firstPublishedAt" "sys.createdAt")
    "sys.publishedAt" "sys.updatedAt".

(** [pattern] occurs in [s] at most as its suffix: the leftmost occurrence,
    if there is one, ends where [s] ends. *)
Definition onlyAsSuffix (s pattern : string) : bool :=
  match indexOf s pattern with
  | None => true
  | Some i => i + String.length pattern =? String.length s
  end.

(** ** The specification's wording of the Query-Variable Translator *)

(** The shallow merge of layers, a later layer overriding the earlier ones
    on a key they share. *)
Definition shallowMerge (layers : list (gmap string JsValue)) : gmap string JsValue :=
  fold_left (fun merged layer => layer ∪ merged) layers ∅.

(** The runtime variables minus the declared variable names. *)
Definition variablesMinus (variables : gmap string JsValue) (declared : list string) :
    gmap string JsValue :=
  filter (fun entry => entry.1 ∉ declared) variables.

(** Layer 1 in the words of the specification, section 4.6, item 1.  The
    literal of a scalar kind is its value, [None] standing for a value that
    cannot be determined. *)
Definition scalarLiteral_spec (value : ValueNode) : option JsValue :=
  match value with
  | BooleanValue b => Some (JBool b)
  | EnumValue s | FloatValue s | IntValue s | StringValue s => Some (JStr s)
  | _ => None
  end.

(** The text of one element of a list value: its literal, run through the
    Ordering Normalizer first under the argument name [order]; an element
    without a literal stands for the empty text. *)
Definition elementText_spec (argumentName : string) (element : ValueNode) : string :=
  match scalarLiteral_spec element with
  | Some literal =>
      toString (if decide (argumentName = "order") then getOrderValue literal
                else literal)
  | None => ""
  end.

(** The literal of an argument by kind: a list value is the comma-separated
    string of its elements, a scalar kind its literal, a variable reference
    the name of the variable. *)
Definition argumentLiteral_spec (argumentName : string) (value : ValueNode) :
    option JsValue :=
  match value with
  | ListValue elements =>
      Some (JStr (join "," (map (elementText_spec argumentName) elements)))
  | VariableNode variable => Some (JStr variable)
  | _ => scalarLiteral_spec value
  end.

(** What one argument contributes: its literal under its name, and nothing
    when the name or the value cannot be determined or the value is falsy. *)
Definition inlineArgument_spec (argument : ArgumentNode) : gmap string JsValue :=
  match argumentLiteral_spec (arg_name argument) (arg_value argument) with
  | Some literal =>
      if nonEmpty (arg_name argument) && truthy literal
      then {[ arg_name argument := literal ]}
      else ∅
  | None => ∅
  end.

(** The inline literal arguments of a selection, in the order of the
    arguments. *)
Definition inlineArguments_spec (arguments : list ArgumentNode) : gmap string JsValue :=
  shallowMerge (map inlineArgument_spec arguments).

(** The operation without the runtime variable [variableKey]. *)
Definition withoutVariable (variableKey : string) (operation : Operation) : Operation :=
  mkOperation (query operation) (operationName operation)
    (delete variableKey (variables operation)).

(** The root query contains no operation definition. *)
Definition noOperationDefinition (operation : Operation) : Prop :=
  ∀ defs, getRootQuery operation = Ok (Some defs) →
          Forall (fun d => isOperationDefinition d = false) defs.

(** [definition] is the first operation definition of the root query. *)
Definition firstOperationDefinition (operation : Operation)
    (definition : DefinitionNode) : Prop :=
  ∃ defs before after,
    getRootQuery operation = Ok (Some defs)
    ∧ defs = before ++ definition :: after
    ∧ Forall (fun d => isOperationDefinition d = false) before
    ∧ isOperationDefinition definition = true.

(** The selection set of [definition] has no first selection with an
    arguments list: it is empty, or starts with a fragment. *)
Definition lacksFirstArguments (definition : DefinitionNode) : Prop :=
  match definitionSelections definition with
  | Field _ _ _ :: _ => False
  | _ => True
  end.

(** ** The Selection-Tree Extractor: its loop body, and documents whose
    fragments do not spread each other in a cycle *)

(** The body of [selectionSet.selections.forEach] in [extractSelections],
    with [stack] nested calls left for the recursive calls. *)
Definition visitSelection (stack : nat) (definitions : list DefinitionNode)
    (object : ShapeObject) (selection : Selection) : Result ShapeObject :=
  match selection with
  | Field name _ selectionSet' =>
      if nonEmpty name then
        shape ← extractSelections stack selectionSet' definitions;
        Ok (shape_set name shape object)
      else Ok object
  | FragmentSpread name =>
      match js_find (isFragmentNamed name) definitions with
      | Some fragmentDefinition =>
          shape ← extractSelections stack
                    (Some (definitionSelections fragmentDefinition)) definitions;
          Ok (shape_set ("..." +:+ name) shape object)
      | None => Ok object
      end
  | InlineFragment _ => Ok object
  end.

(** How deep the fields of a selection nest. *)
Fixpoint selectionDepth (selection : Selection) : nat :=
  match selection with
  | Field _ _ (Some selections) =>
      S (foldr (fun s d => selectionDepth s `max` d) 0 selections)
  | _ => 0
  end.

Definition selectionsDepth (selections : list Selection) : nat :=
  foldr (fun s d => selectionDepth s `max` d) 0 selections.

(** Every fragment spread of the selection, at any depth of its fields, names
    a fragment that [rank] puts below [bound]. *)
Fixpoint spreadsBelow (rank : string → nat) (bound : nat) (selection : Selection) :
    Prop :=
  match selection with
  | Field _ _ (Some selections) =>
      foldr (fun s rest => spreadsBelow rank bound s ∧ rest) True selections
  | FragmentSpread name => rank name < bound
  | _ => True
  end.

Definition allSpreadsBelow (rank : string → nat) (bound : nat)
    (selections : list Selection) : Prop :=
  foldr (fun s rest => spreadsBelow rank bound s ∧ rest) True selections.

(** The fragments of the document spread only fragments of a lower rank:
    no fragment reaches itself through spreads. *)
Definition fragmentsRanked (rank : string → nat) (definitions : list DefinitionNode) :
    Prop :=
  ∀ name selections,
    FragmentDefinition name selections ∈ definitions →
    allSpreadsBelow rank (rank name) selections.

(** ** Concrete operations *)

Module Scenarios.

(** The own properties of a parsed document besides [definitions]. *)
Definition documentProperties : list (string * OwnProperty) :=
  [("kind", PropOther); ("loc", PropOther)].

(** The link a constructor call has returned; the calls below return. *)
Definition constructed (link : Result ContentfulRestLink) : ContentfulRestLink :=
  match link with
  | Ok link => link
  | Throw _ => mkLink ∅ ∅ ∅ None
  end.

(** A link without a preview client. *)
Definition deliveryOptions : gmap string JsValue :=
  {[ "space" := JStr "space"; "accessToken" := JStr "token" ]}.

Definition deliveryLink : ContentfulRestLink :=
  constructed (newContentfulRestLink deliveryOptions {[ "include" := JNum 10 ]}).

(** A link with a preview client. *)
Definition previewOptions : gmap string JsValue :=
  {[ "space" := JStr "space"; "accessToken" := JStr "token";
     "previewAccessToken" := JStr "preview-token" ]}.

Definition previewLink : ContentfulRestLink :=
  constructed (newContentfulRestLink previewOptions {[ "include" := JNum 10 ]}).

(** [{ blogCollectionPageCollection { items { title } } }]: the collection of
    the content type [blogCollectionPage]. *)
Definition blogPagesOperation : Operation :=
  mkOperation
    (mkQuery
       [ OperationDefinition query_op None []
           [ Field "blogCollectionPageCollection" []
               (Some [ Field "items" [] (Some [ Field "title" [] None ]) ]) ] ]
       documentProperties)
    None ∅.

(** [query($preview: Boolean) { postCollection(preview: $preview) { items { title } } }]
    with the variables [{ preview: true }]. *)
Definition previewOperation : Operation :=
  mkOperation
    (mkQuery
       [ OperationDefinition query_op (Some "Posts") ["preview"]
           [ Field "postCollection"
               [ mkArgument "preview" (VariableNode "preview") ]
               (Some [ Field "items" [] (Some [ Field "title" [] None ]) ]) ] ]
       documentProperties)
    (Some "Posts") {[ "preview" := JBool true ]}.


(** The call [request] makes for it on a link with a preview client. *)
Definition previewCall : RestCall :=
  mkCall (Some "postCollection") PreviewClient getEntries
    [ ArgParams {[ "content_type" := JStr "post"; "include" := JNum 10 ]} ].

(** Collaborators whose backend answers and whose evaluator rejects: the
    payload, the reshaped tree and the data carry nothing, and a promise is
    rejected with a message. *)
Definition rejectingEvaluator : Collaborators unit unit unit string :=
  {| clientCall := fun _ => Fulfilled tt;
     graphqlParser := fun _ _ _ => Ok tt;
     graphql := fun _ _ => Ok (Rejected "evaluation failed") |}.

(** [{ postCollection(order: [publishedAt_DESC], limit: 2) { items { title } } }] *)
Definition latestPostsOperation : Operation :=
  mkOperation
    (mkQuery
       [ OperationDefinition query_op None []
           [ Field "postCollection"
               [ mkArgument "order" (ListValue [EnumValue "publishedAt_DESC"]);
                 mkArgument "limit" (IntValue "2") ]
               (Some [ Field "items" [] (Some [ Field "title" [] None ]) ]) ] ]
       documentProperties)
    None ∅.

(** [query Post($id: String) { post(id: $id) { title } }] with the variables
    [{ id: "abc123", locale: "en-US" }]. *)
Definition postOperation : Operation :=
  mkOperation
    (mkQuery
       [ OperationDefinition query_op (Some "Post") ["id"]
           [ Field "post" [ mkArgument "id" (VariableNode "id") ]
               (Some [ Field "title" [] None ]) ] ]
       documentProperties)
    (Some "Post") {[ "id" := JStr "abc123"; "locale" := JStr "en-US" ]}.

(** A document that holds a fragment and no operation. *)
Definition fragmentOnlyOperation : Operation :=
  mkOperation
    (mkQuery
       [ FragmentDefinition "PostParts" [ Field "title" [] None ] ]
       documentProperties)
    None ∅.

(** [query($draft: Boolean, $live: Boolean) {
       postCollection(preview: $draft) { items { title } }
       pageCollection(preview: $live) { items { title } } }]
    with the variables [{ draft: false, live: true }]. *)
Definition twoPreviewsOperation : Operation :=
  mkOperation
    (mkQuery
       [ OperationDefinition query_op (Some "Both") ["draft"; "live"]
           [ Field "postCollection" [ mkArgument "preview" (VariableNode "draft") ]
               (Some [ Field "items" [] (Some [ Field "title" [] None ]) ]);
             Field "pageCollection" [ mkArgument "preview" (VariableNode "live") ]
               (Some [ Field "items" [] (Some [ Field "title" [] None ]) ]) ] ]
       documentProperties)
    (Some "Both") {[ "draft" := JBool false; "live" := JBool true ]}.

Definition twoPreviewsMap : list (string * Binding) :=
  [ ("draft", (Argument, "preview")); ("live", (Argument, "preview")) ].

(** [{ postCollection(order: $sort) { items { title } } }] with the variables
    [{ sort: "title_ASC" }]: the operation declares no variable, and [sort]
    is a string where the translation of [order] maps over a list. *)
Definition undeclaredOrderOperation : Operation :=
  mkOperation
    (mkQuery
       [ OperationDefinition query_op None []
           [ Field "postCollection" [ mkArgument "order" (VariableNode "sort") ]
               (Some [ Field "items" [] (Some [ Field "title" [] None ]) ]) ] ]
       documentProperties)
    None {[ "sort" := JStr "title_ASC" ]}.

Definition undeclaredOrderMap : list (string * Binding) :=
  [ ("sort", (Argument, "order")) ].

(** [query($sort: [String], $limit: Int) {
       postCollection(order: $sort, limit: $limit) { items { title } } }]
    with the variables [{ sort: "title_ASC", limit: 5 }]: [sort] is a string
    where the translation of [order] maps over a list. *)
Definition badOrderOperation : Operation :=
  mkOperation
    (mkQuery
       [ OperationDefinition query_op (Some "Sorted") ["sort"; "limit"]
           [ Field "postCollection"
               [ mkArgument "order" (VariableNode "sort");
                 mkArgument "limit" (VariableNode "limit") ]
               (Some [ Field "items" [] (Some [ Field "title" [] None ]) ]) ] ]
       documentProperties)
    (Some "Sorted") {[ "sort" := JStr "title_ASC"; "limit" := JNum 5 ]}.

Definition badOrderMap : list (string * Binding) :=
  [ ("sort", (Argument, "order")); ("limit", (Argument, "limit")) ].

(** [query Posts($preview: Boolean) { postCollection(preview: $preview) { items { title } } }]
    with the variables [{ preview: false }]. *)
Definition previewOffOperation : Operation :=
  mkOperation
    (mkQuery
       [ OperationDefinition query_op (Some "Posts") ["preview"]
           [ Field "postCollection"
               [ mkArgument "preview" (VariableNode "preview") ]
               (Some [ Field "items" [] (Some [ Field "title" [] None ]) ]) ] ]
       documentProperties)
    (Some "Posts") {[ "preview" := JBool false ]}.

Definition previewMap : list (string * Binding) :=
  [ ("preview", (Argument, "preview")) ].

(** The definitions of
    [{ post { ...PostParts ...Missing title } }
     fragment PostParts on Post { title author { name } }]. *)
Definition postDefinitions : list DefinitionNode :=
  [ OperationDefinition query_op None []
      [ Field "post" []
          (Some [ FragmentSpread "PostParts"; FragmentSpread "Missing";
                  Field "title" [] None ]) ];
    FragmentDefinition "PostParts"
      [ Field "title" [] None;
        Field "author" [] (Some [ Field "name" [] None ]) ] ].

(** The shape of the fragment [PostParts]. *)
Definition postPartsShape : Shape :=
  SObj None [ ("title", SNull); ("author", SObj None [ ("name", SNull) ]) ].

(** [PostParts] has rank 1, every other name rank 0. *)
Definition postRank (name : string) : nat :=
  if decide (name = "PostParts") then 1 else 0.

End Scenarios.

(** ** Further notions, for the properties of the code beyond the claims *)

(** The character [c] occurs in [s]. *)
Fixpoint hasChar (c : ascii) (s : string) : bool :=
  match s with
  | EmptyString => false
  | String d s' => Ascii.eqb d c || hasChar c s'
  end.

(** [Array.isArray]. *)
Definition isArray (v : JsValue) : bool :=
  match v with
  | JArr _ => true
  | _ => false
  end.

(** The selection is a field, the one kind of selection with [arguments]. *)
Definition isField (selection : Selection) : bool :=
  match selection with
  | Field _ _ _ => true
  | _ => false
  end.

(** The call returns: it does not throw. *)
Definition returns {A : Type} (r : Result A) : Prop := ∃ a, r = Ok a.

(** Every top-level selection of every operation definition is a field. *)
Definition operationsSelectFields (defs : list DefinitionNode) : Prop :=
  ∀ d, d ∈ defs → isOperationDefinition d = true →
       Forall (fun selection => isField selection = true) (definitionSelections d).

(** The keys of a shape descriptor are pairwise distinct, at every level
    and in every prototype. *)
Fixpoint shapeKeysUnique (shape : Shape) : Prop :=
  match shape with
  | SNull => True
  | SObj prototype entries =>
      NoDup (obj_keys entries)
      ∧ foldr (fun entry rest =>
                 match entry with (_, inner) => shapeKeysUnique inner ∧ rest end)
          True entries
      ∧ match prototype with
        | Some parent => shapeKeysUnique parent
        | None => True
        end
  end.

(** The two [hasOwnProperty] calls of layer 2 find the method of
    [Object.prototype]: the map binds no variable, so that no call is made;
    or no runtime variable is named [hasOwnProperty], and either no bound
    variable is, or no bound variable is passed, so that the second call is
    not made. *)
Definition methodsUnshadowed (variableMap : list (string * Binding))
    (variables : gmap string JsValue) : Prop :=
  variableMap = []
  ∨ (variables !! "hasOwnProperty" = None
     ∧ (obj_get "hasOwnProperty" variableMap = None
        ∨ ∀ variableKey, variableKey ∈ obj_keys variableMap →
                         variables !! variableKey = None)).

(** What [buildVariableMap] keeps true of the map it fills. *)
Definition bindingsInvariant (variableMap : list (string * Binding)) : Prop :=
  NoDup (obj_keys variableMap)
  ∧ ∀ variableKey kind field,
      (variableKey, (kind, field)) ∈ variableMap → variableKey ≠ "" ∧ field ≠ "".

Module MoreScenarios.

Import Scenarios.

(** [mutation { publish(id: "1") { ok } }]: an operation that is no query. *)
Definition publishOperation : Operation :=
  mkOperation
    (mkQuery
       [ OperationDefinition mutation_op None []
           [ Field "publish" [ mkArgument "id" (StringValue "1") ]
               (Some [ Field "ok" [] None ]) ] ]
       documentProperties)
    None ∅.

(** [query Post { ...PostParts }]: the only top-level selection is a spread. *)
Definition spreadFirstOperation : Operation :=
  mkOperation
    (mkQuery
       [ OperationDefinition query_op (Some "Post") [] [ FragmentSpread "PostParts" ];
         FragmentDefinition "PostParts" [ Field "title" [] None ] ]
       documentProperties)
    (Some "Post") ∅.

End MoreScenarios.

Module ExtractorScenarios.

(** The definitions of [{ post { ...Loop } } fragment Loop on Post { title ...Loop }]:
    the fragment spreads itself. *)
Definition loopDefinitions : list DefinitionNode :=
  [ OperationDefinition query_op (Some "Post") []
      [ Field "post" [] (Some [ FragmentSpread "Loop" ]) ];
    FragmentDefinition "Loop" [ Field "title" [] None; FragmentSpread "Loop" ] ].

(** [query Post { post { title } }] under the operation name [Post], and the
    same document under the operation name [Other]. *)
Definition namedPostOperation (operationName : string) : Operation :=
  mkOperation
    (mkQuery
       [ OperationDefinition query_op (Some "Post") []
           [ Field "post" [] (Some [ Field "title" [] None ]) ] ]
       Scenarios.documentProperties)
    (Some operationName) ∅.

End ExtractorScenarios.

Module ParameterScenarios.

Import Scenarios.

(** [{ postCollection(limit: 2) { items { title } } }] with the runtime
    variable [limit: 5], which the operation does not declare. *)
Definition undeclaredLimitOperation : Operation :=
  mkOperation
    (mkQuery
       [ OperationDefinition query_op None []
           [ Field "postCollection" [ mkArgument "limit" (IntValue "2") ]
               (Some [ Field "items" [] (Some [ Field "title" [] None ]) ]) ] ]
       documentProperties)
    None {[ "limit" := JNum 5 ]}.

(** [query($ids: [String]) { postCollection(where: { sys_id_in: $ids }) { items { title } } }]
    with the variables [{ ids: ["a", "b"] }]: a variable bound inside an
    object value. *)
Definition whereOperation : Operation :=
  mkOperation
    (mkQuery
       [ OperationDefinition query_op (Some "Some") ["ids"]
           [ Field "postCollection"
               [ mkArgument "where" (ObjectValue [ ("sys_id_in", VariableNode "ids") ]) ]
               (Some [ Field "items" [] (Some [ Field "title" [] None ]) ]) ] ]
       documentProperties)
    (Some "Some") {[ "ids" := JArr [ JStr "a"; JStr "b" ] ]}.

Definition whereMap : list (string * Binding) :=
  [ ("ids", (ObjectField, "sys_id_in")) ].

End ParameterScenarios.

(** ** Facts about JavaScript strings *)

Module JsStringFacts.

Lemma app_cons (c : ascii) (a b : string) : String c a +:+ b = String c (a +:+ b).
Proof. reflexivity. Qed.

Lemma app_nil (b : string) : "" +:+ b = b.
Proof. reflexivity. Qed.

Lemma length_app (a b : string) :
  String.length (a +:+ b) = String.length a + String.length b.
Proof.
  induction a as [|c a IH]; [done |].
  rewrite app_cons. simpl. by rewrite IH.
Qed.

Lemma app_empty_r (a : string) : a +:+ "" = a.
Proof. induction a as [|c a IH]; [done |]. by rewrite app_cons, IH. Qed.

Lemma app_assoc (a b c : string) : (a +:+ b) +:+ c = a +:+ (b +:+ c).
Proof. induction a as [|x a IH]; [done |]. by rewrite !app_cons, IH. Qed.

Lemma drop_app (a b : string) (n : nat) :
  drop (String.length a + n) (a +:+ b) = drop n b.
Proof. induction a as [|c a IH]; [done |]. rewrite app_cons. simpl. done. Qed.

Lemma drop_all (s : string) : drop (String.length s) s = "".
Proof. induction s as [|c s IH]; simpl; done. Qed.

Lemma startsWith_app (p s : string) : startsWith (p +:+ s) p = true.
Proof.
  induction p as [|c p IH]; [done |].
  rewrite app_cons. simpl. by rewrite Ascii.eqb_refl.
Qed.

Lemma startsWith_inv (s p : string) :
  startsWith s p = true → s = p +:+ drop (String.length p) s.
Proof.
  revert s. induction p as [|c p IH]; intros [|d s]; simpl; try done.
  destruct (Ascii.eqb_spec c d) as [->|]; [|done].
  intros H. rewrite app_cons. f_equal. by apply IH.
Qed.

(** A suffix is found whatever stands before it. *)
Lemma endsWith_app (a b pat : string) :
  String.length pat ≤ String.length b →
  endsWith (a +:+ b) pat = endsWith b pat.
Proof.
  intros Hle. unfold endsWith. rewrite length_app.
  destruct (Nat.leb_spec (String.length pat) (String.length b)); [|lia].
  destruct (Nat.leb_spec (String.length pat) (String.length a + String.length b)); [|lia].
  replace (String.length a + String.length b - String.length pat)
    with (String.length a + (String.length b - String.length pat)) by lia.
  by rewrite drop_app.
Qed.

Lemma take_drop (n : nat) (s : string) : s = take n s +:+ drop n s.
Proof.
  revert s. induction n as [|n IH]; intros [|c s]; simpl; try done.
  rewrite app_cons. f_equal. apply IH.
Qed.

Lemma endsWith_inv (s pat : string) :
  endsWith s pat = true →
  s = take (String.length s - String.length pat) s +:+ pat.
Proof.
  unfold endsWith.
  destruct (Nat.leb_spec (String.length pat) (String.length s)); [|done].
  intros Heq%String.eqb_eq.
  rewrite <- Heq at 2. apply take_drop.
Qed.

Lemma startsWith_refl (p : string) : startsWith p p = true.
Proof. rewrite <- (app_empty_r p) at 1. apply startsWith_app. Qed.

Lemma indexOf_unfold (s pat : string) :
  indexOf s pat =
    if startsWith s pat then Some 0
    else match s with
         | EmptyString => None
         | String _ s' => S <$> indexOf s' pat
         end.
Proof. destruct s; reflexivity. Qed.

(** A suffix is an occurrence. *)
Lemma indexOf_app_suffix (t pat : string) : is_Some (indexOf (t +:+ pat) pat).
Proof.
  induction t as [|c t IH].
  - rewrite app_nil, indexOf_unfold, startsWith_refl. eauto.
  - rewrite app_cons, indexOf_unfold.
    destruct (startsWith _ pat); [eauto |].
    destruct IH as [i ->]. simpl. eauto.
Qed.

(** [replace] in terms of [indexOf], as the language standard words it. *)
Lemma replace_indexOf (s pat rep : string) :
  replace s pat rep =
    match indexOf s pat with
    | Some i => take i s +:+ rep +:+ drop (i + String.length pat) s
    | None => s
    end.
Proof.
  induction s as [|c s IH]; simpl.
  - destruct (startsWith "" pat); done.
  - destruct (startsWith (String c s) pat); [done |].
    rewrite IH. destruct (indexOf s pat); simpl; [by rewrite app_cons | done].
Qed.

Lemma includes_false_replace (s pat rep : string) :
  includes s pat = false → replace s pat rep = s.
Proof.
  unfold includes. rewrite replace_indexOf.
  destruct (indexOf s pat); [|done].
  intros H. apply bool_decide_eq_false in H. destruct H. eauto.
Qed.

(** The guard [if (s.includes(p))] before a [replace] changes nothing. *)
Lemma includes_guard (s pat rep : string) :
  (if includes s pat then replace s pat rep else s) = replace s pat rep.
Proof.
  destruct (includes s pat) eqn:H; [done |].
  by rewrite includes_false_replace.
Qed.

Lemma endsWith_refl (pat : string) : endsWith pat pat = true.
Proof.
  unfold endsWith. rewrite Nat.leb_refl, Nat.sub_diag. simpl.
  apply String.eqb_refl.
Qed.

(** The leftmost occurrence is an occurrence. *)
Lemma indexOf_Some_inv (s pat : string) (i : nat) :
  indexOf s pat = Some i →
  s = take i s +:+ pat +:+ drop (i + String.length pat) s.
Proof.
  revert i. induction s as [|c s IH]; intros i; rewrite indexOf_unfold.
  - destruct (startsWith "" pat) eqn:Hstart; [| done].
    intros [= <-]. by apply startsWith_inv.
  - destruct (startsWith (String c s) pat) eqn:Hstart.
    + intros [= <-]. by apply startsWith_inv.
    + destruct (indexOf s pat) as [j|]; [| done]. simpl.
      intros [= <-]. simpl. rewrite app_cons. f_equal. by apply IH.
Qed.

(** An occurrence that ends where the string ends is a suffix. *)
Lemma indexOf_endsWith (s pat : string) (i : nat) :
  indexOf s pat = Some i → i + String.length pat = String.length s →
  endsWith s pat = true.
Proof.
  intros Hi%indexOf_Some_inv Hlen.
  rewrite Hlen, drop_all, app_empty_r in Hi. rewrite Hi.
  rewrite endsWith_app by done. apply endsWith_refl.
Qed.

(** Where the pattern occurs at most as the suffix, replacing its leftmost
    occurrence by the empty string strips the suffix. *)
Lemma replace_onlyAsSuffix (s pat : string) :
  onlyAsSuffix s pat = true → replace s pat "" = stripSuffix s pat.
Proof.
  unfold onlyAsSuffix, stripSuffix. intros Honly.
  rewrite replace_indexOf.
  destruct (indexOf s pat) as [i|] eqn:Hi.
  - apply Nat.eqb_eq in Honly.
    rewrite (indexOf_endsWith s pat i Hi Honly).
    rewrite Honly, drop_all.
    change ("" +:+ "") with "". rewrite app_empty_r. f_equal. lia.
  - destruct (endsWith s pat) eqn:Hends; [| done].
    exfalso. apply endsWith_inv in Hends.
    destruct (indexOf_app_suffix
                (take (String.length s - String.length pat) s) pat) as [i Hsome].
    rewrite <- Hends in Hsome. congruence.
Qed.

End JsStringFacts.

(** ** The Search-Key Mapper *)

Section SearchKey.

Import JsStringFacts.

Lemma endsWith_not_in_in (b : string) : endsWith (b +:+ "_not_in") "_in" = true.
Proof. rewrite endsWith_app; [reflexivity | simpl; lia]. Qed.

(** What [getSearchKey] returns always starts with [fields.]. *)
Lemma getSearchKey_fields (variableKey : string) :
  startsWith (getSearchKey variableKey) "fields." = true.
Proof.
  unfold getSearchKey.
  repeat (match goal with |- context [if ?c then _ else _] => destruct c end);
    apply (startsWith_app "fields.").
Qed.

(** C1 (the code departs from the claim).  For every base name [b], the key
    [b_not_in] is caught by the test for the suffix [_in], which the source
    makes first: [getSearchKey] answers with the [in] operator on the key
    without its leftmost [_in], never with [fields.b[nin]]; so [title_not_in]
    maps to [fields.title_not[in]].  The branch for [_not_in] is never
    reached. *)
Theorem getSearchKey_not_in_shadowed (b : string) :
  getSearchKey (b +:+ "_not_in")
    = "fields." +:+ replace (b +:+ "_not_in") "_in" "" +:+ "[in]"
  ∧ getSearchKey (b +:+ "_not_in") ≠ "fields." +:+ b +:+ "[nin]"
  ∧ getSearchKey "title_not_in" = "fields.title_not[in]".
Proof.
  assert (getSearchKey (b +:+ "_not_in")
          = "fields." +:+ replace (b +:+ "_not_in") "_in" "" +:+ "[in]") as Hkey.
  { unfold getSearchKey. by rewrite endsWith_not_in_in. }
  split; [exact Hkey |]. split; [| reflexivity].
  rewrite Hkey. intros Heq.
  apply (f_equal (fun s => endsWith s "[in]")) in Heq.
  rewrite <- !app_assoc in Heq.
  rewrite !endsWith_app in Heq by (simpl; lia).
  discriminate Heq.
Qed.

(** The keys with one suffix, and without one. *)
Example getSearchKey_suffixes :
  getSearchKey "title_in" = "fields.title[in]"
  ∧ getSearchKey "title_not" = "fields.title[ne]"
  ∧ getSearchKey "title_exists" = "fields.title[exists]"
  ∧ getSearchKey "title" = "fields.title"
  ∧ getSearchKey "title_contains" = "fields.title_contains".
Proof. by repeat split. Qed.

End SearchKey.

(** ** The Ordering Normalizer *)

Section OrderValue.

Import JsStringFacts.

Lemma orderSysDates_replace (s : string) :
  orderSysDates s
  = replace (replace s "sys.firstPublishedAt" "sys.createdAt")
      "sys.publishedAt" "sys.updatedAt".
Proof. unfold orderSysDates. by rewrite !includes_guard. Qed.

(** On the empty string the algorithm of the specification prepends
    [fields.]; the guard [!orderValue] of the code returns the empty string
    as it is. *)
Lemma getOrderValue_empty_string :
  orderValue_spec "" = "fields."
  ∧ getOrderValue (JStr "") = JStr ""
  ∧ getOrderValue (JStr "") ≠ JStr (orderValue_spec "").
Proof. split; [reflexivity |]. split; [reflexivity | discriminate]. Qed.

(** The code and the algorithm of the specification agree on every non-empty
    order expression whose direction suffix, where it has one, is the
    leftmost occurrence of [.DESC] (of [.ASC]) in its dotted and prefixed
    form; every value that is not a string is returned unchanged. *)
Lemma getOrderValue_agrees :
  (∀ s : string,
      s ≠ "" →
      (endsWith (orderPrefix (orderDots s)) ".DESC" = true →
       onlyAsSuffix (orderPrefix (orderDots s)) ".DESC" = true) →
      (endsWith (orderPrefix (orderDots s)) ".DESC" = false →
       endsWith (orderPrefix (orderDots s)) ".ASC" = true →
       onlyAsSuffix (orderPrefix (orderDots s)) ".ASC" = true) →
      getOrderValue (JStr s) = JStr (orderValue_spec s))
  ∧ (∀ v : JsValue, (∀ s, v ≠ JStr s) → getOrderValue v = v)
  ∧ getOrderValue (JStr "field_DESC") = JStr "-fields.field"
  ∧ getOrderValue (JStr "field_ASC") = JStr "fields.field"
  ∧ getOrderValue (JStr "sys.publishedAt_DESC") = JStr "-sys.updatedAt".
Proof.
  split; [| split; [| by repeat split]].
  - intros s Hne Hdesc Hasc. unfold getOrderValue, truthy.
    destruct (String.eqb_spec s "") as [|_]; [done |]. simpl negb. cbv iota.
    f_equal. rewrite orderSysDates_replace. unfold orderValue_spec.
    f_equal. f_equal.
    change (replaceAllChar s "_" ".") with (orderDots s).
    change (if startsWith (orderDots s) "sys." then orderDots s
            else "fields." +:+ orderDots s) with (orderPrefix (orderDots s)).
    unfold orderDirection.
    destruct (endsWith (orderPrefix (orderDots s)) ".DESC") eqn:Hd.
    + by rewrite replace_onlyAsSuffix by auto.
    + destruct (endsWith (orderPrefix (orderDots s)) ".ASC") eqn:Ha.
      * by rewrite replace_onlyAsSuffix by auto.
      * unfold stripSuffix. by rewrite Ha.
  - intros v Hv. destruct v; try reflexivity. by destruct (Hv s).
Qed.

(** A pattern that starts with a character the prefix [b] does not hold is
    found in [b +:+ pattern +:+ t] right after [b]. *)
Lemma replace_after_fresh (c : ascii) (p b rep t : string) :
  hasChar c b = false →
  replace (b +:+ String c p +:+ t) (String c p) rep = b +:+ rep +:+ t.
Proof.
  intros Hb. induction b as [|d b IH].
  - rewrite !app_nil. destruct (String c p +:+ t) as [|x y] eqn:Heq;
      [by rewrite app_cons in Heq |].
    rewrite <- Heq. clear Heq x y.
    assert (replace (String c p +:+ t) (String c p) rep
            = rep +:+ drop (String.length (String c p)) (String c p +:+ t)) as ->.
    { rewrite app_cons. cbn [replace]. rewrite <- app_cons.
      by rewrite startsWith_app. }
    f_equal. rewrite <- (Nat.add_0_r (String.length (String c p))).
    by rewrite drop_app.
  - simpl in Hb. apply orb_false_iff in Hb as [Hd Hb].
    rewrite (app_cons d b (String c p +:+ t)), (app_cons d b (rep +:+ t)).
    cbn [replace startsWith].
    rewrite Ascii.eqb_sym, Hd. by rewrite IH.
Qed.

Lemma stripSuffix_app (a pat : string) : stripSuffix (a +:+ pat) pat = a.
Proof.
  unfold stripSuffix.
  rewrite endsWith_app, endsWith_refl by done.
  rewrite length_app, Nat.add_sub.
  induction a as [|x a IH]; [by destruct pat |].
  rewrite app_cons. simpl. by rewrite IH.
Qed.

(** C6 (the code departs from the claim).  Where the dotted and prefixed
    expression ends with [.DESC], the code removes the leftmost [.DESC], not
    the trailing one: for every field identifier that starts with [DESC] the
    direction stays at the end and the identifier loses its first letters.
    So [DESCRIPTION_DESC] yields [-fieldsRIPTION.DESC], where the claim
    strips the trailing [.DESC] and yields [-fields.DESCRIPTION]. *)
Theorem getOrderValue_removes_leftmost_DESC :
  (∀ rest : string,
      orderDirection ("fields.DESC" +:+ rest +:+ ".DESC")
      = "-fields" +:+ rest +:+ ".DESC"
      ∧ "-" +:+ stripSuffix ("fields.DESC" +:+ rest +:+ ".DESC") ".DESC"
        = "-fields.DESC" +:+ rest)
  ∧ getOrderValue (JStr "DESCRIPTION_DESC") = JStr "-fieldsRIPTION.DESC"
  ∧ orderValue_spec "DESCRIPTION_DESC" = "-fields.DESCRIPTION"
  ∧ getOrderValue (JStr "DESCRIPTION_DESC")
    ≠ JStr (orderValue_spec "DESCRIPTION_DESC").
Proof.
  split; [| split; [reflexivity | split; [reflexivity | discriminate]]].
  intros rest.
  assert (endsWith ("fields.DESC" +:+ rest +:+ ".DESC") ".DESC" = true) as Hends.
  { rewrite <- app_assoc. rewrite endsWith_app; [reflexivity | simpl; lia]. }
  split.
  - unfold orderDirection. rewrite Hends.
    change ("fields.DESC" +:+ rest +:+ ".DESC")
      with ("fields" +:+ ".DESC" +:+ (rest +:+ ".DESC")).
    rewrite (replace_after_fresh "." "DESC" "fields" "" (rest +:+ ".DESC"))
      by reflexivity.
    reflexivity.
  - change ("-fields.DESC" +:+ rest) with ("-" +:+ ("fields.DESC" +:+ rest)).
    f_equal. rewrite <- app_assoc. apply stripSuffix_app.
Qed.

End OrderValue.

(** ** Parameter sets *)

Section ParameterSets.

Lemma lookup_omit (obj : gmap string JsValue) (keys : list string) (k : string) :
  omit obj keys !! k = if decide (k ∈ keys) then None else obj !! k.
Proof.
  unfold omit. induction keys as [|k' keys IH].
  - done.
  - cbn [foldr]. destruct (decide (k' = k)) as [->|Hne].
    + rewrite lookup_delete_eq. rewrite decide_True; [done |].
      apply list_elem_of_here.
    + rewrite lookup_delete_ne, IH by done.
      destruct (decide (k ∈ keys)) as [Hin|Hnin].
      * rewrite decide_True; [done | by apply elem_of_cons; right].
      * rewrite decide_False; [done |].
        intros [?|?]%elem_of_cons; congruence.
Qed.

Lemma ownProperty_true (obj : gmap string JsValue) (k : string) :
  ownProperty obj k = true ↔ is_Some (obj !! k).
Proof. unfold ownProperty. apply bool_decide_eq_true. Qed.

Lemma ownProperty_false (obj : gmap string JsValue) (k : string) :
  ownProperty obj k = false ↔ obj !! k = None.
Proof.
  unfold ownProperty. rewrite bool_decide_eq_false.
  by rewrite eq_None_not_Some.
Qed.

(** The method call answers when no own property shadows the method, and
    throws when one does. *)
Lemma hasOwnProperty_unshadowed (obj : gmap string JsValue) (k : string) :
  obj !! "hasOwnProperty" = None → hasOwnProperty obj k = Ok (ownProperty obj k).
Proof.
  intros Hnone%ownProperty_false. unfold hasOwnProperty, callHasOwnProperty.
  by rewrite Hnone.
Qed.

Lemma hasOwnProperty_shadowed (obj : gmap string JsValue) (k : string) :
  is_Some (obj !! "hasOwnProperty") →
  hasOwnProperty obj k = Throw (TypeError "hasOwnProperty is not a function").
Proof.
  intros Hsome%ownProperty_true. unfold hasOwnProperty, callHasOwnProperty.
  by rewrite Hsome.
Qed.

Lemma hasOwnProperty_Ok (obj : gmap string JsValue) (k : string) (b : bool) :
  hasOwnProperty obj k = Ok b
  ↔ obj !! "hasOwnProperty" = None ∧ ownProperty obj k = b.
Proof.
  destruct (obj !! "hasOwnProperty") as [v|] eqn:Hown.
  - rewrite hasOwnProperty_shadowed by eauto. split; [done | by intros [? _]].
  - rewrite hasOwnProperty_unshadowed by done. split.
    + by intros [= <-].
    + by intros [_ <-].
Qed.

Lemma returns_hasOwnProperty (obj : gmap string JsValue) (k : string) :
  returns (hasOwnProperty obj k) ↔ obj !! "hasOwnProperty" = None.
Proof.
  split.
  - intros [b Hb]. by apply hasOwnProperty_Ok in Hb as [? _].
  - intros Hnone. rewrite hasOwnProperty_unshadowed by done. by eexists.
Qed.

Lemma truthy_js_get (obj : gmap string JsValue) (k : string) :
  truthy (js_get obj k) = true ↔ ∃ v, obj !! k = Some v ∧ truthy v = true.
Proof.
  unfold js_get. destruct (obj !! k) as [v|]; simpl.
  - split; [eauto | by intros (? & [= <-] & ?)].
  - split; [done | by intros (? & ? & ?)].
Qed.

End ParameterSets.

(** ** The Request Orchestrator *)

Section Orchestrator.

Import Scenarios.




(** What [request] decides, given the root key and a parameter set in which
    nothing shadows [hasOwnProperty]. *)
Lemma prepareCall_dispatch (link : ContentfulRestLink) (operation : Operation)
    (rootKey : option string) (queryVariables : gmap string JsValue) :
  getRootKey operation = Ok rootKey →
  parseQueryVariables operation = Ok queryVariables →
  queryVariables !! "hasOwnProperty" = None →
  prepareCall link operation =
    let usePreview :=
      bool_decide (is_Some (previewClient link))
      && ownProperty queryVariables "preview"
      && truthy (js_get queryVariables "preview") in
    let chosen := if usePreview then PreviewClient else DeliveryClient in
    if ownProperty queryVariables "id" then
      Ok (mkCall rootKey chosen getEntry
            [ ArgValue (js_get queryVariables "id");
              ArgParams (omit queryVariables ["id"; "preview"] ∪ queryDefaults link) ])
    else
      match rootKey with
      | Some key =>
          Ok (mkCall rootKey chosen getEntries
                [ ArgParams ({[ "content_type" := JStr (replace key "Collection" "") ]}
                             ∪ (omit queryVariables ["preview"] ∪ queryDefaults link)) ])
      | None => Throw (TypeError "Cannot read properties of null (reading 'replace')")
      end.
Proof.
  intros Hroot Hparse Hown. unfold prepareCall. rewrite Hroot, Hparse. simpl.
  rewrite !hasOwnProperty_unshadowed by done. simpl.
  destruct (ownProperty queryVariables "id").
  - simpl. by destruct (previewClient link).
  - destruct rootKey; [| done]. simpl. by destruct (previewClient link).
Qed.

(** With a parameter set that owns a property [hasOwnProperty], the test for
    [id] throws. *)
Lemma prepareCall_shadowed (link : ContentfulRestLink) (operation : Operation)
    (rootKey : option string) (queryVariables : gmap string JsValue) :
  getRootKey operation = Ok rootKey →
  parseQueryVariables operation = Ok queryVariables →
  is_Some (queryVariables !! "hasOwnProperty") →
  prepareCall link operation
  = Throw (TypeError "hasOwnProperty is not a function").
Proof.
  intros Hroot Hparse Hown. unfold prepareCall. rewrite Hroot, Hparse. simpl.
  rewrite (hasOwnProperty_shadowed queryVariables "id") by done. reflexivity.
Qed.

(** A call is made only with a root key read and a parameter set in which
    nothing shadows [hasOwnProperty]. *)
Lemma prepareCall_Ok_inv (link : ContentfulRestLink) (operation : Operation)
    (queryVariables : gmap string JsValue) (call : RestCall) :
  parseQueryVariables operation = Ok queryVariables →
  prepareCall link operation = Ok call →
  queryVariables !! "hasOwnProperty" = None
  ∧ ∃ rootKey, getRootKey operation = Ok rootKey.
Proof.
  intros Hparse Hcall.
  destruct (getRootKey operation) as [rootKey|e] eqn:Hroot;
    [| unfold prepareCall in Hcall; rewrite Hroot in Hcall; discriminate].
  split; [| by exists rootKey].
  destruct (queryVariables !! "hasOwnProperty") as [v|] eqn:Hown; [| done].
  rewrite (prepareCall_shadowed link operation rootKey queryVariables) in Hcall
    by eauto.
  discriminate Hcall.
Qed.

(** X19.  On a root key in which [Collection] occurs at most as the suffix,
    and with a parameter set that has no [id] and shadows no method,
    [getEntries] is called with the root key without that suffix. *)
Lemma prepareCall_content_type_suffix (link : ContentfulRestLink)
    (operation : Operation) (rootKey : string) (queryVariables : gmap string JsValue) :
  getRootKey operation = Ok (Some rootKey) →
  parseQueryVariables operation = Ok queryVariables →
  queryVariables !! "hasOwnProperty" = None →
  queryVariables !! "id" = None →
  onlyAsSuffix rootKey "Collection" = true →
  ∃ chosen,
    prepareCall link operation
    = Ok (mkCall (Some rootKey) chosen getEntries
            [ ArgParams ({[ "content_type" := JStr (stripSuffix rootKey "Collection") ]}
                         ∪ (omit queryVariables ["preview"] ∪ queryDefaults link)) ]).
Proof.
  intros Hroot Hparse Hown Hid Honly.
  rewrite (prepareCall_dispatch link operation _ _ Hroot Hparse Hown). cbv zeta.
  apply ownProperty_false in Hid. rewrite Hid.
  rewrite JsStringFacts.replace_onlyAsSuffix by done. eauto.
Qed.

(** The two end-to-end scenarios of the specification. *)
Example prepareCall_latest_posts :
  prepareCall deliveryLink latestPostsOperation
  = Ok (mkCall (Some "postCollection") DeliveryClient getEntries
          [ ArgParams {[ "content_type" := JStr "post";
                         "order" := JStr "-fields.publishedAt";
                         "limit" := JStr "2";
                         "include" := JNum 10 ]} ]).
Proof. vm_compute. reflexivity. Qed.

Example prepareCall_post_by_id :
  prepareCall deliveryLink postOperation
  = Ok (mkCall (Some "post") DeliveryClient getEntry
          [ ArgValue (JStr "abc123");
            ArgParams {[ "locale" := JStr "en-US"; "include" := JNum 10 ]} ]).
Proof. vm_compute. reflexivity. Qed.

(** C3 (the code departs from the claim).  For the collection of the content
    type [blogCollectionPage] the orchestrator calls [getEntries] with the
    content type [blogPageCollection]: [replace] removes the leftmost
    [Collection] of the root key, where the claim strips the trailing one,
    which gives [blogCollectionPage]. *)
Theorem prepareCall_removes_leftmost_Collection :
  prepareCall deliveryLink blogPagesOperation
  = Ok (mkCall (Some "blogCollectionPageCollection") DeliveryClient getEntries
          [ ArgParams {[ "content_type" := JStr "blogPageCollection";
                         "include" := JNum 10 ]} ])
  ∧ stripSuffix "blogCollectionPageCollection" "Collection" = "blogCollectionPage".
Proof. split; vm_compute; reflexivity. Qed.



(** X18.  Whatever the collaborators do, the observer is told of a result and
    the completion, or of one failure, or of nothing; and of nothing exactly
    when the promise of the evaluator is rejected. *)
Lemma subscriber_outcomes {Payload Parsed Data Errors Reason : Type}
    (link : ContentfulRestLink) (stack : nat)
    (collaborators : Collaborators Payload Parsed Data Reason)
    (operation : Operation) (errors : Errors) :
  let trace := subscriber link stack collaborators operation errors in
  (∃ data, notified trace = [next data errors; complete] ∧ logged trace = [])
  ∨ (∃ failure, notified trace = [error failure] ∧ logged trace = [])
  ∨ (∃ call contentfulData reason,
        prepareCall link operation = Ok call
        ∧ clientCall collaborators call = Fulfilled contentfulData
        ∧ reshape stack collaborators operation call contentfulData
          = Ok (Rejected reason)
        ∧ notified trace = [] ∧ logged trace = [Reject reason]).
Proof.
  unfold subscriber.
  destruct (prepareCall link operation) as [call|e]; [| right; left; eauto].
  destruct (clientCall collaborators call) as [contentfulData|reason] eqn:Hfetch;
    [| right; left; eauto].
  destruct (reshape stack collaborators operation call contentfulData)
    as [[data|reason]|e] eqn:Hreshape.
  - left. eauto.
  - right. right. exists call, contentfulData, reason. done.
  - right. left. eauto.
Qed.

(** C2 (the code departs from the claim).  When the backend call succeeds
    and the promise of the evaluator [graphql] is rejected, the rejection is
    written to the console and the observer is told nothing: no result, no
    completion, no failure. *)
Theorem subscriber_evaluate_rejection_silent {Payload Parsed Data Errors Reason : Type}
    (link : ContentfulRestLink) (stack : nat)
    (collaborators : Collaborators Payload Parsed Data Reason)
    (operation : Operation) (errors : Errors)
    (call : RestCall) (contentfulData : Payload) (reason : Reason) :
  prepareCall link operation = Ok call →
  clientCall collaborators call = Fulfilled contentfulData →
  reshape stack collaborators operation call contentfulData
    = Ok (Rejected reason) →
  subscriber link stack collaborators operation errors
  = @mkTrace Data Errors Reason [] [Reject reason].
Proof.
  intros Hcall Hfetch Hreshape. unfold subscriber.
  by rewrite Hcall, Hfetch, Hreshape.
Qed.

(** C2 at a request whose evaluator rejects. *)
Lemma subscriber_evaluate_rejection_silent_witness :
  prepareCall previewLink previewOperation = Ok previewCall
  ∧ notified (subscriber previewLink 100 rejectingEvaluator previewOperation tt) = [].
Proof.
  assert (prepareCall previewLink previewOperation = Ok previewCall) as Hcall
    by (vm_compute; reflexivity).
  split; [exact Hcall |].
  rewrite (subscriber_evaluate_rejection_silent (Errors := unit) previewLink 100
             rejectingEvaluator previewOperation tt previewCall tt
             "evaluation failed" Hcall eq_refl eq_refl).
  reflexivity.
Defined.

End Orchestrator.

(** ** The Query-Variable Translator: when it returns, and its three layers *)

Section Translator.

Import Scenarios.

Lemma omap_cons {A B : Type} (f : A → option B) (x : A) (l : list A) :
  omap f (x :: l) = match f x with Some y => y :: omap f l | None => omap f l end.
Proof. reflexivity. Qed.

Lemma js_find_Some {A : Type} (p : A → bool) (l : list A) (x : A) :
  js_find p l = Some x
  ↔ ∃ before after,
      l = before ++ x :: after ∧ Forall (fun y => p y = false) before ∧ p x = true.
Proof.
  induction l as [|y l IH]; simpl.
  - split; [done |]. intros (before & after & Heq & _). by destruct before.
  - destruct (p y) eqn:Hy.
    + split.
      * intros [= <-]. exists [], l. by repeat split.
      * intros (before & after & Heq & Hall & Hx).
        destruct before as [|z before]; simpl in Heq.
        -- by injection Heq as ->.
        -- injection Heq as -> _. apply Forall_cons in Hall as [Hz _]. congruence.
    + rewrite IH. split.
      * intros (before & after & -> & Hall & Hx).
        exists (y :: before), after. repeat split; [| done]. by constructor.
      * intros (before & after & Heq & Hall & Hx).
        destruct before as [|z before]; simpl in Heq.
        -- injection Heq as -> _. congruence.
        -- injection Heq as -> ->. apply Forall_cons in Hall as [_ Hall]. eauto.
Qed.

Lemma js_find_None {A : Type} (p : A → bool) (l : list A) :
  js_find p l = None ↔ Forall (fun y => p y = false) l.
Proof.
  induction l as [|y l IH]; simpl.
  - split; [by constructor | done].
  - destruct (p y) eqn:Hy.
    + split; [done |]. intros [Hy' _]%Forall_cons. congruence.
    + rewrite IH. split; [by constructor |]. by intros [_ ?]%Forall_cons.
Qed.

Lemma firstOperationDefinition_find (operation : Operation) (d : DefinitionNode) :
  firstOperationDefinition operation d
  ↔ ∃ defs, getRootQuery operation = Ok (Some defs)
            ∧ js_find isOperationDefinition defs = Some d.
Proof.
  unfold firstOperationDefinition. split.
  - intros (defs & before & after & Hroot & Hdefs & Hall & Hd).
    exists defs. split; [done |]. apply js_find_Some. eauto.
  - intros (defs & Hroot & (before & after & ? & ? & ?)%js_find_Some).
    by exists defs, before, after.
Qed.

Lemma rootDefinitions_Ok (operation : Operation) (defs : list DefinitionNode) :
  rootDefinitions operation = Ok defs ↔ getRootQuery operation = Ok (Some defs).
Proof.
  unfold rootDefinitions.
  destruct (getRootQuery operation) as [[defs'|]|e]; simpl; split; congruence.
Qed.

(** The exceptions of a single variable's translation never leave
    [parseQueryVariables]: it returns whenever the variable map can be built,
    the first selection of the first operation definition is a field, and
    the filter over the bound variables returns. *)
Lemma parseQueryVariables_returns (operation : Operation)
    (defs : list DefinitionNode) (operationType : OperationType)
    (name : option string) (declared : list string) (field : string)
    (arguments : list ArgumentNode) (selectionSet : option (list Selection))
    (rest : list Selection) (variableMap : list (string * Binding))
    (layer2 : gmap string JsValue) :
  getRootQuery operation = Ok (Some defs) →
  js_find isOperationDefinition defs
  = Some (OperationDefinition operationType name declared
            (Field field arguments selectionSet :: rest)) →
  buildVariableMap operation = Ok variableMap →
  operationQueries variableMap (variables operation) = Ok layer2 →
  parseQueryVariables operation
  = Ok (omit (variables operation) declared
        ∪ (layer2 ∪ operationArguments arguments)).
Proof.
  intros Hroot%rootDefinitions_Ok Hfind Hmap Hqueries. unfold parseQueryVariables.
  rewrite Hmap, Hroot. simpl. rewrite Hfind. simpl. by rewrite Hqueries.
Qed.

(** When [parseQueryVariables] returns, the first selection of the first
    operation definition is a field and layer 2 has been made. *)
Lemma parseQueryVariables_Ok_inv (operation : Operation) (ps : gmap string JsValue) :
  parseQueryVariables operation = Ok ps →
  ∃ defs operationType name declared field arguments selectionSet rest variableMap
    layer2,
    getRootQuery operation = Ok (Some defs)
    ∧ js_find isOperationDefinition defs
      = Some (OperationDefinition operationType name declared
                (Field field arguments selectionSet :: rest))
    ∧ buildVariableMap operation = Ok variableMap
    ∧ operationQueries variableMap (variables operation) = Ok layer2
    ∧ ps = omit (variables operation) declared
           ∪ (layer2 ∪ operationArguments arguments).
Proof.
  unfold parseQueryVariables.
  destruct (buildVariableMap operation) as [variableMap|]; [| done].
  destruct (rootDefinitions operation) as [defs|] eqn:Hroot; [| done]. simpl.
  apply rootDefinitions_Ok in Hroot.
  destruct (js_find isOperationDefinition defs) as [[o n declared sels|]|] eqn:Hfind;
    try done.
  destruct sels as [|[field arguments selectionSet| |] rest]; try done.
  simpl.
  destruct (operationQueries variableMap (variables operation)) as [layer2|]
    eqn:Hqueries; [| done].
  simpl. intros [= <-].
  by exists defs, o, n, declared, field, arguments, selectionSet, rest, variableMap,
    layer2.
Qed.

Lemma omit_variablesMinus (variables : gmap string JsValue) (declared : list string) :
  omit variables declared = variablesMinus variables declared.
Proof.
  apply map_eq. intros k. rewrite lookup_omit. unfold variablesMinus.
  destruct (filter _ variables !! k) as [v|] eqn:Hf.
  - apply map_lookup_filter_Some in Hf as [Hk Hnot]. simpl in Hnot.
    by rewrite decide_False.
  - apply map_lookup_filter_None in Hf as [Hk | Hk].
    + rewrite Hk. by destruct (decide _).
    + destruct (decide (k ∈ declared)) as [|Hnot]; [done |].
      destruct (variables !! k) as [v|] eqn:Hv; [| done].
      by destruct (Hk v eq_refl).
Qed.

(** The text the code joins for an element of a list literal is the text of
    the specification. *)
Lemma elementText_join (argumentName : string) (element : ValueNode) :
  let printed := if decide (argumentName = "order")
                 then getOrderValue (nodeValue element)
                 else nodeValue element in
  match printed with
  | JUndefined | JNull => EmptyString
  | _ => toString printed
  end
  = elementText_spec argumentName element.
Proof.
  cbv zeta. unfold elementText_spec.
  destruct element as [v | s | s | s | b | | s | l | l]; simpl;
    destruct (decide (argumentName = "order")); try reflexivity;
    unfold getOrderValue, truthy; by destruct (String.eqb s "").
Qed.

(** The literal the code evaluates is the literal of the specification,
    [null] standing for the value that cannot be determined. *)
Lemma literalValue_spec (argument : ArgumentNode) :
  literalValue argument
  = default JNull (argumentLiteral_spec (arg_name argument) (arg_value argument)).
Proof.
  unfold literalValue, argumentLiteral_spec.
  destruct (arg_value argument) as [| | | | | | | elements |]; try reflexivity.
  unfold joinComma. cbv [default from_option id]. cbn [toString].
  do 2 f_equal. rewrite map_map. apply map_ext. intros element.
  apply elementText_join.
Qed.

(** What the code keeps of an argument is what the specification says the
    argument contributes. *)
Lemma operationArgument_spec (argument : ArgumentNode) :
  inlineArgument_spec argument
  = match operationArgument argument with
    | Some item => {[ item.1 := item.2 ]}
    | None => ∅
    end.
Proof.
  unfold inlineArgument_spec, operationArgument. rewrite literalValue_spec.
  destruct (argumentLiteral_spec (arg_name argument) (arg_value argument))
    as [literal|]; cbn [default].
  - destruct (nonEmpty (arg_name argument)); [| done]. simpl.
    by destruct (truthy literal).
  - by destruct (nonEmpty (arg_name argument)).
Qed.

(** Layer 1 of the code is layer 1 of the specification. *)
Lemma operationArguments_spec (arguments : list ArgumentNode) :
  operationArguments arguments = inlineArguments_spec arguments.
Proof.
  unfold operationArguments, inlineArguments_spec, mergeItems, shallowMerge.
  generalize (∅ : gmap string JsValue).
  induction arguments as [|argument arguments IH]; intros acc; [done |].
  cbn [map fold_left]. rewrite operationArgument_spec.
  rewrite omap_cons.
  destruct (operationArgument argument) as [item|].
  - cbn [fold_left]. apply IH.
  - rewrite (left_id_L ∅ (∪)). apply IH.
Qed.

(** C4.  The translator returns a parameter set exactly when the first
    operation definition of the root query starts with a field, the binding
    map can be built and layer 2 is made of it; and the parameter set is then
    the shallow merge of (1) the inline literal arguments of that first
    selection, as the specification words them, (2) the bound-variable
    translation, (3) the runtime variables minus the declared variable
    names.  On a shared key layer 3 wins over layer 2, and layer 2 over
    layer 1. *)
Theorem parseQueryVariables_layers (operation : Operation) :
  (∀ ps,
     parseQueryVariables operation = Ok ps
     ↔ ∃ operationType name declared field arguments selectionSet rest
         variableMap layer2,
         firstOperationDefinition operation
           (OperationDefinition operationType name declared
              (Field field arguments selectionSet :: rest))
         ∧ buildVariableMap operation = Ok variableMap
         ∧ operationQueries variableMap (variables operation) = Ok layer2
         ∧ ps = shallowMerge [ inlineArguments_spec arguments;
                               layer2;
                               variablesMinus (variables operation) declared ])
  ∧ ∀ (layer1 layer2 layer3 : gmap string JsValue) k,
      shallowMerge [layer1; layer2; layer3] !! k
      = match layer3 !! k with
        | Some v => Some v
        | None => match layer2 !! k with
                  | Some v => Some v
                  | None => layer1 !! k
                  end
        end.
Proof.
  assert (∀ layer1 layer2 layer3 : gmap string JsValue,
            shallowMerge [layer1; layer2; layer3] = layer3 ∪ (layer2 ∪ layer1))
    as Hmerge.
  { intros layer1 layer2 layer3. unfold shallowMerge. simpl.
    by rewrite (right_id_L ∅ (∪)). }
  split.
  - intros ps. split.
    + intros (defs & o & n & declared & field & arguments & selectionSet & rest
              & variableMap & layer2 & Hroot & Hfind & Hmap & Hqueries & ->)
        %parseQueryVariables_Ok_inv.
      exists o, n, declared, field, arguments, selectionSet, rest, variableMap, layer2.
      split; [apply firstOperationDefinition_find; eauto |].
      split; [done |]. split; [done |].
      by rewrite Hmerge, omit_variablesMinus, operationArguments_spec.
    + intros (o & n & declared & field & arguments & selectionSet & rest
              & variableMap & layer2
              & (defs & Hroot & Hfind)%firstOperationDefinition_find
              & Hmap & Hqueries & ->).
      rewrite (parseQueryVariables_returns _ _ _ _ _ _ _ _ _ _ _
                 Hroot Hfind Hmap Hqueries).
      by rewrite Hmerge, omit_variablesMinus, operationArguments_spec.
  - intros layer1 layer2 layer3 k. rewrite Hmerge.
    destruct (layer3 !! k) as [v|] eqn:H3.
    + by apply lookup_union_Some_l.
    + rewrite lookup_union_r by done.
      destruct (layer2 !! k) as [v|] eqn:H2.
      * by apply lookup_union_Some_l.
      * by rewrite lookup_union_r.
Qed.

(** C4 at [post(id: $id)] with the variables [id] and [locale]: the declared
    [id] comes from layer 2, the undeclared [locale] from layer 3. *)
Lemma parseQueryVariables_layers_witness :
  firstOperationDefinition postOperation
    (OperationDefinition query_op (Some "Post") ["id"]
       [ Field "post" [ mkArgument "id" (VariableNode "id") ]
           (Some [ Field "title" [] None ]) ])
  ∧ buildVariableMap postOperation = Ok [("id", (Argument, "id"))]
  ∧ inlineArguments_spec [ mkArgument "id" (VariableNode "id") ]
    = {[ "id" := JStr "id" ]}
  ∧ operationQueries [("id", (Argument, "id"))] (variables postOperation)
    = Ok {[ "id" := JStr "abc123" ]}
  ∧ variablesMinus (variables postOperation) ["id"] = {[ "locale" := JStr "en-US" ]}
  ∧ parseQueryVariables postOperation
    = Ok (shallowMerge [ {[ "id" := JStr "id" ]};
                         {[ "id" := JStr "abc123" ]};
                         {[ "locale" := JStr "en-US" ]} ])
  ∧ shallowMerge [ {[ "id" := JStr "id" ]};
                   {[ "id" := JStr "abc123" ]};
                   {[ "locale" := JStr "en-US" ]} ]
    = ({[ "id" := JStr "abc123"; "locale" := JStr "en-US" ]} : gmap string JsValue).
Proof.
  assert (firstOperationDefinition postOperation
            (OperationDefinition query_op (Some "Post") ["id"]
               [ Field "post" [ mkArgument "id" (VariableNode "id") ]
                   (Some [ Field "title" [] None ]) ])) as Hfirst.
  { exists (definitions (query postOperation)), [], [].
    split; [reflexivity |]. split; [reflexivity |]. split; [constructor | done]. }
  assert (inlineArguments_spec [ mkArgument "id" (VariableNode "id") ]
          = {[ "id" := JStr "id" ]}) as H1 by (vm_compute; reflexivity).
  assert (operationQueries [("id", (Argument, "id"))] (variables postOperation)
          = Ok {[ "id" := JStr "abc123" ]}) as H2 by (vm_compute; reflexivity).
  assert (variablesMinus (variables postOperation) ["id"]
          = {[ "locale" := JStr "en-US" ]}) as H3 by (vm_compute; reflexivity).
  split; [exact Hfirst |]. split; [reflexivity |].
  split; [exact H1 |]. split; [exact H2 |]. split; [exact H3 |].
  split; [| vm_compute; reflexivity].
  apply (proj2 (proj1 (parseQueryVariables_layers postOperation) _)).
  exists query_op, (Some "Post"), ["id"], "post",
    [ mkArgument "id" (VariableNode "id") ], (Some [ Field "title" [] None ]), [],
    [("id", (Argument, "id"))], {[ "id" := JStr "abc123" ]}.
  split; [exact Hfirst |]. split; [reflexivity |]. split; [exact H2 |].
  by rewrite H1, H3.
Defined.

(** C10.  [parseQueryVariables] throws, and so produces no parameter set, on
    every operation whose root query contains no operation definition or
    whose first operation definition has no first selection with an
    arguments list; it returns only for an operation whose first operation
    definition starts with a field. *)
Theorem parseQueryVariables_partial (operation : Operation) :
  (noOperationDefinition operation
   ∨ (∃ d, firstOperationDefinition operation d ∧ lacksFirstArguments d) →
   ∃ e, parseQueryVariables operation = Throw e)
  ∧ (∀ ps, parseQueryVariables operation = Ok ps →
           ∃ d field arguments selectionSet rest,
             firstOperationDefinition operation d
             ∧ definitionSelections d = Field field arguments selectionSet :: rest).
Proof.
  assert (∀ ps, parseQueryVariables operation = Ok ps →
                ∃ d field arguments selectionSet rest,
                  firstOperationDefinition operation d
                  ∧ definitionSelections d = Field field arguments selectionSet :: rest)
    as Hinv.
  { intros ps (defs & o & n & declared & field & arguments & selectionSet & rest
               & variableMap & layer2 & Hroot & Hfind & _)%parseQueryVariables_Ok_inv.
    exists (OperationDefinition o n declared (Field field arguments selectionSet :: rest)),
      field, arguments, selectionSet, rest.
    split; [| reflexivity].
    apply firstOperationDefinition_find. eauto. }
  split; [| exact Hinv].
  intros Hpre.
  destruct (parseQueryVariables operation) as [ps|e] eqn:Hparse; [| eauto].
  exfalso.
  destruct (Hinv ps eq_refl) as (d & field & arguments & selectionSet & rest
                                  & Hfirst & Hsel).
  destruct Hpre as [Hnone | (d' & Hfirst' & Hlacks)].
  - destruct Hfirst as (defs & before & after & Hroot & -> & _ & Hd).
    specialize (Hnone _ Hroot).
    apply Forall_app in Hnone as [_ [Hd' _]%Forall_cons]. congruence.
  - apply firstOperationDefinition_find in Hfirst as (defs & Hroot & Hfind).
    apply firstOperationDefinition_find in Hfirst' as (defs' & Hroot' & Hfind').
    assert (d' = d) as -> by congruence.
    unfold lacksFirstArguments in Hlacks. by rewrite Hsel in Hlacks.
Qed.

(** C10 at a document that holds only a fragment. *)
Lemma parseQueryVariables_partial_witness :
  noOperationDefinition fragmentOnlyOperation
  ∧ ∃ e, parseQueryVariables fragmentOnlyOperation = Throw e.
Proof.
  assert (noOperationDefinition fragmentOnlyOperation) as Hnone.
  { intros defs [= <-]. by repeat constructor. }
  split; [exact Hnone |].
  exact (proj1 (parseQueryVariables_partial fragmentOnlyOperation) (or_introl Hnone)).
Defined.

End Translator.

(** ** Layer 2: the bound-variable translation *)

Section BoundVariables.

Import Scenarios.

Lemma lookup_merge_None (k : string) (items : list (string * JsValue))
    (acc : gmap string JsValue) :
  (∀ v, (k, v) ∉ items) →
  fold_left (fun acc cur => {[ cur.1 := cur.2 ]} ∪ acc) items acc !! k = acc !! k.
Proof.
  revert acc. induction items as [|[k' v'] items IH]; intros acc Hnot; [done |].
  simpl. rewrite IH.
  - rewrite lookup_union_r; [done |]. apply lookup_singleton_ne.
    intros ->. apply (Hnot v'), list_elem_of_here.
  - intros v Hin. apply (Hnot v). by apply elem_of_cons; right.
Qed.

Lemma lookup_merge_unique (k : string) (v : JsValue)
    (items : list (string * JsValue)) (acc : gmap string JsValue) :
  (∀ v', (k, v') ∈ items → v' = v) →
  acc !! k = Some v ∨ (k, v) ∈ items →
  fold_left (fun acc cur => {[ cur.1 := cur.2 ]} ∪ acc) items acc !! k = Some v.
Proof.
  revert acc. induction items as [|[k' v'] items IH]; intros acc Huniq Hsome.
  - destruct Hsome as [? | Hin]; [done |]. by apply not_elem_of_nil in Hin.
  - simpl. apply IH.
    + intros v'' Hin. apply Huniq. by apply elem_of_cons; right.
    + destruct (decide (k' = k)) as [-> | Hne].
      * left. rewrite (Huniq v') by apply list_elem_of_here.
        apply lookup_union_Some_l, lookup_singleton_eq.
      * destruct Hsome as [Hacc | [Heq | Hin]%elem_of_cons].
        -- left. rewrite lookup_union_r; [done |]. by apply lookup_singleton_ne.
        -- congruence.
        -- by right.
Qed.

Lemma lookup_mergeItems_None (k : string) (items : list (string * JsValue)) :
  (∀ v, (k, v) ∉ items) → mergeItems items !! k = None.
Proof. intros H. unfold mergeItems. by rewrite lookup_merge_None. Qed.

Lemma lookup_mergeItems_unique (k : string) (v : JsValue)
    (items : list (string * JsValue)) :
  (k, v) ∈ items → (∀ v', (k, v') ∈ items → v' = v) →
  mergeItems items !! k = Some v.
Proof. intros Hin Huniq. apply lookup_merge_unique; eauto. Qed.

Lemma obj_get_keys {V : Type} (k : string) (v : V) (o : list (string * V)) :
  obj_get k o = Some v → k ∈ obj_keys o.
Proof.
  induction o as [|[k' v'] o IH]; simpl; [done |].
  destruct (decide (k' = k)) as [-> | Hne].
  - intros _. apply list_elem_of_here.
  - intros H. apply elem_of_cons. right. by apply IH.
Qed.

Lemma obj_keys_get {V : Type} (k : string) (o : list (string * V)) :
  k ∈ obj_keys o → is_Some (obj_get k o).
Proof.
  unfold obj_keys. induction o as [|[k' v'] o IH]; simpl.
  - by intros ?%not_elem_of_nil.
  - destruct (decide (k' = k)); [eauto |].
    intros [? | Hin]%elem_of_cons; [congruence | by apply IH].
Qed.

Lemma js_filterM_cons {A : Type} (p : A → Result bool) (x : A) (l : list A) :
  js_filterM p (x :: l)
  = keep ← p x; rest ← js_filterM p l; Ok (if keep : bool then x :: rest else rest).
Proof. reflexivity. Qed.

Lemma isBoundVariable_unshadowed (variableMap : list (string * Binding))
    (variables : gmap string JsValue) (k : string) :
  variables !! "hasOwnProperty" = None →
  isBoundVariable variableMap variables k
  = if ownProperty variables k then obj_hasOwnProperty variableMap k else Ok false.
Proof.
  intros Hvars. unfold isBoundVariable.
  by rewrite hasOwnProperty_unshadowed by done.
Qed.

Lemma isBoundVariable_shadowed (variableMap : list (string * Binding))
    (variables : gmap string JsValue) (k : string) :
  is_Some (variables !! "hasOwnProperty") →
  isBoundVariable variableMap variables k
  = Throw (TypeError "hasOwnProperty is not a function").
Proof.
  intros Hvars. unfold isBoundVariable.
  by rewrite hasOwnProperty_shadowed by done.
Qed.

(** The filter over the keys of the binding map.  With both methods
    unshadowed it keeps the keys that are runtime variables. *)
Lemma js_filterM_isBound_unshadowed (variableMap : list (string * Binding))
    (variables : gmap string JsValue) (keys : list string) :
  variables !! "hasOwnProperty" = None →
  obj_get "hasOwnProperty" variableMap = None →
  (∀ k, k ∈ keys → is_Some (obj_get k variableMap)) →
  js_filterM (isBoundVariable variableMap variables) keys
  = Ok (filter (fun k => is_Some (variables !! k)) keys).
Proof.
  intros Hvars Hmap. induction keys as [|k keys IH]; intros Hkeys; [done |].
  rewrite js_filterM_cons, isBoundVariable_unshadowed by done.
  rewrite IH by (intros k' Hk'; apply Hkeys; by apply elem_of_cons; right).
  rewrite filter_cons.
  destruct (ownProperty variables k) eqn:Hown.
  - unfold obj_hasOwnProperty, callHasOwnProperty.
    rewrite bool_decide_eq_false_2 by (by rewrite Hmap; intros [? ?]).
    rewrite bool_decide_eq_true_2 by (apply Hkeys, list_elem_of_here).
    cbn [mbind Result_bind]. apply ownProperty_true in Hown.
    by rewrite decide_True.
  - cbn [mbind Result_bind]. apply ownProperty_false in Hown.
    rewrite decide_False; [done |]. rewrite Hown. by intros [? ?].
Qed.

(** When no key is a runtime variable, the method of the map is not
    called. *)
Lemma js_filterM_isBound_none (variableMap : list (string * Binding))
    (variables : gmap string JsValue) (keys : list string) :
  variables !! "hasOwnProperty" = None →
  (∀ k, k ∈ keys → variables !! k = None) →
  js_filterM (isBoundVariable variableMap variables) keys = Ok [].
Proof.
  intros Hvars. induction keys as [|k keys IH]; intros Hkeys; [done |].
  rewrite js_filterM_cons, isBoundVariable_unshadowed by done.
  rewrite IH by (intros k' Hk'; apply Hkeys; by apply elem_of_cons; right).
  assert (ownProperty variables k = false) as ->
    by (apply ownProperty_false, Hkeys, list_elem_of_here).
  reflexivity.
Qed.

(** What the filter has found when it returns. *)
Lemma js_filterM_isBound_inv (variableMap : list (string * Binding))
    (variables : gmap string JsValue) (keys kept : list string) :
  (∀ k, k ∈ keys → is_Some (obj_get k variableMap)) →
  js_filterM (isBoundVariable variableMap variables) keys = Ok kept →
  kept = filter (fun k => is_Some (variables !! k)) keys
  ∧ (keys ≠ [] → variables !! "hasOwnProperty" = None)
  ∧ (kept ≠ [] → obj_get "hasOwnProperty" variableMap = None).
Proof.
  revert kept. induction keys as [|k keys IH]; intros kept Hkeys.
  - intros [= <-]. done.
  - assert (∀ k', k' ∈ keys → is_Some (obj_get k' variableMap)) as Hrest'
      by (intros k' Hk'; apply Hkeys; by apply elem_of_cons; right).
    rewrite js_filterM_cons.
    destruct (variables !! "hasOwnProperty") as [shadow|] eqn:Hvars.
    { rewrite isBoundVariable_shadowed by eauto. done. }
    rewrite isBoundVariable_unshadowed by done.
    rewrite filter_cons.
    destruct (ownProperty variables k) eqn:Hown.
    + unfold obj_hasOwnProperty, callHasOwnProperty.
      destruct (bool_decide (is_Some (obj_get "hasOwnProperty" variableMap)))
        eqn:Hmap; [done |].
      apply bool_decide_eq_false in Hmap.
      assert (obj_get "hasOwnProperty" variableMap = None) as Hnone
        by (by apply eq_None_not_Some).
      cbn [mbind Result_bind].
      destruct (js_filterM _ keys) as [rest|] eqn:Hrest; [| done].
      destruct (IH rest Hrest' eq_refl) as (-> & _ & _).
      cbn [mbind Result_bind]. apply ownProperty_true in Hown.
      rewrite decide_True by done.
      rewrite bool_decide_eq_true_2 by (apply Hkeys, list_elem_of_here).
      intros [= <-]. done.
    + cbn [mbind Result_bind].
      destruct (js_filterM _ keys) as [rest|] eqn:Hrest; [| done].
      destruct (IH rest Hrest' eq_refl) as (-> & _ & Hmap).
      cbn [mbind Result_bind]. apply ownProperty_false in Hown.
      rewrite decide_False by (rewrite Hown; by intros [? ?]).
      intros [= <-]. done.
Qed.

(** Layer 2 is made exactly when the two method calls of its filter find the
    method of [Object.prototype]. *)
Lemma operationQueries_returns (variableMap : list (string * Binding))
    (variables : gmap string JsValue) :
  returns (operationQueries variableMap variables)
  ↔ methodsUnshadowed variableMap variables.
Proof.
  unfold operationQueries, methodsUnshadowed. split.
  - intros [layer2 Hlayer2].
    destruct (js_filterM _ (obj_keys variableMap)) as [kept|] eqn:Hkept; [| done].
    apply js_filterM_isBound_inv in Hkept as (-> & Hvars & Hmap);
      [| intros ?; apply obj_keys_get].
    destruct variableMap as [|binding variableMap]; [by left |]. right.
    split; [by apply Hvars |].
    destruct (filter (fun k => is_Some (variables !! k))
                (obj_keys (binding :: variableMap))) as [|k kept] eqn:Hfilter.
    + right. intros k Hk.
      destruct (variables !! k) as [v|] eqn:Hv; [| done].
      assert (k ∈ filter (fun k => is_Some (variables !! k))
                    (obj_keys (binding :: variableMap))) as Hin
        by (apply list_elem_of_filter; split; [by rewrite Hv | done]).
      rewrite Hfilter in Hin. by apply not_elem_of_nil in Hin.
    + left. by apply Hmap.
  - intros [-> | [Hvars [Hmap | Hnone]]].
    + by eexists.
    + rewrite js_filterM_isBound_unshadowed;
        [by eexists | done | done | intros ?; apply obj_keys_get].
    + rewrite js_filterM_isBound_none by done. by eexists.
Qed.

(** The items of layer 2, when it is made: those of the bound variables that
    are runtime variables. *)
Lemma operationQueries_Ok (variableMap : list (string * Binding))
    (variables : gmap string JsValue) (layer2 : gmap string JsValue) :
  operationQueries variableMap variables = Ok layer2 →
  layer2 = mergeItems
             (omap (tryTranslate variableMap variables)
                (filter (fun k => is_Some (variables !! k)) (obj_keys variableMap))).
Proof.
  unfold operationQueries.
  destruct (js_filterM _ (obj_keys variableMap)) as [kept|] eqn:Hkept; [| done].
  apply js_filterM_isBound_inv in Hkept as (-> & _ & _); [| intros ?; apply obj_keys_get].
  by intros [= <-].
Qed.

(** A search key is never a reserved parameter name. *)
Lemma getSearchKey_not_preview (field : string) : getSearchKey field ≠ "preview".
Proof.
  intros Heq. pose proof (getSearchKey_fields field) as H.
  rewrite Heq in H. discriminate H.
Qed.

(** The only items under the key [preview] come from an [Argument] binding to
    [preview] whose runtime value is truthy. *)
Lemma tryTranslate_preview (variableMap : list (string * Binding))
    (variables : gmap string JsValue) (variableKey : string) (v : JsValue) :
  tryTranslate variableMap variables variableKey = Some ("preview", v) →
  obj_get variableKey variableMap = Some (Argument, "preview")
  ∧ v = js_get variables variableKey
  ∧ truthy v = true.
Proof.
  unfold tryTranslate, translateVariable.
  destruct (obj_get variableKey variableMap) as [[[] field]|]; [| | done].
  - destruct (nonEmpty field && bool_decide (field ∈ contentfulReservedParameters));
      [| done].
    destruct (bool_decide (field = "preview")) eqn:Hpreview; simpl.
    + apply bool_decide_eq_true in Hpreview as ->.
      destruct (truthy (js_get variables variableKey)) eqn:Ht; simpl; [| done].
      intros [= <-]. done.
    + apply bool_decide_eq_false in Hpreview.
      destruct (bool_decide (field = "order")).
      * destruct (js_get variables variableKey) as [| | | | |elements|]; try done.
        cbv zeta. destruct (forallb convertible _); [| done].
        intros [= -> _]. done.
      * intros [= -> _]. done.
  - intros [= Hkey _]. by apply getSearchKey_not_preview in Hkey.
Qed.

Lemma tryTranslate_preview_truthy (variableMap : list (string * Binding))
    (variables : gmap string JsValue) (variableKey : string) :
  obj_get variableKey variableMap = Some (Argument, "preview") →
  truthy (js_get variables variableKey) = true →
  tryTranslate variableMap variables variableKey
  = Some ("preview", js_get variables variableKey).
Proof.
  intros Hget Ht. unfold tryTranslate, translateVariable.
  rewrite Hget. simpl. by rewrite Ht.
Qed.

(** What layer 2 holds under [preview] when one variable only is bound to
    it. *)
Lemma operationQueries_preview (variableMap : list (string * Binding))
    (variables : gmap string JsValue) (variableKey : string)
    (layer2 : gmap string JsValue) :
  obj_get variableKey variableMap = Some (Argument, "preview") →
  (∀ other, obj_get other variableMap = Some (Argument, "preview") →
            other = variableKey) →
  operationQueries variableMap variables = Ok layer2 →
  layer2 !! "preview"
  = if truthy (js_get variables variableKey)
    then Some (js_get variables variableKey) else None.
Proof.
  intros Hget Huniq ->%operationQueries_Ok.
  assert (∀ v, ("preview", v)
               ∈ omap (tryTranslate variableMap variables)
                   (filter (fun k => is_Some (variables !! k))
                      (obj_keys variableMap)) →
               v = js_get variables variableKey ∧ truthy v = true) as Hitems.
  { intros v (k & _ & Hk)%list_elem_of_omap.
    apply tryTranslate_preview in Hk as (Hbound & -> & Ht).
    by rewrite <- (Huniq k Hbound). }
  destruct (truthy (js_get variables variableKey)) eqn:Ht.
  - apply lookup_mergeItems_unique.
    + apply list_elem_of_omap. exists variableKey. split.
      * apply list_elem_of_filter. split; [| by eapply obj_get_keys].
        apply truthy_js_get in Ht as (v & -> & _). eauto.
      * by apply tryTranslate_preview_truthy.
    + intros v' Hin. by apply Hitems.
  - apply lookup_mergeItems_None. intros v Hin.
    apply Hitems in Hin as [-> Htrue]. congruence.
Qed.

(** C5 (counterexample).  Two variables are bound to [preview], on two root
    fields; the value of [draft] is [false], and layer 2 still holds the key
    [preview], with the value of [live]. *)
Lemma preview_false_beside_preview_true :
  buildVariableMap twoPreviewsOperation = Ok twoPreviewsMap
  ∧ obj_get "draft" twoPreviewsMap = Some (Argument, "preview")
  ∧ variables twoPreviewsOperation !! "draft" = Some (JBool false)
  ∧ truthy (JBool false) = false
  ∧ ∃ layer2,
      operationQueries twoPreviewsMap (variables twoPreviewsOperation) = Ok layer2
      ∧ layer2 !! "preview" = Some (JBool true)
      ∧ layer2 !! "preview" ≠ None.
Proof.
  split; [vm_compute; reflexivity |]. split; [vm_compute; reflexivity |].
  split; [vm_compute; reflexivity |]. split; [reflexivity |].
  exists {[ "preview" := JBool true ]}.
  split; [vm_compute; reflexivity |]. split; [vm_compute; reflexivity |].
  vm_compute. discriminate.
Qed.

(** C5 (amended).  For every operation whose binding map binds [variableKey],
    and no other variable, with the [Argument] kind to the reserved field
    [preview], and for which layer 2 is made: if the runtime value of the
    variable is falsy (or the variable is not passed), layer 2 has no
    [preview] key; if it is truthy, layer 2 has the key [preview] with that
    value. *)
Theorem preview_only_when_truthy (operation : Operation)
    (variableMap : list (string * Binding)) (variableKey : string)
    (layer2 : gmap string JsValue) :
  buildVariableMap operation = Ok variableMap →
  obj_get variableKey variableMap = Some (Argument, "preview") →
  (∀ other, obj_get other variableMap = Some (Argument, "preview") →
            other = variableKey) →
  operationQueries variableMap (variables operation) = Ok layer2 →
  (variables operation !! variableKey = None
   ∨ (∃ value, variables operation !! variableKey = Some value
               ∧ truthy value = false) →
   layer2 !! "preview" = None)
  ∧ (∀ value, variables operation !! variableKey = Some value →
              truthy value = true →
              layer2 !! "preview" = Some value).
Proof.
  intros _ Hget Huniq Hlayer2.
  rewrite (operationQueries_preview _ _ _ _ Hget Huniq Hlayer2).
  unfold js_get. split.
  - intros [-> | (value & -> & Hfalse)]; simpl; [done | by rewrite Hfalse].
  - intros value -> Htrue. simpl. by rewrite Htrue.
Qed.

(** C5 (amended) at an operation whose only [preview] variable is [false],
    and at the same operation with the value [true]. *)
Lemma preview_only_when_truthy_witness :
  (buildVariableMap previewOffOperation = Ok previewMap
   ∧ operationQueries previewMap (variables previewOffOperation) = Ok ∅
   ∧ variables previewOffOperation !! "preview" = Some (JBool false)
   ∧ (∅ : gmap string JsValue) !! "preview" = None)
  ∧ (buildVariableMap previewOperation = Ok previewMap
     ∧ operationQueries previewMap (variables previewOperation)
       = Ok {[ "preview" := JBool true ]}
     ∧ variables previewOperation !! "preview" = Some (JBool true)
     ∧ ({[ "preview" := JBool true ]} : gmap string JsValue) !! "preview"
       = Some (JBool true)).
Proof.
  assert (∀ other,
             obj_get other previewMap = Some (Argument, "preview") →
             other = "preview") as Huniq.
  { intros other. simpl. destruct (decide ("preview" = other)); [done | discriminate]. }
  assert (variables previewOffOperation !! "preview" = Some (JBool false)) as Hoff
    by (vm_compute; reflexivity).
  assert (variables previewOperation !! "preview" = Some (JBool true)) as Hon
    by (vm_compute; reflexivity).
  split.
  - assert (buildVariableMap previewOffOperation = Ok previewMap) as Hmap
      by (vm_compute; reflexivity).
    assert (operationQueries previewMap (variables previewOffOperation) = Ok ∅)
      as Hlayer2 by (vm_compute; reflexivity).
    split; [exact Hmap |]. split; [exact Hlayer2 |]. split; [exact Hoff |].
    apply (proj1 (preview_only_when_truthy previewOffOperation previewMap
                    "preview" ∅ Hmap eq_refl Huniq Hlayer2)).
    right. exists (JBool false). by split.
  - assert (buildVariableMap previewOperation = Ok previewMap) as Hmap
      by (vm_compute; reflexivity).
    assert (operationQueries previewMap (variables previewOperation)
            = Ok {[ "preview" := JBool true ]}) as Hlayer2
      by (vm_compute; reflexivity).
    split; [exact Hmap |]. split; [exact Hlayer2 |]. split; [exact Hon |].
    exact (proj2 (preview_only_when_truthy previewOperation previewMap
                    "preview" _ Hmap eq_refl Huniq Hlayer2)
             (JBool true) Hon eq_refl).
Defined.

(** Items that a translation does not yield can be left out of the keys. *)
Lemma omap_filter_None {A B : Type} `{EqDecision A} (f : A → option B) (x : A)
    (l : list A) :
  f x = None → omap f (filter (fun y => y ≠ x) l) = omap f l.
Proof.
  intros Hnone. induction l as [|y l IH]; [done |].
  rewrite filter_cons. destruct (decide (y ≠ x)) as [Hne | Heq].
  - rewrite !omap_cons. by rewrite IH.
  - apply dec_stable in Heq as ->. by rewrite omap_cons, Hnone.
Qed.

Lemma omap_ext_in {A B : Type} (f g : A → option B) (l : list A) :
  (∀ x, x ∈ l → f x = g x) → omap f l = omap g l.
Proof.
  induction l as [|y l IH]; intros Hext; [done |].
  rewrite !omap_cons. rewrite (Hext y) by apply list_elem_of_here.
  rewrite IH; [done |]. intros x Hx. apply Hext. by apply elem_of_cons; right.
Qed.

(** The translation of a variable reads the runtime value of that variable
    only. *)
Lemma tryTranslate_delete (variableMap : list (string * Binding))
    (variables : gmap string JsValue) (variableKey other : string) :
  other ≠ variableKey →
  tryTranslate variableMap (delete variableKey variables) other
  = tryTranslate variableMap variables other.
Proof.
  intros Hne. unfold tryTranslate, translateVariable, js_get.
  by rewrite lookup_delete_ne.
Qed.

Lemma filter_delete (variables : gmap string JsValue) (variableKey : string)
    (keys : list string) :
  filter (fun k => is_Some (delete variableKey variables !! k)) keys
  = filter (fun k => k ≠ variableKey)
      (filter (fun k => is_Some (variables !! k)) keys).
Proof.
  induction keys as [|k keys IH]; [done |].
  rewrite !(filter_cons _ k keys).
  destruct (decide (k = variableKey)) as [-> | Hne].
  - rewrite lookup_delete_eq.
    rewrite decide_False by (by intros [? ?]).
    destruct (decide (is_Some (variables !! variableKey))); [| done].
    rewrite filter_cons. by rewrite decide_False by (by intros ?).
  - rewrite lookup_delete_ne by done.
    destruct (decide (is_Some (variables !! k))); [| done].
    rewrite filter_cons. rewrite decide_True by done. by rewrite IH.
Qed.

Lemma omit_delete_declared (variables : gmap string JsValue) (variableKey : string)
    (declared : list string) :
  variableKey ∈ declared →
  omit (delete variableKey variables) declared = omit variables declared.
Proof.
  intros Hin. apply map_eq. intros k. rewrite !lookup_omit.
  destruct (decide (k ∈ declared)) as [|Hk]; [done |].
  rewrite lookup_delete_ne; [done |]. by intros ->.
Qed.

(** The binding map and the definitions do not depend on the runtime
    variables. *)
Lemma buildVariableMap_withoutVariable (variableKey : string) (operation : Operation) :
  buildVariableMap (withoutVariable variableKey operation)
  = buildVariableMap operation.
Proof. reflexivity. Qed.

Lemma rootDefinitions_withoutVariable (variableKey : string) (operation : Operation) :
  rootDefinitions (withoutVariable variableKey operation)
  = rootDefinitions operation.
Proof. reflexivity. Qed.

(** C8 (counterexample).  The operation declares no variable; the
    translation of [sort] throws and is caught, and [sort] still reaches the
    output under its own name, through layer 3: without the runtime variable
    the output has no key [sort]. *)
Lemma translation_exception_undeclared :
  buildVariableMap undeclaredOrderOperation = Ok undeclaredOrderMap
  ∧ translateVariable undeclaredOrderMap (variables undeclaredOrderOperation) "sort"
    = Throw (TypeError "variables[variableKey].map is not a function")
  ∧ ∃ ps ps',
      parseQueryVariables undeclaredOrderOperation = Ok ps
      ∧ parseQueryVariables (withoutVariable "sort" undeclaredOrderOperation) = Ok ps'
      ∧ ps !! "sort" = Some (JStr "title_ASC")
      ∧ ps' !! "sort" = None.
Proof.
  split; [vm_compute; reflexivity |]. split; [vm_compute; reflexivity |].
  exists {[ "order" := JStr "sort"; "sort" := JStr "title_ASC" ]},
    {[ "order" := JStr "sort" ]}.
  repeat split; vm_compute; reflexivity.
Qed.

(** C8 (amended).  Take a variable of the binding map that the filter of
    layer 2 has let through, and whose translation throws.  The exception is
    caught: the variable yields no item, layer 2 is made, of the items of the
    other variables, which are what they are without that runtime variable;
    the translator returns wherever the first selection is a field; and when
    the variable is declared by the operation, the translator does what it
    does without that runtime variable, so that the variable contributes no
    key to the output. *)
Theorem translation_exception_isolated (operation : Operation)
    (operationType : OperationType) (name : option string)
    (declared : list string) (selections : list Selection)
    (variableMap : list (string * Binding)) (variableKeys : list string)
    (variableKey : string) (e : Exn) :
  firstOperationDefinition operation
    (OperationDefinition operationType name declared selections) →
  buildVariableMap operation = Ok variableMap →
  js_filterM (isBoundVariable variableMap (variables operation))
    (obj_keys variableMap) = Ok variableKeys →
  variableKey ∈ variableKeys →
  translateVariable variableMap (variables operation) variableKey = Throw e →
  let others := filter (fun k => k ≠ variableKey) variableKeys in
  let layer2 := mergeItems
                  (omap (tryTranslate variableMap (variables operation)) others) in
  tryTranslate variableMap (variables operation) variableKey = None
  ∧ operationQueries variableMap (variables operation) = Ok layer2
  ∧ operationQueries variableMap (delete variableKey (variables operation))
    = Ok layer2
  ∧ (∀ field arguments selectionSet rest,
       selections = Field field arguments selectionSet :: rest →
       parseQueryVariables operation
       = Ok (omit (variables operation) declared
             ∪ (layer2 ∪ operationArguments arguments)))
  ∧ (variableKey ∈ declared →
     parseQueryVariables operation
     = parseQueryVariables (withoutVariable variableKey operation)).
Proof.
  intros (defs & Hroot & Hfind)%firstOperationDefinition_find Hmap Hfilter Hin Hthrow
    others layer2.
  assert (tryTranslate variableMap (variables operation) variableKey = None) as Hnone.
  { unfold tryTranslate. by rewrite Hthrow. }
  assert (operationQueries variableMap (variables operation) = Ok layer2) as Hlayer2.
  { unfold operationQueries. rewrite Hfilter. cbn [mbind Result_bind].
    subst layer2 others. by rewrite omap_filter_None. }
  assert (operationQueries variableMap (delete variableKey (variables operation))
          = Ok layer2) as Hwithout.
  { pose proof (js_filterM_isBound_inv _ _ _ _ (fun k => obj_keys_get k variableMap)
                  Hfilter) as (Hkept & Hvars & Hshadow).
    assert (variableKeys ≠ []) as Hne by (intros ->; by apply not_elem_of_nil in Hin).
    assert (obj_keys variableMap ≠ []) as Hkeys.
    { intros Hnil. rewrite Hnil in Hkept. by rewrite Hkept in Hne. }
    unfold operationQueries.
    rewrite js_filterM_isBound_unshadowed;
      [| | by apply Hshadow | intros ?; apply obj_keys_get].
    - cbn [mbind Result_bind]. subst layer2 others. do 2 f_equal.
      rewrite filter_delete, <- Hkept.
      apply omap_ext_in. intros k [Hk _]%list_elem_of_filter.
      by apply tryTranslate_delete.
    - destruct (decide (variableKey = "hasOwnProperty")) as [-> | Hk].
      + apply lookup_delete_eq.
      + rewrite lookup_delete_ne by done. by apply Hvars. }
  assert (rootDefinitions operation = Ok defs) as Hdefs
    by (by apply rootDefinitions_Ok).
  split; [exact Hnone |]. split; [exact Hlayer2 |]. split; [exact Hwithout |].
  split.
  - intros field arguments selectionSet rest ->.
    by apply (parseQueryVariables_returns operation defs operationType name
                declared field arguments selectionSet rest variableMap layer2).
  - intros Hdeclared. unfold parseQueryVariables.
    rewrite buildVariableMap_withoutVariable, rootDefinitions_withoutVariable.
    rewrite Hmap, Hdefs. cbn [mbind Result_bind]. rewrite Hfind.
    destruct selections as [|selection rest]; [done |].
    destruct (selectionArguments selection) as [arguments|]; [| done].
    cbn [mbind Result_bind].
    change (variables (withoutVariable variableKey operation))
      with (delete variableKey (variables operation)).
    rewrite Hlayer2, Hwithout. cbn [mbind Result_bind].
    by rewrite omit_delete_declared.
Qed.

(** C8 (amended) at an operation whose declared [order] variable holds a
    string: its translation throws a [TypeError], the variable [limit] is
    translated, and the translator returns what it returns without [sort]. *)
Lemma translation_exception_isolated_witness :
  translateVariable badOrderMap (variables badOrderOperation) "sort"
  = Throw (TypeError "variables[variableKey].map is not a function")
  ∧ buildVariableMap badOrderOperation = Ok badOrderMap
  ∧ js_filterM (isBoundVariable badOrderMap (variables badOrderOperation))
      (obj_keys badOrderMap) = Ok ["sort"; "limit"]
  ∧ parseQueryVariables badOrderOperation
    = parseQueryVariables (withoutVariable "sort" badOrderOperation)
  ∧ parseQueryVariables (withoutVariable "sort" badOrderOperation)
    = Ok {[ "order" := JStr "sort"; "limit" := JNum 5 ]}.
Proof.
  assert (translateVariable badOrderMap (variables badOrderOperation) "sort"
          = Throw (TypeError "variables[variableKey].map is not a function"))
    as Hthrow by (vm_compute; reflexivity).
  assert (buildVariableMap badOrderOperation = Ok badOrderMap) as Hmap
    by (vm_compute; reflexivity).
  assert (js_filterM (isBoundVariable badOrderMap (variables badOrderOperation))
            (obj_keys badOrderMap) = Ok ["sort"; "limit"]) as Hfilter
    by (vm_compute; reflexivity).
  split; [exact Hthrow |]. split; [exact Hmap |]. split; [exact Hfilter |].
  split; [| vm_compute; reflexivity].
  apply (proj2 (proj2 (proj2 (proj2
           (translation_exception_isolated badOrderOperation query_op
              (Some "Sorted") ["sort"; "limit"]
              [ Field "postCollection"
                  [ mkArgument "order" (VariableNode "sort");
                    mkArgument "limit" (VariableNode "limit") ]
                  (Some [ Field "items" [] (Some [ Field "title" [] None ]) ]) ]
              badOrderMap ["sort"; "limit"] "sort" _
              (ex_intro _ (definitions (query badOrderOperation))
                 (ex_intro _ [] (ex_intro _ []
                    (conj eq_refl (conj eq_refl (conj (Forall_nil_2 _) eq_refl))))))
              Hmap Hfilter (list_elem_of_here _ _) Hthrow))))).
  apply list_elem_of_here.
Defined.

End BoundVariables.

(** ** The Selection-Tree Extractor *)

Section Extractor.

Import Scenarios.

Lemma extractSelections_unfold (stack : nat) (selectionSet : option (list Selection))
    (definitions : list DefinitionNode) :
  extractSelections (S stack) selectionSet definitions
  = match selectionSet with
    | None | Some [] => Ok SNull
    | Some selections =>
        object ← forEachM (visitSelection stack definitions) newObject selections;
        Ok (SObj object.1 object.2)
    end.
Proof. reflexivity. Qed.

Lemma forEachM_app {A B : Type} (body : B → A → Result B) (acc : B) (l1 l2 : list A) :
  forEachM body acc (l1 ++ l2)
  = acc' ← forEachM body acc l1; forEachM body acc' l2.
Proof.
  revert acc. induction l1 as [|x l1 IH]; intros acc; simpl; [done |].
  destruct (body acc x) as [acc'|e]; simpl; [apply IH | done].
Qed.

Lemma obj_get_set_eq {V : Type} (k : string) (v : V) (o : list (string * V)) :
  obj_get k (obj_set k v o) = Some v.
Proof.
  induction o as [|[k' v'] o IH]; simpl.
  - by rewrite decide_True.
  - destruct (decide (k' = k)) as [-> | Hne]; simpl.
    + by rewrite decide_True.
    + by rewrite decide_False.
Qed.

Lemma obj_get_set_ne {V : Type} (k k' : string) (v : V) (o : list (string * V)) :
  k' ≠ k → obj_get k' (obj_set k v o) = obj_get k' o.
Proof.
  intros Hne. induction o as [|[k0 v0] o IH]; simpl.
  - by rewrite decide_False.
  - destruct (decide (k0 = k)) as [-> | Hne0]; simpl.
    + by rewrite !decide_False.
    + destruct (decide (k0 = k')); [done | exact IH].
Qed.

(** An assignment under a key other than [__proto__] makes an own entry and
    leaves the prototype. *)
Lemma shape_set_own (k : string) (shape : Shape) (object : ShapeObject) :
  k ≠ "__proto__" → shape_set k shape object = (object.1, obj_set k shape object.2).
Proof. intros Hk. unfold shape_set. by rewrite decide_False. Qed.

(** The key of a spread is never [__proto__]. *)
Lemma spread_key_own (name : string) : "..." +:+ name ≠ "__proto__".
Proof. discriminate. Qed.

(** An assignment reads back under its key, and leaves the entries of the
    other keys. *)
Lemma obj_get_shape_set_ne (k k' : string) (shape : Shape) (object : ShapeObject) :
  k' ≠ k → obj_get k' (shape_set k shape object).2 = obj_get k' object.2.
Proof.
  intros Hne. unfold shape_set.
  destruct (decide (k = "__proto__")); [destruct (inheritsProtoAccessor _) |];
    cbn [snd]; try done; by apply obj_get_set_ne.
Qed.

Lemma obj_get_shape_set_spread (name : string) (shape : Shape) (object : ShapeObject) :
  obj_get ("..." +:+ name) (shape_set ("..." +:+ name) shape object).2 = Some shape.
Proof.
  rewrite shape_set_own by apply spread_key_own. cbn [snd]. apply obj_get_set_eq.
Qed.

(** A spread that no fragment definition matches leaves the object as it
    is. *)
Lemma visitSelection_unmatched (stack : nat) (definitions : list DefinitionNode)
    (object : ShapeObject) (name : string) :
  js_find (isFragmentNamed name) definitions = None →
  visitSelection stack definitions object (FragmentSpread name) = Ok object.
Proof. intros H. simpl. by rewrite H. Qed.

Lemma forEachM_unmatched (stack : nat) (definitions : list DefinitionNode)
    (object : ShapeObject) (before after : list Selection) (name : string) :
  js_find (isFragmentNamed name) definitions = None →
  forEachM (visitSelection stack definitions) object
    (before ++ FragmentSpread name :: after)
  = forEachM (visitSelection stack definitions) object (before ++ after).
Proof.
  intros H. rewrite !forEachM_app.
  destruct (forEachM _ object before) as [object'|e]; [| done].
  cbn [mbind Result_bind forEachM]. by rewrite visitSelection_unmatched.
Qed.

(** Once the shape of the fragment [name] stands under [...name], the
    selections that follow keep it there: none of them is a field of that
    name, and a further spread of [name] writes the same shape. *)
Lemma forEachM_keeps_spread (stack : nat) (definitions : list DefinitionNode)
    (name : string) (fragmentDefinition : DefinitionNode) (fragmentShape : Shape)
    (after : list Selection) (object object' : ShapeObject) :
  js_find (isFragmentNamed name) definitions = Some fragmentDefinition →
  extractSelections stack (Some (definitionSelections fragmentDefinition)) definitions
  = Ok fragmentShape →
  (∀ field arguments selectionSet,
      Field field arguments selectionSet ∈ after → field ≠ "..." +:+ name) →
  obj_get ("..." +:+ name) object.2 = Some fragmentShape →
  forEachM (visitSelection stack definitions) object after = Ok object' →
  obj_get ("..." +:+ name) object'.2 = Some fragmentShape.
Proof.
  intros Hfind Hshape. revert object.
  induction after as [|selection after IH]; intros object Hfields Hget Hloop.
  - simpl in Hloop. by injection Hloop as <-.
  - simpl in Hloop.
    destruct (visitSelection stack definitions object selection)
      as [object1|e] eqn:Hvisit; [| done].
    simpl in Hloop. apply (IH object1); [| | exact Hloop].
    + intros field arguments selectionSet Hin. eapply Hfields.
      apply elem_of_cons. right. exact Hin.
    + destruct selection as [field arguments selectionSet | other | inner];
        simpl in Hvisit.
      * destruct (nonEmpty field); [| by injection Hvisit as <-].
        destruct (extractSelections stack selectionSet definitions) as [shape|];
          [| done].
        simpl in Hvisit. injection Hvisit as <-.
        rewrite obj_get_shape_set_ne; [done |].
        intros Heq. symmetry in Heq. revert Heq.
        eapply Hfields. apply list_elem_of_here.
      * destruct (decide (other = name)) as [-> | Hne].
        -- rewrite Hfind, Hshape in Hvisit. simpl in Hvisit.
           injection Hvisit as <-. apply obj_get_shape_set_spread.
        -- assert ("..." +:+ name ≠ "..." +:+ other) as Hkey
             by (intros Heq; by simplify_eq).
           destruct (js_find (isFragmentNamed other) definitions) as [d|];
             [| by injection Hvisit as <-].
           destruct (extractSelections stack (Some (definitionSelections d))
                       definitions) as [shape|]; [| done].
           simpl in Hvisit. injection Hvisit as <-.
           by rewrite obj_get_shape_set_ne.
      * by injection Hvisit as <-.
Qed.

(** When the extraction of a selection set returns, the shape of each
    matched spread stands under its key. *)
Lemma extractSelections_matched (stack : nat) (definitions : list DefinitionNode)
    (before after : list Selection) (name : string)
    (fragmentDefinition : DefinitionNode) (shape : Shape) :
  js_find (isFragmentNamed name) definitions = Some fragmentDefinition →
  (∀ field arguments selectionSet,
      Field field arguments selectionSet ∈ after → field ≠ "..." +:+ name) →
  extractSelections (S stack) (Some (before ++ FragmentSpread name :: after)) definitions
  = Ok shape →
  ∃ prototype entries fragmentShape,
    shape = SObj prototype entries
    ∧ extractSelections stack (Some (definitionSelections fragmentDefinition))
        definitions = Ok fragmentShape
    ∧ obj_get ("..." +:+ name) entries = Some fragmentShape.
Proof.
  intros Hfind Hfields. rewrite extractSelections_unfold.
  destruct (before ++ FragmentSpread name :: after) as [|s l] eqn:Hlist;
    [by destruct before |].
  rewrite <- Hlist. clear Hlist s l.
  rewrite forEachM_app.
  destruct (forEachM _ newObject before) as [object0|e]; [| done]. simpl.
  rewrite Hfind.
  destruct (extractSelections stack _ definitions) as [fragmentShape|e] eqn:Hshape;
    [| done].
  simpl.
  destruct (forEachM _ _ after) as [object|e] eqn:Hloop; [| done].
  simpl. intros [= <-]. exists object.1, object.2, fragmentShape.
  split; [done |]. split; [done |].
  eapply forEachM_keeps_spread; eauto. apply obj_get_shape_set_spread.
Qed.

Lemma isFragmentNamed_inv (name : string) (d : DefinitionNode) :
  isFragmentNamed name d = true → ∃ selections, d = FragmentDefinition name selections.
Proof.
  destruct d as [| dname selections]; simpl; [done |].
  intros [[_ _]%andb_true_iff ->%bool_decide_eq_true]%andb_true_iff. eauto.
Qed.

(** From the loop to the function: a call needs one frame more. *)
Lemma extractSelections_of_loop (definitions : list DefinitionNode)
    (selections : list Selection) :
  (∃ stack object, ∀ stack', stack ≤ stack' →
      forEachM (visitSelection stack' definitions) newObject selections = Ok object) →
  ∃ stack shape, ∀ stack', stack ≤ stack' →
      extractSelections stack' (Some selections) definitions = Ok shape.
Proof.
  intros (stack & object & Hloop).
  exists (S stack),
    (match selections with [] => SNull | _ => SObj object.1 object.2 end).
  intros [|stack'] Hle; [lia |].
  rewrite extractSelections_unfold.
  destruct selections; [done |]. rewrite Hloop by lia. done.
Qed.

(** The loop returns, with enough stack, on selections whose spreads are
    ranked below [bound], once the same is known of the function below
    [bound]. *)
Lemma forEachM_returns (rank : string → nat) (definitions : list DefinitionNode)
    (bound : nat) :
  fragmentsRanked rank definitions →
  (∀ b selections, b < bound → allSpreadsBelow rank b selections →
     ∃ stack shape, ∀ stack', stack ≤ stack' →
       extractSelections stack' (Some selections) definitions = Ok shape) →
  ∀ depth selections,
    selectionsDepth selections ≤ depth →
    allSpreadsBelow rank bound selections →
    ∀ object, ∃ stack object', ∀ stack', stack ≤ stack' →
      forEachM (visitSelection stack' definitions) object selections = Ok object'.
Proof.
  intros Hranked Hbelow depth.
  induction depth as [depth IHdepth] using lt_wf_ind.
  induction selections as [|selection selections IH]; intros Hdepth Hall object.
  { exists 0, object. done. }
  destruct Hall as [Hhead Hall].
  assert (selectionDepth selection ≤ depth
          ∧ selectionsDepth selections ≤ depth) as [Hd Hds].
  { unfold selectionsDepth in Hdepth. simpl in Hdepth.
    unfold selectionsDepth. lia. }
  assert (∃ stack object1, ∀ stack', stack ≤ stack' →
            visitSelection stack' definitions object selection = Ok object1)
    as (stackH & object1 & Hvisit).
  { destruct selection as [field arguments [inner|] | name | inner]; simpl.
    - destruct (nonEmpty field); [| by exists 0, object].
      destruct (extractSelections_of_loop definitions inner)
        as (stack & shape & Hshape).
      + simpl in Hd.
        apply (IHdepth (selectionsDepth inner)); [| done | exact Hhead].
        unfold selectionsDepth. lia.
      + exists stack, (shape_set field shape object).
        intros stack' Hle. by rewrite Hshape.
    - destruct (nonEmpty field); [| by exists 0, object].
      exists 1, (shape_set field SNull object).
      intros [|stack'] Hle; [lia | done].
    - destruct (js_find (isFragmentNamed name) definitions) as [d|] eqn:Hfind;
        [| by exists 0, object].
      pose proof Hfind as (before & after & Hdefs & _ & Hd')%js_find_Some.
      apply isFragmentNamed_inv in Hd' as [fragmentSelections ->].
      destruct (Hbelow (rank name) fragmentSelections) as (stack & shape & Hshape).
      + exact Hhead.
      + apply Hranked. rewrite Hdefs. apply elem_of_app. right.
        apply list_elem_of_here.
      + exists stack, (shape_set ("..." +:+ name) shape object).
        intros stack' Hle. simpl. by rewrite Hshape.
    - by exists 0, object. }
  destruct (IH Hds Hall object1) as (stackT & object' & Hrest).
  exists (stackH `max` stackT), object'. intros stack' Hle. simpl.
  rewrite Hvisit by lia. simpl. apply Hrest. lia.
Qed.

(** With fragments that do not spread each other in a cycle, the extraction
    returns for every stack from some depth on, with one and the same
    shape. *)
Lemma extractSelections_returns (rank : string → nat)
    (definitions : list DefinitionNode) :
  fragmentsRanked rank definitions →
  ∀ bound selections,
    allSpreadsBelow rank bound selections →
    ∃ stack shape, ∀ stack', stack ≤ stack' →
      extractSelections stack' (Some selections) definitions = Ok shape.
Proof.
  intros Hranked bound.
  induction bound as [bound IHbound] using lt_wf_ind.
  intros selections Hall. apply extractSelections_of_loop.
  apply (forEachM_returns rank definitions bound Hranked)
    with (depth := selectionsDepth selections); [| done | done].
  intros b inner Hb Hinner. by apply (IHbound b).
Qed.

(** C9.  Take a selection set that holds the spread [...name] between the
    selections [before] and [after].
    (1) If no fragment definition matches [name], the extraction is that of
    the selection set without the spread (a fresh object without entries,
    where nothing else is selected): the spread adds no entry and throws
    nothing.
    (2) If the fragment definition [fragmentDefinition] matches, then
    whenever the extraction returns, the result is an object that holds
    under [...name] the shape extracted from the selection set of
    [fragmentDefinition] (no field can be called [...name] in a parsed
    query).
    (3) And it does return, with that entry, for every stack from some depth
    on, when no fragment of the document reaches itself through spreads. *)
Theorem extractSelections_fragment_spread (definitions : list DefinitionNode)
    (before after : list Selection) (name : string) :
  (js_find (isFragmentNamed name) definitions = None →
   ∀ stack,
     extractSelections (S stack) (Some (before ++ FragmentSpread name :: after))
       definitions
     = match before ++ after with
       | [] => Ok (SObj None [])
       | rest => extractSelections (S stack) (Some rest) definitions
       end)
  ∧ (∀ fragmentDefinition stack shape,
       js_find (isFragmentNamed name) definitions = Some fragmentDefinition →
       (∀ field arguments selectionSet,
           Field field arguments selectionSet ∈ after → field ≠ "..." +:+ name) →
       extractSelections (S stack) (Some (before ++ FragmentSpread name :: after))
         definitions = Ok shape →
       ∃ prototype entries fragmentShape,
         shape = SObj prototype entries
         ∧ extractSelections stack (Some (definitionSelections fragmentDefinition))
             definitions = Ok fragmentShape
         ∧ obj_get ("..." +:+ name) entries = Some fragmentShape)
  ∧ (∀ fragmentDefinition rank bound,
       js_find (isFragmentNamed name) definitions = Some fragmentDefinition →
       (∀ field arguments selectionSet,
           Field field arguments selectionSet ∈ after → field ≠ "..." +:+ name) →
       fragmentsRanked rank definitions →
       allSpreadsBelow rank bound (before ++ FragmentSpread name :: after) →
       ∃ stack prototype entries fragmentShape, ∀ stack', stack ≤ stack' →
         extractSelections (S stack') (Some (before ++ FragmentSpread name :: after))
           definitions = Ok (SObj prototype entries)
         ∧ extractSelections stack' (Some (definitionSelections fragmentDefinition))
             definitions = Ok fragmentShape
         ∧ obj_get ("..." +:+ name) entries = Some fragmentShape).
Proof.
  split; [| split].
  - intros Hfind stack. rewrite extractSelections_unfold.
    destruct (before ++ FragmentSpread name :: after) as [|s l] eqn:Hlist;
      [by destruct before |].
    rewrite <- Hlist. clear Hlist s l.
    rewrite forEachM_unmatched by done.
    destruct (before ++ after) as [|s l] eqn:Hrest; [done |].
    by rewrite extractSelections_unfold.
  - intros fragmentDefinition stack shape Hfind Hfields Hshape.
    by eapply extractSelections_matched.
  - intros fragmentDefinition rank bound Hfind Hfields Hranked Hall.
    destruct (extractSelections_returns rank definitions Hranked bound _ Hall)
      as (stack1 & shape & Hshape).
    pose proof Hfind as (pre & post & Hdefs & _ & Hd)%js_find_Some.
    apply isFragmentNamed_inv in Hd as [fragmentSelections ->].
    assert (allSpreadsBelow rank (rank name) fragmentSelections) as Hfragment.
    { apply Hranked. rewrite Hdefs. apply elem_of_app. right.
      apply list_elem_of_here. }
    destruct (extractSelections_returns rank definitions Hranked _ _ Hfragment)
      as (stack2 & fragmentShape & Hfs).
    destruct (extractSelections_matched (stack1 `max` stack2) definitions before
                after name _ shape Hfind Hfields)
      as (prototype & entries & fs & -> & Hfs' & Hget).
    { apply Hshape. lia. }
    simpl in Hfs'. rewrite Hfs in Hfs' by lia. injection Hfs' as <-.
    exists (stack1 `max` stack2), prototype, entries, fragmentShape.
    intros stack' Hle. split; [apply Hshape; lia |].
    split; [apply Hfs; lia | done].
Qed.

(** C9 at [{ ...PostParts ...Missing title }]: the spread of the undefined
    fragment [Missing] is left out, and the shape of [PostParts] stands
    under [...PostParts]. *)
Lemma extractSelections_fragment_spread_witness :
  (js_find (isFragmentNamed "Missing") postDefinitions = None
   ∧ extractSelections 4
       (Some [ FragmentSpread "PostParts"; FragmentSpread "Missing";
               Field "title" [] None ]) postDefinitions
     = extractSelections 4
         (Some [ FragmentSpread "PostParts"; Field "title" [] None ])
         postDefinitions
   ∧ extractSelections 4
       (Some [ FragmentSpread "PostParts"; Field "title" [] None ])
       postDefinitions
     = Ok (SObj None [ ("...PostParts", postPartsShape); ("title", SNull) ]))
  ∧ (fragmentsRanked postRank postDefinitions
     ∧ ∃ stack prototype entries fragmentShape, ∀ stack', stack ≤ stack' →
         extractSelections (S stack')
           (Some ([] ++ FragmentSpread "PostParts"
                     :: [ FragmentSpread "Missing"; Field "title" [] None ]))
           postDefinitions = Ok (SObj prototype entries)
         ∧ extractSelections stack'
             (Some (definitionSelections
                      (FragmentDefinition "PostParts"
                         [ Field "title" [] None;
                           Field "author" [] (Some [ Field "name" [] None ]) ])))
             postDefinitions = Ok fragmentShape
         ∧ obj_get ("..." +:+ "PostParts") entries = Some fragmentShape).
Proof.
  split.
  - split; [reflexivity |]. split; [| vm_compute; reflexivity].
    exact (proj1 (extractSelections_fragment_spread postDefinitions
                    [ FragmentSpread "PostParts" ] [ Field "title" [] None ]
                    "Missing") eq_refl 3).
  - assert (fragmentsRanked postRank postDefinitions) as Hranked.
    { intros name selections Hin.
      apply elem_of_cons in Hin as [Hin | Hin]; [discriminate Hin |].
      apply elem_of_cons in Hin as [Hin | Hin];
        [| by apply not_elem_of_nil in Hin].
      injection Hin as -> ->. simpl. repeat split. }
    split; [exact Hranked |].
    apply (proj2 (proj2 (extractSelections_fragment_spread postDefinitions []
                           [ FragmentSpread "Missing"; Field "title" [] None ]
                           "PostParts")) _ postRank 2 eq_refl).
    + intros field arguments selectionSet Hin.
      apply elem_of_cons in Hin as [Hin | Hin]; [discriminate Hin |].
      apply elem_of_cons in Hin as [Hin | Hin];
        [| by apply not_elem_of_nil in Hin].
      injection Hin as -> _ _. discriminate.
    + exact Hranked.
    + simpl. unfold postRank. simpl. repeat split; lia.
Defined.

End Extractor.

(** ** Further properties of the two normalizers *)

Section NormalizerProperties.

Import JsStringFacts.

Lemma hasChar_app (c : ascii) (a b : string) :
  hasChar c (a +:+ b) = hasChar c a || hasChar c b.
Proof.
  induction a as [|d a IH]; [done |].
  rewrite app_cons. simpl. rewrite IH. by rewrite orb_assoc.
Qed.

Lemma hasChar_drop (c : ascii) (n : nat) (s : string) :
  hasChar c s = false → hasChar c (drop n s) = false.
Proof.
  revert s. induction n as [|n IH]; intros [|d s]; simpl; try done.
  intros [_ H]%orb_false_iff. by apply IH.
Qed.

Lemma hasChar_replace (c : ascii) (s pat rep : string) :
  hasChar c s = false → hasChar c rep = false →
  hasChar c (replace s pat rep) = false.
Proof.
  intros Hs Hrep. induction s as [|d s IH]; simpl.
  - destruct (startsWith "" pat); [| done].
    rewrite hasChar_app, Hrep. simpl. by apply hasChar_drop.
  - destruct (startsWith (String d s) pat).
    + rewrite hasChar_app, Hrep. simpl. by apply hasChar_drop.
    + simpl in *. apply orb_false_iff in Hs as [-> Hs]. simpl. by apply IH.
Qed.

Lemma hasChar_replaceAllChar (c d : ascii) (s : string) :
  c ≠ d → hasChar c (replaceAllChar s c d) = false.
Proof.
  intros Hne. induction s as [|e s IH]; simpl; [done |].
  rewrite IH, orb_false_r.
  destruct (Ascii.eqb_spec e c) as [-> | He].
  - apply Ascii.eqb_neq. congruence.
  - by apply Ascii.eqb_neq.
Qed.

(** A pattern that starts with a character [b] does not hold is found in
    [b +:+ pattern] at the end only. *)
Lemma replace_app_fresh (c : ascii) (p b rep : string) :
  hasChar c b = false →
  replace (b +:+ String c p) (String c p) rep = b +:+ rep.
Proof.
  intros Hb. induction b as [|d b IH].
  - rewrite !app_nil. cbn [replace]. rewrite startsWith_refl.
    by rewrite drop_all, app_empty_r.
  - simpl in Hb. apply orb_false_iff in Hb as [Hd Hb].
    rewrite !app_cons. cbn [replace startsWith].
    rewrite Ascii.eqb_sym, Hd. by rewrite IH.
Qed.

Lemma endsWith_fresh (c : ascii) (p b : string) :
  hasChar c b = false → endsWith b (String c p) = false.
Proof.
  intros Hb. destruct (endsWith b (String c p)) eqn:Hends; [| done].
  apply endsWith_inv in Hends. rewrite Hends, hasChar_app in Hb.
  simpl in Hb. rewrite Ascii.eqb_refl in Hb. simpl in Hb.
  by rewrite orb_true_r in Hb.
Qed.

(** X1.  Whatever the field name, the key the Search-Key Mapper makes starts
    with [fields.] and is none of the reserved parameter names: a filter on
    a content field never takes the place of a reserved parameter. *)
Theorem getSearchKey_never_reserved (variableKey : string) :
  startsWith (getSearchKey variableKey) "fields." = true
  ∧ getSearchKey variableKey ∉ contentfulReservedParameters.
Proof.
  pose proof (getSearchKey_fields variableKey) as Hfields.
  split; [exact Hfields |]. intros Hin.
  assert (Forall (fun r => startsWith r "fields." = false)
            contentfulReservedParameters) as Hall by (by repeat constructor).
  rewrite Forall_forall in Hall. specialize (Hall _ Hin). congruence.
Qed.

(** X2.  For every base name [b] without an underscore, [b_in], [b_not] and
    [b_exists] map to [fields.b[in]], [fields.b[ne]] and [fields.b[exists]],
    and [b] itself maps to [fields.b]. *)
Theorem getSearchKey_plain_base (b : string) :
  hasChar "_" b = false →
  getSearchKey (b +:+ "_in") = "fields." +:+ b +:+ "[in]"
  ∧ getSearchKey (b +:+ "_not") = "fields." +:+ b +:+ "[ne]"
  ∧ getSearchKey (b +:+ "_exists") = "fields." +:+ b +:+ "[exists]"
  ∧ getSearchKey b = "fields." +:+ b.
Proof.
  intros Hb. unfold getSearchKey. repeat split.
  - rewrite (endsWith_app b "_in" "_in") by (simpl; lia).
    change (endsWith "_in" "_in") with true. cbv iota.
    by rewrite (replace_app_fresh "_" "in" b "" Hb), app_empty_r.
  - rewrite (endsWith_app b "_not" "_in") by (simpl; lia).
    change (endsWith "_not" "_in") with false. cbv iota.
    rewrite (endsWith_app b "_not" "_not") by (simpl; lia).
    change (endsWith "_not" "_not") with true. cbv iota.
    by rewrite (replace_app_fresh "_" "not" b "" Hb), app_empty_r.
  - rewrite (endsWith_app b "_exists" "_in") by (simpl; lia).
    change (endsWith "_exists" "_in") with false. cbv iota.
    rewrite (endsWith_app b "_exists" "_not") by (simpl; lia).
    change (endsWith "_exists" "_not") with false. cbv iota.
    rewrite (endsWith_app b "_exists" "_exists") by (simpl; lia).
    change (endsWith "_exists" "_exists") with true. cbv iota.
    by rewrite (replace_app_fresh "_" "exists" b "" Hb), app_empty_r.
  - by rewrite !(endsWith_fresh "_" _ b Hb).
Qed.

(** X2 at the base name [title]. *)
Lemma getSearchKey_plain_base_witness :
  hasChar "_" "title" = false
  ∧ getSearchKey ("title" +:+ "_in") = "fields.title[in]"
  ∧ getSearchKey "title" = "fields.title".
Proof.
  assert (hasChar "_" "title" = false) as Hb by reflexivity.
  split; [exact Hb |]. split.
  - exact (proj1 (getSearchKey_plain_base "title" Hb)).
  - exact (proj2 (proj2 (proj2 (getSearchKey_plain_base "title" Hb)))).
Defined.

(** X3.  The order token the Ordering Normalizer makes of a string holds no
    underscore: every [_] of the expression has become a [.], in a field
    identifier as well as before the direction. *)
Theorem getOrderValue_no_underscore (s t : string) :
  getOrderValue (JStr s) = JStr t → hasChar "_" t = false.
Proof.
  unfold getOrderValue, truthy.
  destruct (String.eqb_spec s "") as [-> | Hne]; simpl negb; cbv iota.
  - by intros [= <-].
  - intros [= <-].
    assert (hasChar "_" (orderPrefix (orderDots s)) = false) as Hprefix.
    { unfold orderPrefix, orderDots.
      destruct (startsWith _ "sys."); [| rewrite hasChar_app; simpl];
        by apply hasChar_replaceAllChar. }
    assert (hasChar "_" (orderDirection (orderPrefix (orderDots s))) = false)
      as Hdir.
    { unfold orderDirection.
      destruct (endsWith _ ".DESC"); [rewrite hasChar_app; simpl |].
      - by apply hasChar_replace.
      - destruct (endsWith _ ".ASC"); [by apply hasChar_replace | done]. }
    rewrite orderSysDates_replace. by repeat apply hasChar_replace.
Qed.

(** X3 at [first_name_DESC]. *)
Lemma getOrderValue_no_underscore_witness :
  getOrderValue (JStr "first_name_DESC") = JStr "-fields.first.name"
  ∧ hasChar "_" "-fields.first.name" = false.
Proof.
  assert (getOrderValue (JStr "first_name_DESC") = JStr "-fields.first.name")
    as Hvalue by reflexivity.
  split; [exact Hvalue |].
  exact (getOrderValue_no_underscore "first_name_DESC" "-fields.first.name" Hvalue).
Defined.

End NormalizerProperties.

(** ** When the translation returns *)

Section ReturnConditions.

Import Scenarios MoreScenarios.

Lemma forEachM_Ok_iff {A B : Type} (body : B → A → Result B) (P : A → Prop)
    (l : list A) (acc : B) :
  (∀ acc x, returns (body acc x) ↔ P x) →
  returns (forEachM body acc l) ↔ Forall P l.
Proof.
  intros Hbody. revert acc. induction l as [|x l IH]; intros acc; simpl.
  - split; [by constructor | intros _; by exists acc].
  - destruct (body acc x) as [acc'|e] eqn:Hx; simpl.
    + rewrite IH. split.
      * intros Hl. constructor; [| done]. apply (Hbody acc). rewrite Hx. by exists acc'.
      * by intros [_ ?]%Forall_cons.
    + split.
      * by intros [? ?].
      * intros [Hp _]%Forall_cons. apply (Hbody acc) in Hp as [? Hp]. congruence.
Qed.

Lemma forEachM_invariant {A B : Type} (body : B → A → Result B) (I : B → Prop)
    (l : list A) (acc acc' : B) :
  (∀ acc x acc', I acc → body acc x = Ok acc' → I acc') →
  I acc → forEachM body acc l = Ok acc' → I acc'.
Proof.
  intros Hbody. revert acc. induction l as [|x l IH]; intros acc Hacc; simpl.
  - by intros [= <-].
  - destruct (body acc x) as [acc1|e] eqn:Hx; [| done]. simpl.
    apply IH. by eapply Hbody.
Qed.

Lemma selectionArguments_returns (selection : Selection) :
  returns (selectionArguments selection) ↔ isField selection = true.
Proof.
  destruct selection; simpl; split; try done; try (by intros [? ?]).
  intros _. by eexists.
Qed.

(** [buildVariableMap] returns exactly when the root query has its
    [definitions] and the operations select fields only at the top. *)
Lemma buildVariableMap_Ok_iff (operation : Operation) :
  returns (buildVariableMap operation)
  ↔ ∃ defs, getRootQuery operation = Ok (Some defs) ∧ operationsSelectFields defs.
Proof.
  unfold buildVariableMap, rootDefinitions.
  destruct (getRootQuery operation) as [[defs|]|e]; simpl.
  - rewrite (forEachM_Ok_iff _
               (fun d => Forall (fun s => isField s = true) (definitionSelections d))).
    + rewrite Forall_forall. split.
      * intros Hall. exists defs. split; [done |]. intros d Hd Hop.
        apply Hall. by apply list_elem_of_filter.
      * intros (defs' & [= <-] & Hall) d [Hop Hd]%list_elem_of_filter. by apply Hall.
    + intros acc d. apply forEachM_Ok_iff. intros acc' s.
      rewrite <- selectionArguments_returns.
      destruct (selectionArguments s); simpl; split; intros [? ?]; try done;
        by eexists.
  - split; [by intros [? ?] | by intros (? & ? & _)].
  - split; [by intros [? ?] | by intros (? & ? & _)].
Qed.

Lemma elem_of_obj_set {V : Type} (k : string) (v : V) (o : list (string * V))
    (e : string * V) :
  e ∈ obj_set k v o → e = (k, v) ∨ e ∈ o.
Proof.
  induction o as [|[k' v'] o IH]; simpl.
  - intros ->%list_elem_of_singleton. by left.
  - destruct (decide (k' = k)) as [-> | Hne].
    + intros [-> | Hin]%elem_of_cons; [by left |]. right. by apply elem_of_cons; right.
    + intros [-> | Hin]%elem_of_cons; [right; apply list_elem_of_here |].
      destruct (IH Hin) as [-> | Hin']; [by left |].
      right. by apply elem_of_cons; right.
Qed.

Lemma obj_keys_set {V : Type} (k : string) (v : V) (o : list (string * V)) :
  obj_keys (obj_set k v o)
  = if decide (k ∈ obj_keys o) then obj_keys o else obj_keys o ++ [k].
Proof.
  unfold obj_keys. induction o as [|[k' v'] o IH].
  - done.
  - cbn [obj_set]. destruct (decide (k' = k)) as [-> | Hne].
    + rewrite !fmap_cons. cbn [fst].
      rewrite decide_True; [done | apply list_elem_of_here].
    + rewrite !fmap_cons, IH. cbn [fst].
      destruct (decide (k ∈ o.*1)) as [Hin | Hnin].
      * rewrite decide_True; [done | by apply elem_of_cons; right].
      * rewrite decide_False; [done |].
        intros [? | ?]%elem_of_cons; congruence.
Qed.

Lemma NoDup_obj_set {V : Type} (k : string) (v : V) (o : list (string * V)) :
  NoDup (obj_keys o) → NoDup (obj_keys (obj_set k v o)).
Proof.
  intros Hnodup. rewrite obj_keys_set.
  destruct (decide (k ∈ obj_keys o)); [done |].
  apply NoDup_app. split; [done |]. split; [| apply NoDup_singleton].
  intros x Hx ->%list_elem_of_singleton. done.
Qed.

Lemma nonEmpty_true (s : string) : nonEmpty s = true → s ≠ "".
Proof. unfold nonEmpty. by intros ?%negb_true_iff%String.eqb_neq. Qed.

Lemma bindingsInvariant_set (variableMap : list (string * Binding))
    (variableKey field : string) (kind : VariableKind) :
  bindingsInvariant variableMap →
  nonEmpty variableKey && nonEmpty field = true →
  bindingsInvariant (setBinding variableKey (kind, field) variableMap).
Proof.
  intros Hinv. unfold setBinding.
  destruct (decide (variableKey = "__proto__")); [done |]. revert Hinv.
  intros [Hnodup Hnames] [Hk Hf]%andb_true_iff. split.
  - by apply NoDup_obj_set.
  - intros k' kind' field' [[= -> -> ->] | Hin]%elem_of_obj_set.
    + split; by apply nonEmpty_true.
    + by eapply Hnames.
Qed.

Lemma bindingsInvariant_bindArgument (variableMap : list (string * Binding))
    (argument : ArgumentNode) :
  bindingsInvariant variableMap →
  bindingsInvariant (bindArgument variableMap argument).
Proof.
  intros Hinv. unfold bindArgument.
  destruct (arg_value argument) as [v| | | | | | | |fields]; try done.
  - destruct (nonEmpty v && nonEmpty (arg_name argument)) eqn:Hne; [| done].
    by apply bindingsInvariant_set.
  - revert variableMap Hinv.
    induction fields as [|[name value] fields IH]; intros variableMap Hinv;
      [done |].
    simpl. apply IH. unfold bindObjectField. simpl.
    destruct value as [v| | | | | | | |]; try done.
    destruct (nonEmpty v && nonEmpty name) eqn:Hne; [| done].
    by apply bindingsInvariant_set.
Qed.

Lemma buildVariableMap_invariant (operation : Operation)
    (variableMap : list (string * Binding)) :
  buildVariableMap operation = Ok variableMap → bindingsInvariant variableMap.
Proof.
  unfold buildVariableMap. destruct (rootDefinitions operation) as [defs|]; [| done].
  simpl. apply forEachM_invariant.
  - intros acc d acc' Hacc. apply forEachM_invariant; [| done].
    intros acc1 s acc2 Hacc1.
    destruct (selectionArguments s) as [arguments|]; [| done]. simpl.
    intros [= <-]. clear -Hacc1. revert acc1 Hacc1.
    induction arguments as [|argument arguments IH]; intros acc1 Hacc1; [done |].
    simpl. apply IH. by apply bindingsInvariant_bindArgument.
  - split; [apply NoDup_nil_2 | by intros ? ? ? ?%not_elem_of_nil].
Qed.

Lemma obj_get_elem_of {V : Type} (k : string) (v : V) (o : list (string * V)) :
  NoDup (obj_keys o) → (k, v) ∈ o ↔ obj_get k o = Some v.
Proof.
  unfold obj_keys. induction o as [|[k' v'] o IH]; intros Hnodup.
  - simpl. split; [by intros ?%not_elem_of_nil | done].
  - rewrite fmap_cons in Hnodup. apply NoDup_cons in Hnodup as [Hfresh Hnodup].
    simpl in Hfresh. simpl. destruct (decide (k' = k)) as [-> | Hne].
    + split.
      * intros [[= ->] | Hin]%elem_of_cons; [done |].
        destruct Hfresh. apply list_elem_of_fmap. by exists (k, v).
      * intros [= ->]. apply list_elem_of_here.
    + rewrite <- (IH Hnodup). split.
      * intros [[= -> ->] | Hin]%elem_of_cons; done.
      * intros Hin. by apply elem_of_cons; right.
Qed.

(** X4.  The Variable-Binding Mapper returns exactly when the root query has
    its [definitions] and every top-level selection of every operation
    definition is a field (a fragment spread or an inline fragment at the top
    makes it throw).  The map it returns has each variable once, with a
    non-empty variable name and a non-empty field name, and reading a key
    gives the one binding recorded for it. *)
Theorem buildVariableMap_returns_and_keeps (operation : Operation) :
  (returns (buildVariableMap operation)
   ↔ ∃ defs, getRootQuery operation = Ok (Some defs) ∧ operationsSelectFields defs)
  ∧ (∀ variableMap,
       buildVariableMap operation = Ok variableMap →
       bindingsInvariant variableMap
       ∧ ∀ variableKey binding,
           (variableKey, binding) ∈ variableMap
           ↔ obj_get variableKey variableMap = Some binding).
Proof.
  split; [apply buildVariableMap_Ok_iff |].
  intros variableMap Hmap.
  pose proof (buildVariableMap_invariant operation variableMap Hmap) as Hinv.
  split; [exact Hinv |]. intros variableKey binding.
  apply obj_get_elem_of. apply Hinv.
Qed.

(** X5.  The Query-Variable Translator returns exactly when the root query
    has its [definitions], every top-level selection of every operation
    definition is a field, the first operation definition selects something,
    and the two [hasOwnProperty] calls of layer 2 find the method of
    [Object.prototype]; on every other operation it throws.  So a runtime
    variable named [hasOwnProperty] beside any bound variable, or a bound
    variable of that name beside a bound variable that is passed, makes the
    whole translation throw. *)
Theorem parseQueryVariables_returns_iff (operation : Operation) :
  returns (parseQueryVariables operation)
  ↔ ∃ defs d variableMap,
      getRootQuery operation = Ok (Some defs)
      ∧ operationsSelectFields defs
      ∧ js_find isOperationDefinition defs = Some d
      ∧ definitionSelections d ≠ []
      ∧ buildVariableMap operation = Ok variableMap
      ∧ methodsUnshadowed variableMap (variables operation).
Proof.
  split.
  - intros [ps (defs & o & n & declared & field & arguments & selectionSet & rest
                & variableMap & layer2 & Hroot & Hfind & Hmap & Hqueries & _)
                %parseQueryVariables_Ok_inv].
    exists defs, (OperationDefinition o n declared
                    (Field field arguments selectionSet :: rest)), variableMap.
    split; [done |].
    destruct (proj1 (buildVariableMap_Ok_iff operation)) as (defs' & Hroot' & Hall);
      [by exists variableMap |].
    assert (defs' = defs) as -> by congruence.
    split; [exact Hall |]. split; [done |]. split; [done |]. split; [done |].
    apply operationQueries_returns. by exists layer2.
  - intros (defs & d & variableMap & Hroot & Hfields & Hfind & Hsels & Hmap
            & [layer2 Hqueries]%operationQueries_returns).
    pose proof Hfind as (before & after & Hdefs & _ & Hop)%js_find_Some.
    assert (d ∈ defs) as Hin
      by (rewrite Hdefs; apply elem_of_app; right; apply list_elem_of_here).
    specialize (Hfields d Hin Hop).
    destruct d as [o n declared sels|]; [| done]. simpl in *.
    destruct sels as [|s rest]; [done |].
    apply Forall_cons in Hfields as [Hs _].
    destruct s as [field arguments selectionSet| |]; try done.
    eexists. by eapply parseQueryVariables_returns.
Qed.

Lemma js_find_isQuery (defs : list DefinitionNode) (d : DefinitionNode) :
  js_find isOperationDefinition defs = Some d → isQuery d = true →
  js_find isQuery defs = Some d.
Proof.
  intros (before & after & -> & Hbefore & _)%js_find_Some Hquery.
  apply js_find_Some. exists before, after. split; [done |]. split; [| done].
  eapply Forall_impl; [exact Hbefore |].
  intros [[]| ]; simpl; done.
Qed.

End ReturnConditions.

(** ** Further properties of the Selection-Tree Extractor *)

Section ExtractorProperties.

Import Scenarios ExtractorScenarios.

Lemma forEachM_invariant_in {A B : Type} (body : B → A → Result B) (I : B → Prop)
    (l : list A) (acc acc' : B) :
  (∀ acc x acc', x ∈ l → I acc → body acc x = Ok acc' → I acc') →
  I acc → forEachM body acc l = Ok acc' → I acc'.
Proof.
  revert acc. induction l as [|x l IH]; intros acc Hbody Hacc; simpl.
  - by intros [= <-].
  - destruct (body acc x) as [acc1|e] eqn:Hx; [| done]. simpl.
    apply IH.
    + intros a y a' Hy. apply Hbody. by apply elem_of_cons; right.
    + eapply Hbody; [apply list_elem_of_here | done | done].
Qed.

Lemma visitSelection_mono (stack stack' : nat) (definitions : list DefinitionNode)
    (object object' : ShapeObject) (selection : Selection) :
  (∀ selectionSet shape,
      extractSelections stack selectionSet definitions = Ok shape →
      extractSelections stack' selectionSet definitions = Ok shape) →
  visitSelection stack definitions object selection = Ok object' →
  visitSelection stack' definitions object selection = Ok object'.
Proof.
  intros Hmono. destruct selection as [field arguments inner | name | inner];
    simpl; [| | done].
  - destruct (nonEmpty field); [| done].
    destruct (extractSelections stack inner definitions) as [shape|] eqn:Hshape;
      [| done].
    by rewrite (Hmono _ _ Hshape).
  - destruct (js_find (isFragmentNamed name) definitions) as [d|]; [| done].
    destruct (extractSelections stack (Some (definitionSelections d)) definitions)
      as [shape|] eqn:Hshape; [| done].
    by rewrite (Hmono _ _ Hshape).
Qed.

(** X7.  The result of the extraction does not depend on the stack it is
    given: what it returns within some stack, it returns within every larger
    one. *)
Theorem extractSelections_more_stack (stack stack' : nat)
    (selectionSet : option (list Selection)) (definitions : list DefinitionNode)
    (shape : Shape) :
  extractSelections stack selectionSet definitions = Ok shape →
  stack ≤ stack' →
  extractSelections stack' selectionSet definitions = Ok shape.
Proof.
  revert stack' selectionSet shape.
  induction stack as [|stack IH]; intros stack' selectionSet shape; [done |].
  intros Hshape Hle. destruct stack' as [|stack']; [lia |].
  rewrite extractSelections_unfold in *.
  destruct selectionSet as [[|s l]|]; try done.
  destruct (forEachM (visitSelection stack definitions) newObject (s :: l))
    as [object|] eqn:Hloop; [| done].
  assert (∀ l acc acc',
            forEachM (visitSelection stack definitions) acc l = Ok acc' →
            forEachM (visitSelection stack' definitions) acc l = Ok acc') as Hmono.
  { clear -IH Hle. induction l as [|x l IHl]; intros acc acc'; [done |]. simpl.
    destruct (visitSelection stack definitions acc x) as [acc1|] eqn:Hx; [| done].
    rewrite (visitSelection_mono stack stack' definitions acc acc1 x); [| | done].
    - simpl. apply IHl.
    - intros ss sh Hsh. apply IH; [done | lia]. }
  by rewrite (Hmono _ _ _ Hloop).
Qed.

(** X7 at the fragment [PostParts]: the stack 4 is enough, and so is 10. *)
Lemma extractSelections_more_stack_witness :
  extractSelections 4 (Some [ FragmentSpread "PostParts" ]) postDefinitions
  = Ok (SObj None [ ("...PostParts", postPartsShape) ])
  ∧ extractSelections 10 (Some [ FragmentSpread "PostParts" ]) postDefinitions
    = Ok (SObj None [ ("...PostParts", postPartsShape) ]).
Proof.
  assert (extractSelections 4 (Some [ FragmentSpread "PostParts" ]) postDefinitions
          = Ok (SObj None [ ("...PostParts", postPartsShape) ])) as H
    by (vm_compute; reflexivity).
  split; [exact H |].
  apply (extractSelections_more_stack 4 10 _ postDefinitions _ H). lia.
Defined.

(** The extraction throws nothing but the engine's [RangeError]. *)
Lemma extractSelections_Throw (stack : nat) (selectionSet : option (list Selection))
    (definitions : list DefinitionNode) (e : Exn) :
  extractSelections stack selectionSet definitions = Throw e →
  e = RangeError "Maximum call stack size exceeded".
Proof.
  revert selectionSet e. induction stack as [|stack IH]; intros selectionSet e.
  - by intros [= <-].
  - rewrite extractSelections_unfold.
    destruct selectionSet as [[|s l]|]; try done.
    destruct (forEachM (visitSelection stack definitions) newObject (s :: l))
      as [object|e'] eqn:Hloop; [done |].
    simpl. intros [= <-]. revert Hloop. generalize (s :: l).
    generalize newObject.
    intros acc l'. revert acc. induction l' as [|x l' IHl]; intros acc; [done |].
    simpl. destruct (visitSelection stack definitions acc x) as [acc1|e1] eqn:Hx.
    + simpl. apply IHl.
    + simpl. intros [= <-].
      destruct x as [field arguments inner | name | inner]; simpl in Hx; [| | done].
      * destruct (nonEmpty field); [| done].
        destruct (extractSelections stack inner definitions) eqn:Hinner; [done |].
        injection Hx as <-. by eapply IH.
      * destruct (js_find (isFragmentNamed name) definitions) as [d|]; [| done].
        destruct (extractSelections stack (Some (definitionSelections d)) definitions)
          eqn:Hinner; [done |].
        injection Hx as <-. by eapply IH.
Qed.

(** The loop throws when it holds a spread whose fragment cannot be
    extracted. *)
Lemma forEachM_throws_at_spread (stack : nat) (definitions : list DefinitionNode)
    (name : string) (fragmentDefinition : DefinitionNode)
    (selections : list Selection) (object : ShapeObject) :
  js_find (isFragmentNamed name) definitions = Some fragmentDefinition →
  ¬ returns (extractSelections stack
               (Some (definitionSelections fragmentDefinition)) definitions) →
  FragmentSpread name ∈ selections →
  ¬ returns (forEachM (visitSelection stack definitions) object selections).
Proof.
  intros Hfind Hfragment. revert object.
  induction selections as [|s l IH]; intros object Hin.
  - by apply not_elem_of_nil in Hin.
  - simpl. destruct (visitSelection stack definitions object s) as [acc|e] eqn:Hs.
    + simpl. apply elem_of_cons in Hin as [<- | Hin]; [| by apply IH].
      simpl in Hs. rewrite Hfind in Hs.
      destruct (extractSelections stack _ definitions) as [shape|] eqn:Hshape;
        [| done].
      destruct Hfragment. by exists shape.
    + by intros [? ?].
Qed.

(** X8.  When the fragment that [name] resolves to spreads [name] again at
    the top of its selection set, the extraction of every selection set that
    spreads [name] ends in the [RangeError] of the exhausted call stack,
    whatever the stack: such a query never gets a shape. *)
Theorem extractSelections_self_spread (definitions : list DefinitionNode)
    (name : string) (fragmentDefinition : DefinitionNode) :
  js_find (isFragmentNamed name) definitions = Some fragmentDefinition →
  FragmentSpread name ∈ definitionSelections fragmentDefinition →
  ∀ stack selections,
    FragmentSpread name ∈ selections →
    extractSelections stack (Some selections) definitions
    = Throw (RangeError "Maximum call stack size exceeded").
Proof.
  intros Hfind Hself.
  assert (∀ stack selections,
            FragmentSpread name ∈ selections →
            ¬ returns (extractSelections stack (Some selections) definitions))
    as Hnever.
  { induction stack as [|stack IH]; intros selections Hin; [by intros [? ?] |].
    rewrite extractSelections_unfold.
    destruct selections as [|s l]; [by apply not_elem_of_nil in Hin |].
    intros [shape Hshape].
    destruct (forEachM (visitSelection stack definitions) newObject (s :: l))
      as [object|] eqn:Hloop; [| done].
    apply (forEachM_throws_at_spread stack definitions name fragmentDefinition
             (s :: l) newObject Hfind (IH _ Hself) Hin).
    rewrite Hloop. by exists object. }
  intros stack selections Hin.
  destruct (extractSelections stack (Some selections) definitions) as [shape|e]
    eqn:Hshape.
  - destruct (Hnever stack selections Hin). by exists shape.
  - f_equal. by eapply extractSelections_Throw.
Qed.

(** X8 at the fragment [Loop], which spreads itself. *)
Lemma extractSelections_self_spread_witness :
  js_find (isFragmentNamed "Loop") loopDefinitions
  = Some (FragmentDefinition "Loop" [ Field "title" [] None; FragmentSpread "Loop" ])
  ∧ extractSelections 1000 (Some [ FragmentSpread "Loop" ]) loopDefinitions
    = Throw (RangeError "Maximum call stack size exceeded").
Proof.
  split; [reflexivity |].
  apply (extractSelections_self_spread loopDefinitions "Loop"
           (FragmentDefinition "Loop" [ Field "title" [] None; FragmentSpread "Loop" ])
           eq_refl).
  - simpl. apply elem_of_cons. right. apply list_elem_of_here.
  - apply list_elem_of_here.
Defined.

Lemma shapeKeysUnique_obj_set (k : string) (inner : Shape) (prototype : option Shape)
    (entries : list (string * Shape)) :
  shapeKeysUnique (SObj prototype entries) → shapeKeysUnique inner →
  shapeKeysUnique (SObj prototype (obj_set k inner entries)).
Proof.
  intros (Hnodup & Hall & Hproto) Hinner.
  split; [by apply NoDup_obj_set |]. split; [| done].
  clear Hnodup. induction entries as [|[k' v'] entries IH]; simpl.
  - done.
  - destruct Hall as [Hv' Hall]. destruct (decide (k' = k)); simpl; [done |].
    split; [done | by apply IH].
Qed.

Lemma shapeKeysUnique_set (k : string) (inner : Shape) (object : ShapeObject) :
  shapeKeysUnique (SObj object.1 object.2) → shapeKeysUnique inner →
  shapeKeysUnique (SObj (shape_set k inner object).1 (shape_set k inner object).2).
Proof.
  intros Hobject Hinner. unfold shape_set.
  destruct (decide (k = "__proto__")); [destruct (inheritsProtoAccessor _) |];
    cbn [fst snd]; try (by apply shapeKeysUnique_obj_set).
  destruct Hobject as (Hnodup & Hall & _). done.
Qed.

(** The keys after an assignment: those before, and at most the key
    assigned. *)
Lemma obj_keys_shape_set (k key : string) (inner : Shape) (object : ShapeObject) :
  key ∈ obj_keys (shape_set k inner object).2 → key ∈ obj_keys object.2 ∨ key = k.
Proof.
  unfold shape_set.
  destruct (decide (k = "__proto__")); [destruct (inheritsProtoAccessor _) |];
    cbn [snd]; try (by left); rewrite obj_keys_set;
    (destruct (decide (k ∈ obj_keys object.2)); [by left |]);
    intros [? | ->%list_elem_of_singleton]%elem_of_app; eauto.
Qed.

(** The prototype after an assignment: the one before, unless the key is
    [__proto__]. *)
Lemma prototype_shape_set (k : string) (inner : Shape) (object : ShapeObject) :
  (shape_set k inner object).1 = object.1 ∨ k = "__proto__".
Proof.
  unfold shape_set. destruct (decide (k = "__proto__")); [by right | by left].
Qed.

(** X9.  A shape the extraction returns has pairwise distinct keys at every
    level; it is [null] exactly for an absent or empty selection set; each
    of its top-level keys is the name of a field of the selection set or
    [...] followed by the name of one of its spreads: an inline fragment
    adds nothing; and its prototype is [Object.prototype] unless the
    selection set has a field named [__proto__]. *)
Theorem extractSelections_shape (stack : nat)
    (selectionSet : option (list Selection)) (definitions : list DefinitionNode)
    (shape : Shape) :
  extractSelections stack selectionSet definitions = Ok shape →
  shapeKeysUnique shape
  ∧ (shape = SNull ↔ selectionSet = None ∨ selectionSet = Some [])
  ∧ (∀ selections prototype entries key,
       selectionSet = Some selections → shape = SObj prototype entries →
       key ∈ obj_keys entries →
       (∃ arguments inner, Field key arguments inner ∈ selections)
       ∨ (∃ name, key = "..." +:+ name ∧ FragmentSpread name ∈ selections))
  ∧ (∀ selections prototype entries,
       selectionSet = Some selections → shape = SObj prototype entries →
       prototype = None
       ∨ ∃ arguments inner, Field "__proto__" arguments inner ∈ selections).
Proof.
  revert selectionSet shape.
  induction stack as [|stack IH]; intros selectionSet shape; [done |].
  rewrite extractSelections_unfold.
  destruct selectionSet as [[|s l]|].
  - intros [= <-]. split; [done |]. split; [split; [by right | done] | done].
  - destruct (forEachM (visitSelection stack definitions) newObject (s :: l))
      as [object|] eqn:Hloop; [| done].
    simpl. intros [= <-]. split; [| split; [| split]].
    + revert Hloop.
      apply (forEachM_invariant _ (fun acc => shapeKeysUnique (SObj acc.1 acc.2))).
      * intros acc x acc' Hacc Hx.
        destruct x as [field arguments inner | name | inner]; simpl in Hx.
        -- destruct (nonEmpty field); [| by injection Hx as <-].
           destruct (extractSelections stack inner definitions) as [sh|] eqn:Hsh;
             [| done].
           injection Hx as <-. apply shapeKeysUnique_set; [done |].
           by apply (IH _ _ Hsh).
        -- destruct (js_find (isFragmentNamed name) definitions) as [d|];
             [| by injection Hx as <-].
           destruct (extractSelections stack (Some (definitionSelections d))
                       definitions) as [sh|] eqn:Hsh; [| done].
           injection Hx as <-. apply shapeKeysUnique_set; [done |].
           by apply (IH _ _ Hsh).
        -- by injection Hx as <-.
      * split; [apply NoDup_nil_2 | done].
    + split; [done | by intros [? | ?]].
    + intros selections prototype entries' key [= <-] [= <- <-]. revert key.
      revert Hloop.
      apply (forEachM_invariant_in _
               (fun acc => ∀ key, key ∈ obj_keys acc.2 →
                  (∃ arguments inner, Field key arguments inner ∈ s :: l)
                  ∨ (∃ name, key = "..." +:+ name ∧ FragmentSpread name ∈ s :: l))).
      * intros acc x acc' Hin Hacc Hx key.
        destruct x as [field arguments inner | name | inner]; simpl in Hx.
        -- destruct (nonEmpty field); [| injection Hx as <-; by apply Hacc].
           destruct (extractSelections stack inner definitions) as [sh|];
             [| done].
           injection Hx as <-.
           intros [Hkey | ->]%obj_keys_shape_set; [by apply Hacc | left; eauto].
        -- destruct (js_find (isFragmentNamed name) definitions) as [d|];
             [| injection Hx as <-; by apply Hacc].
           destruct (extractSelections stack (Some (definitionSelections d))
                       definitions) as [sh|]; [| done].
           injection Hx as <-.
           intros [Hkey | ->]%obj_keys_shape_set; [by apply Hacc | right; eauto].
        -- injection Hx as <-. by apply Hacc.
      * by intros key ?%not_elem_of_nil.
    + intros selections prototype entries' [= <-] [= <- _].
      revert Hloop.
      apply (forEachM_invariant_in _
               (fun acc => acc.1 = None
                  ∨ ∃ arguments inner, Field "__proto__" arguments inner ∈ s :: l)).
      * intros acc x acc' Hin Hacc Hx.
        destruct x as [field arguments inner | name | inner]; simpl in Hx.
        -- destruct (nonEmpty field); [| by injection Hx as <-].
           destruct (extractSelections stack inner definitions) as [sh|];
             [| done].
           injection Hx as <-.
           destruct (prototype_shape_set field sh acc) as [-> | ->]; [done |].
           right. eauto.
        -- destruct (js_find (isFragmentNamed name) definitions) as [d|];
             [| by injection Hx as <-].
           destruct (extractSelections stack (Some (definitionSelections d))
                       definitions) as [sh|]; [| done].
           injection Hx as <-.
           by rewrite shape_set_own by apply spread_key_own.
        -- by injection Hx as <-.
      * by left.
  - intros [= <-]. split; [done |]. split; [split; [by left | done] | done].
Qed.

(** X9 at [{ ...PostParts ...Missing title }]. *)
Lemma extractSelections_shape_witness :
  extractSelections 4
    (Some [ FragmentSpread "PostParts"; FragmentSpread "Missing";
            Field "title" [] None ]) postDefinitions
  = Ok (SObj None [ ("...PostParts", postPartsShape); ("title", SNull) ])
  ∧ shapeKeysUnique (SObj None [ ("...PostParts", postPartsShape); ("title", SNull) ]).
Proof.
  assert (extractSelections 4
            (Some [ FragmentSpread "PostParts"; FragmentSpread "Missing";
                    Field "title" [] None ]) postDefinitions
          = Ok (SObj None [ ("...PostParts", postPartsShape); ("title", SNull) ]))
    as H by (vm_compute; reflexivity).
  split; [exact H |].
  exact (proj1 (extractSelections_shape 4 _ postDefinitions _ H)).
Defined.

(** The definition map owns the name of the first operation definition and
    nothing else. *)
Lemma buildDefinitionMap_own (stack : nat) (operation : Operation)
    (definitionMap : list (string * Shape)) (k : string) (shape : Shape) :
  buildDefinitionMap stack operation = Ok definitionMap →
  obj_get k definitionMap = Some shape
  ↔ k ≠ ""
    ∧ ∃ operationType declared selections,
        js_find isOperationDefinition (definitions (query operation))
        = Some (OperationDefinition operationType (Some k) declared selections)
        ∧ extractSelections stack (Some selections) (definitions (query operation))
          = Ok shape.
Proof.
  unfold buildDefinitionMap.
  destruct (js_find isOperationDefinition (definitions (query operation)))
    as [[o [n|] declared sels|]|] eqn:Hfind.
  - destruct (nonEmpty n) eqn:Hn.
    + destruct (extractSelections stack (Some sels) (definitions (query operation)))
        as [sh|] eqn:Hsh; [| done].
      simpl. intros [= <-]. simpl.
      destruct (decide (n = k)) as [-> | Hne].
      * split.
        -- intros [= <-]. split; [by apply nonEmpty_true |]. by exists o, declared, sels.
        -- intros (_ & o' & declared' & sels' & [= <- <- <-] & Hsh'). congruence.
      * split; [done |]. intros (_ & o' & declared' & sels' & [= _ ? _] & _). done.
    + intros [= <-]. simpl. split; [done |].
      intros (Hkey & o' & declared' & sels' & [= _ Heq _] & _).
      rewrite <- Heq in Hkey.
      unfold nonEmpty in Hn. apply negb_false_iff, String.eqb_eq in Hn. done.
  - intros [= <-]. simpl. split; [done |]. by intros (_ & ? & ? & ? & ? & _).
  - intros [= <-]. simpl. split; [done |]. by intros (_ & ? & ? & ? & ? & _).
  - intros [= <-]. simpl. split; [done |]. by intros (_ & ? & ? & ? & ? & _).
Qed.

(** X10.  What the orchestrator reads from the definition map under the
    operation name.  It is a shape exactly when the first operation
    definition of the document bears that name, and then the shape
    extracted from that definition.  Under any other operation name the
    read finds no shape: it gives the member of [Object.prototype] of that
    name where there is one ([constructor], [toString], [__proto__], ...),
    and [undefined] otherwise. *)
Theorem buildDefinitionMap_lookup (stack : nat) (operation : Operation)
    (definitionMap : list (string * Shape)) :
  buildDefinitionMap stack operation = Ok definitionMap →
  let key := propertyKey (operationName operation) in
  let named shape :=
    key ≠ ""
    ∧ ∃ operationType declared selections,
        js_find isOperationDefinition (definitions (query operation))
        = Some (OperationDefinition operationType (Some key) declared selections)
        ∧ extractSelections stack (Some selections) (definitions (query operation))
          = Ok shape in
  (∀ shape, readShape definitionMap key = OwnShape shape ↔ named shape)
  ∧ ((∀ shape, ¬ named shape) →
     readShape definitionMap key
     = if bool_decide (key ∈ objectPrototypeMembers)
       then InheritedMember key else NoShape).
Proof.
  intros Hmap key named. split.
  - intros shape. subst named. cbv beta.
    rewrite <- (buildDefinitionMap_own stack operation definitionMap key shape Hmap).
    unfold readShape. destruct (obj_get key definitionMap) as [shape'|].
    + split; congruence.
    + destruct (bool_decide _); split; congruence.
  - intros Hnone. unfold readShape.
    destruct (obj_get key definitionMap) as [shape|] eqn:Hget; [| done].
    destruct (Hnone shape). subst named. cbv beta.
    by apply (buildDefinitionMap_own stack operation definitionMap key shape Hmap).
Qed.

(** X10 at [query Post { post { title } }]: the shape under the operation
    name [Post], nothing under [Other], and the inherited member under
    [constructor]. *)
Lemma buildDefinitionMap_lookup_witness :
  (∀ name, buildDefinitionMap 5 (namedPostOperation name)
           = Ok [ ("Post", SObj None [ ("post", SObj None [ ("title", SNull) ]) ]) ])
  ∧ readShape [ ("Post", SObj None [ ("post", SObj None [ ("title", SNull) ]) ]) ]
      "Post"
    = OwnShape (SObj None [ ("post", SObj None [ ("title", SNull) ]) ])
  ∧ readShape [ ("Post", SObj None [ ("post", SObj None [ ("title", SNull) ]) ]) ]
      "Other"
    = NoShape
  ∧ readShape [ ("Post", SObj None [ ("post", SObj None [ ("title", SNull) ]) ]) ]
      "constructor"
    = InheritedMember "constructor".
Proof.
  assert (∀ name, buildDefinitionMap 5 (namedPostOperation name)
                  = Ok [ ("Post", SObj None [ ("post", SObj None [ ("title", SNull) ]) ]) ])
    as Hmap by (intros name; vm_compute; reflexivity).
  assert (∀ name, name ≠ "Post" →
            ∀ shape,
              ¬ (name ≠ ""
                 ∧ ∃ operationType declared selections,
                     js_find isOperationDefinition
                       (definitions (query (namedPostOperation name)))
                     = Some (OperationDefinition operationType (Some name) declared
                               selections)
                     ∧ extractSelections 5 (Some selections)
                         (definitions (query (namedPostOperation name)))
                       = Ok shape)) as Hother.
  { intros name Hname shape (_ & o & declared & sels & Hfind & _).
    injection Hfind as _ Heq _ _. congruence. }
  split; [exact Hmap |]. split; [| split].
  - apply (proj1 (buildDefinitionMap_lookup 5 (namedPostOperation "Post") _
                    (Hmap "Post"))).
    split; [discriminate |].
    exists query_op, [], [ Field "post" [] (Some [ Field "title" [] None ]) ].
    split; vm_compute; reflexivity.
  - apply (proj2 (buildDefinitionMap_lookup 5 (namedPostOperation "Other") _
                    (Hmap "Other"))).
    apply Hother. discriminate.
  - apply (proj2 (buildDefinitionMap_lookup 5 (namedPostOperation "constructor") _
                    (Hmap "constructor"))).
    apply Hother. discriminate.
Defined.

End ExtractorProperties.

(** ** Further properties of the translator's layers *)

Section LayerProperties.

Import Scenarios MoreScenarios ParameterScenarios.

Lemma lookup_merge_elem (k : string) (v : JsValue)
    (items : list (string * JsValue)) (acc : gmap string JsValue) :
  fold_left (fun acc cur => {[ cur.1 := cur.2 ]} ∪ acc) items acc !! k = Some v →
  acc !! k = Some v ∨ (k, v) ∈ items.
Proof.
  revert acc. induction items as [|[k' v'] items IH]; intros acc; simpl.
  - by left.
  - intros [Hacc | Hin]%IH.
    + destruct (decide (k' = k)) as [-> | Hne].
      * rewrite (lookup_union_Some_l _ _ _ v') in Hacc
          by apply lookup_singleton_eq.
        injection Hacc as ->. right. apply list_elem_of_here.
      * rewrite lookup_union_r in Hacc by (by apply lookup_singleton_ne).
        by left.
    + right. by apply elem_of_cons; right.
Qed.

Lemma lookup_mergeItems_elem (k : string) (v : JsValue)
    (items : list (string * JsValue)) :
  mergeItems items !! k = Some v → (k, v) ∈ items.
Proof.
  intros [Hempty | Hin]%lookup_merge_elem; [| done].
  by rewrite lookup_empty in Hempty.
Qed.

Lemma operationArgument_Some (argument : ArgumentNode) (k : string) (v : JsValue) :
  operationArgument argument = Some (k, v)
  ↔ arg_name argument = k ∧ literalValue argument = v ∧ k ≠ "" ∧ truthy v = true.
Proof.
  unfold operationArgument. destruct (nonEmpty (arg_name argument)) eqn:Hname.
  - destruct (truthy (literalValue argument)) eqn:Ht.
    + split.
      * intros [= <- <-]. repeat split; [by apply nonEmpty_true | done].
      * intros (<- & <- & _ & _). done.
    + split; [done |]. intros (_ & <- & _ & Htrue). congruence.
  - split; [done |]. intros (<- & _ & Hne & _).
    unfold nonEmpty in Hname. by apply negb_false_iff, String.eqb_eq in Hname.
Qed.

(** X11.  Layer 1 holds nothing but the inline arguments of the selection:
    each of its entries is the evaluated literal of an argument of that
    name, the name is not empty and the value is truthy, so a literal
    [false], an empty string, [null] or an object value never gets there;
    and where the argument names are pairwise distinct, every argument with a
    name and a truthy literal is in it. *)
Theorem operationArguments_entries (arguments : list ArgumentNode) :
  (∀ k v,
     operationArguments arguments !! k = Some v →
     k ≠ "" ∧ truthy v = true
     ∧ ∃ argument, argument ∈ arguments ∧ arg_name argument = k
                   ∧ literalValue argument = v)
  ∧ (NoDup (map arg_name arguments) →
     ∀ argument,
       argument ∈ arguments → arg_name argument ≠ "" →
       truthy (literalValue argument) = true →
       operationArguments arguments !! arg_name argument
       = Some (literalValue argument)).
Proof.
  unfold operationArguments. split.
  - intros k v (argument & Hin & Harg)%lookup_mergeItems_elem%list_elem_of_omap.
    apply operationArgument_Some in Harg as (Hname & Hvalue & Hne & Ht).
    split; [done |]. split; [done |]. by exists argument.
  - intros Hnodup argument Hin Hname Ht.
    apply lookup_mergeItems_unique.
    + apply list_elem_of_omap. exists argument. split; [done |].
      by apply operationArgument_Some.
    + intros v' (other & Hother & Harg)%list_elem_of_omap.
      apply operationArgument_Some in Harg as (Hsame & <- & _ & _).
      f_equal. clear -Hnodup Hin Hother Hsame.
      induction arguments as [|a l IH]; [by apply not_elem_of_nil in Hin |].
      simpl in Hnodup. apply NoDup_cons in Hnodup as [Hfresh Hnodup].
      apply elem_of_cons in Hin as [-> | Hin];
        apply elem_of_cons in Hother as [-> | Hother]; try done.
      * destruct Hfresh. rewrite <- Hsame. apply list_elem_of_fmap. by exists other.
      * destruct Hfresh. rewrite Hsame. apply list_elem_of_fmap. by exists argument.
      * by apply IH.
Qed.

(** X11 at the arguments [(order: [publishedAt_DESC], limit: 2)]. *)
Lemma operationArguments_entries_witness :
  NoDup (map arg_name
           [ mkArgument "order" (ListValue [EnumValue "publishedAt_DESC"]);
             mkArgument "limit" (IntValue "2") ])
  ∧ operationArguments
      [ mkArgument "order" (ListValue [EnumValue "publishedAt_DESC"]);
        mkArgument "limit" (IntValue "2") ] !! "order"
    = Some (JStr "-fields.publishedAt").
Proof.
  assert (NoDup (map arg_name
                   [ mkArgument "order" (ListValue [EnumValue "publishedAt_DESC"]);
                     mkArgument "limit" (IntValue "2") ])) as Hnodup.
  { simpl. apply NoDup_cons. split.
    - intros Hin%list_elem_of_singleton. discriminate Hin.
    - apply NoDup_singleton. }
  split; [exact Hnodup |].
  apply (proj2 (operationArguments_entries _) Hnodup
           (mkArgument "order" (ListValue [EnumValue "publishedAt_DESC"]))).
  - apply list_elem_of_here.
  - discriminate.
  - reflexivity.
Defined.

(** One variable's translation, when it yields an item. *)
Lemma tryTranslate_Some (variableMap : list (string * Binding))
    (variables : gmap string JsValue) (variableKey k : string) (v : JsValue) :
  tryTranslate variableMap variables variableKey = Some (k, v) →
  ∃ kind field,
    obj_get variableKey variableMap = Some (kind, field)
    ∧ ((kind = Argument ∧ k = field ∧ field ∈ contentfulReservedParameters
        ∧ (field = "order" ∨ v = js_get variables variableKey))
       ∨ (kind = ObjectField ∧ k = getSearchKey field
          ∧ v = js_get variables variableKey)).
Proof.
  unfold tryTranslate, translateVariable.
  destruct (obj_get variableKey variableMap) as [[[] field]|]; [| | done].
  - destruct (nonEmpty field); simpl; [| done].
    destruct (bool_decide (field ∈ contentfulReservedParameters)) eqn:Hres; [| done].
    apply bool_decide_eq_true in Hres.
    destruct (bool_decide (field = "preview")
              && negb (truthy (js_get variables variableKey))); [done |].
    destruct (bool_decide (field = "order")) eqn:Horder.
    + apply bool_decide_eq_true in Horder.
      destruct (js_get variables variableKey) as [| | | | |elements|]; try done.
      cbv zeta. destruct (forallb convertible _); [| done].
      intros [= <- <-]. exists Argument, field. split; [done |]. left. eauto.
    + intros [= <- <-]. exists Argument, field. split; [done |]. left. eauto.
  - intros [= <- <-]. exists ObjectField, field. split; [done |]. right. eauto.
Qed.

(** X12.  Every entry of layer 2 comes from a runtime variable that the
    binding map binds: under a reserved parameter name for an [Argument]
    binding to that name, with the raw runtime value unless the name is
    [order]; under the search key of the field, which starts with [fields.],
    with the raw runtime value for an [ObjectField] binding.  An [Argument]
    binding to a name that is not reserved yields nothing. *)
Theorem operationQueries_entries (variableMap : list (string * Binding))
    (variables layer2 : gmap string JsValue) (k : string) (v : JsValue) :
  operationQueries variableMap variables = Ok layer2 →
  layer2 !! k = Some v →
  ∃ variableKey kind field,
    obj_get variableKey variableMap = Some (kind, field)
    ∧ is_Some (variables !! variableKey)
    ∧ ((kind = Argument ∧ k = field ∧ field ∈ contentfulReservedParameters
        ∧ (field = "order" ∨ v = js_get variables variableKey))
       ∨ (kind = ObjectField ∧ k = getSearchKey field
          ∧ startsWith k "fields." = true
          ∧ v = js_get variables variableKey)).
Proof.
  intros ->%operationQueries_Ok.
  intros (variableKey & Hkey & Hitem)%lookup_mergeItems_elem%list_elem_of_omap.
  apply list_elem_of_filter in Hkey as [Hown _].
  apply tryTranslate_Some in Hitem as (kind & field & Hget & Hcases).
  exists variableKey, kind, field. split; [done |]. split; [done |].
  destruct Hcases as [? | (-> & -> & ->)]; [by left |].
  right. repeat split. apply getSearchKey_fields.
Qed.

(** X12 at a variable bound inside the object value of [where]. *)
Lemma operationQueries_entries_witness :
  buildVariableMap whereOperation = Ok whereMap
  ∧ operationQueries whereMap (variables whereOperation)
    = Ok {[ "fields.sys_id[in]" := JArr [ JStr "a"; JStr "b" ] ]}
  ∧ ∃ variableKey kind field,
      obj_get variableKey whereMap = Some (kind, field)
      ∧ is_Some (variables whereOperation !! variableKey)
      ∧ ((kind = Argument ∧ "fields.sys_id[in]" = field
          ∧ field ∈ contentfulReservedParameters
          ∧ (field = "order"
             ∨ JArr [ JStr "a"; JStr "b" ]
               = js_get (variables whereOperation) variableKey))
         ∨ (kind = ObjectField ∧ "fields.sys_id[in]" = getSearchKey field
            ∧ startsWith "fields.sys_id[in]" "fields." = true
            ∧ JArr [ JStr "a"; JStr "b" ]
              = js_get (variables whereOperation) variableKey)).
Proof.
  assert (operationQueries whereMap (variables whereOperation)
          = Ok {[ "fields.sys_id[in]" := JArr [ JStr "a"; JStr "b" ] ]}) as Hlayer2
    by (vm_compute; reflexivity).
  split; [vm_compute; reflexivity |]. split; [exact Hlayer2 |].
  apply (operationQueries_entries whereMap (variables whereOperation) _ _ _ Hlayer2).
  vm_compute. reflexivity.
Defined.

(** The Ordering Normalizer turns strings into strings and leaves every
    other value: what converts before it converts after it. *)
Lemma convertible_getOrderValue (v : JsValue) :
  convertible (getOrderValue v) = convertible v.
Proof.
  destruct v as [| | | | s | |]; try reflexivity.
  unfold getOrderValue. by destruct (negb (truthy (JStr s))).
Qed.

Lemma forallb_convertible_map (elements : list JsValue) :
  forallb convertible (map getOrderValue elements) = convertible (JArr elements).
Proof.
  cbn [convertible]. induction elements as [|x l IH]; [done |].
  cbn [map forallb]. by rewrite convertible_getOrderValue, IH.
Qed.

(** X13.  The translation of a bound variable throws for the binding, as an
    argument, to [order] only: when the runtime value is not an array, which
    has no [map], and when it is an array that holds, at any depth, an
    object with an own property [toString], which the join cannot convert to
    a string. *)
Theorem translateVariable_throws_iff (variableMap : list (string * Binding))
    (variables : gmap string JsValue) (variableKey : string) (binding : Binding) :
  obj_get variableKey variableMap = Some binding →
  (∃ e, translateVariable variableMap variables variableKey = Throw e)
  ↔ binding = (Argument, "order")
    ∧ (isArray (js_get variables variableKey) = false
       ∨ convertible (js_get variables variableKey) = false).
Proof.
  intros Hget. unfold translateVariable. rewrite Hget.
  destruct binding as [[] field].
  - destruct (decide (field = "order")) as [-> | Hne].
    + simpl. destruct (js_get variables variableKey) as [| | | | |elements|];
        simpl; try (split; [intros _; split; [done | by left] | eauto]).
      rewrite forallb_convertible_map. cbn [convertible].
      destruct (forallb convertible elements); split.
      * by intros [? ?].
      * by intros [_ [? | ?]].
      * intros _. split; [done | by right].
      * eauto.
    + destruct (nonEmpty field && bool_decide (field ∈ contentfulReservedParameters)).
      * destruct (bool_decide (field = "preview")
                  && negb (truthy (js_get variables variableKey))).
        -- split; [by intros [? ?] | by intros [[= ?] _]].
        -- rewrite bool_decide_eq_false_2 by done.
           split; [by intros [? ?] | by intros [[= ?] _]].
      * split; [by intros [? ?] | by intros [[= ?] _]].
  - split; [by intros [? ?] | by intros [? _]].
Qed.

(** X13 at an [order] variable that holds a string. *)
Lemma translateVariable_throws_iff_witness :
  obj_get "sort" badOrderMap = Some (Argument, "order")
  ∧ isArray (js_get (variables badOrderOperation) "sort") = false
  ∧ ∃ e, translateVariable badOrderMap (variables badOrderOperation) "sort" = Throw e.
Proof.
  split; [reflexivity |]. split; [vm_compute; reflexivity |].
  apply (proj2 (translateVariable_throws_iff badOrderMap
                  (variables badOrderOperation) "sort" (Argument, "order") eq_refl)).
  split; [reflexivity |]. left. vm_compute. reflexivity.
Defined.

(** X14.  A runtime variable that the first operation definition does not
    declare reaches the parameter set under its own name with its raw value,
    whatever the inline arguments and the bindings say for that name. *)
Theorem parseQueryVariables_passthrough (operation : Operation)
    (defs : list DefinitionNode) (operationType : OperationType)
    (name : option string) (declared : list string) (selections : list Selection)
    (ps : gmap string JsValue) (k : string) (v : JsValue) :
  getRootQuery operation = Ok (Some defs) →
  js_find isOperationDefinition defs
  = Some (OperationDefinition operationType name declared selections) →
  parseQueryVariables operation = Ok ps →
  k ∉ declared →
  variables operation !! k = Some v →
  ps !! k = Some v.
Proof.
  intros Hroot Hfind Hparse Hk Hv.
  apply parseQueryVariables_Ok_inv in Hparse
    as (defs' & o & n & declared' & field & arguments & selectionSet & rest
        & variableMap & layer2 & Hroot' & Hfind' & _ & _ & ->).
  assert (defs' = defs) as -> by congruence.
  assert (declared' = declared) as -> by congruence.
  apply lookup_union_Some_l. rewrite lookup_omit. by rewrite decide_False.
Qed.

(** X14 at an undeclared [limit: 5] beside the inline argument [limit: 2]. *)
Lemma parseQueryVariables_passthrough_witness :
  parseQueryVariables undeclaredLimitOperation = Ok {[ "limit" := JNum 5 ]}
  ∧ operationArguments [ mkArgument "limit" (IntValue "2") ] !! "limit"
    = Some (JStr "2")
  ∧ ({[ "limit" := JNum 5 ]} : gmap string JsValue) !! "limit" = Some (JNum 5).
Proof.
  assert (parseQueryVariables undeclaredLimitOperation = Ok {[ "limit" := JNum 5 ]})
    as Hparse by (vm_compute; reflexivity).
  split; [exact Hparse |]. split; [vm_compute; reflexivity |].
  apply (parseQueryVariables_passthrough undeclaredLimitOperation
           (definitions (query undeclaredLimitOperation)) query_op None []
           [ Field "postCollection" [ mkArgument "limit" (IntValue "2") ]
               (Some [ Field "items" [] (Some [ Field "title" [] None ]) ]) ]
           _ "limit" (JNum 5) eq_refl eq_refl Hparse).
  - apply not_elem_of_nil.
  - vm_compute. reflexivity.
Defined.

End LayerProperties.

(** ** Further properties of the class ContentfulRestLink *)

Section LinkProperties.

Import Scenarios MoreScenarios.


(** The two links of the scenarios are what the constructor returns. *)
Example deliveryLink_constructed :
  newContentfulRestLink deliveryOptions {[ "include" := JNum 10 ]} = Ok deliveryLink
  ∧ newContentfulRestLink previewOptions {[ "include" := JNum 10 ]} = Ok previewLink.
Proof. split; vm_compute; reflexivity. Qed.

(** X16.  What the client is called with, key by key.  For [getEntry] the
    first argument is the [id] of the parameter set, and the parameter object
    takes [id] and [preview] from the query defaults only, every other key
    from the parameter set and, failing that, from the defaults.  For
    [getEntries] the parameter object has [content_type] from the root key,
    whatever the parameter set and the defaults say, [preview] from the
    defaults only, and every other key from the parameter set and, failing
    that, from the defaults.  The translated [preview] is never sent. *)
Theorem prepareCall_parameters (link : ContentfulRestLink) (operation : Operation)
    (queryVariables : gmap string JsValue) (call : RestCall) :
  parseQueryVariables operation = Ok queryVariables →
  prepareCall link operation = Ok call →
  match call_method call with
  | getEntry =>
      ∃ params,
        call_args call = [ ArgValue (js_get queryVariables "id"); ArgParams params ]
        ∧ is_Some (queryVariables !! "id")
        ∧ ∀ k, params !! k
               = if decide (k = "id" ∨ k = "preview") then queryDefaults link !! k
                 else match queryVariables !! k with
                      | Some v => Some v
                      | None => queryDefaults link !! k
                      end
  | getEntries =>
      ∃ rootKey params,
        call_rootKey call = Some rootKey
        ∧ call_args call = [ ArgParams params ]
        ∧ queryVariables !! "id" = None
        ∧ ∀ k, params !! k
               = if decide (k = "content_type")
                 then Some (JStr (replace rootKey "Collection" ""))
                 else if decide (k = "preview") then queryDefaults link !! k
                 else match queryVariables !! k with
                      | Some v => Some v
                      | None => queryDefaults link !! k
                      end
  end.
Proof.
  intros Hparse Hcall.
  destruct (prepareCall_Ok_inv link operation queryVariables call Hparse Hcall)
    as [Hown [rootKey Hroot]].
  rewrite (prepareCall_dispatch link operation rootKey queryVariables Hroot Hparse
             Hown) in Hcall.
  cbv zeta in Hcall.
  destruct (ownProperty queryVariables "id") eqn:Hid.
  - injection Hcall as <-. cbn [call_method call_args call_rootKey].
    exists (omit queryVariables ["id"; "preview"] ∪ queryDefaults link).
    split; [reflexivity |].
    split; [by apply ownProperty_true |]. intros k.
    destruct (decide (k = "id" ∨ k = "preview")) as [Hk | Hk].
    + rewrite lookup_union_r; [done |]. rewrite lookup_omit.
      rewrite decide_True; [done |].
      destruct Hk as [-> | ->]; [apply list_elem_of_here |].
      apply elem_of_cons. right. apply list_elem_of_here.
    + assert (omit queryVariables ["id"; "preview"] !! k = queryVariables !! k) as Hk'.
      { rewrite lookup_omit. rewrite decide_False; [done |].
        intros [-> | ->%list_elem_of_singleton]%elem_of_cons; tauto. }
      destruct (queryVariables !! k) as [v|] eqn:Hv.
      * by apply lookup_union_Some_l.
      * by rewrite lookup_union_r.
  - destruct rootKey as [rootKey|]; [| done].
    injection Hcall as <-. cbn [call_method call_args call_rootKey].
    exists rootKey,
      ({[ "content_type" := JStr (replace rootKey "Collection" "") ]}
       ∪ (omit queryVariables ["preview"] ∪ queryDefaults link)).
    split; [reflexivity |]. split; [reflexivity |].
    split; [by apply ownProperty_false |]. intros k.
    destruct (decide (k = "content_type")) as [-> | Hct].
    + apply lookup_union_Some_l, lookup_singleton_eq.
    + rewrite lookup_union_r by (by apply lookup_singleton_ne).
      destruct (decide (k = "preview")) as [-> | Hpreview].
      * rewrite lookup_union_r; [done |]. rewrite lookup_omit.
        rewrite decide_True; [done | apply list_elem_of_here].
      * assert (omit queryVariables ["preview"] !! k = queryVariables !! k) as Hk'.
        { rewrite lookup_omit. rewrite decide_False; [done |].
          by intros ->%list_elem_of_singleton. }
        destruct (queryVariables !! k) as [v|] eqn:Hv.
        -- by apply lookup_union_Some_l.
        -- by rewrite lookup_union_r.
Qed.

(** X16 at [post(id: $id)] with the variables [id] and [locale]. *)
Lemma prepareCall_parameters_witness :
  parseQueryVariables postOperation
  = Ok {[ "id" := JStr "abc123"; "locale" := JStr "en-US" ]}
  ∧ ∃ params,
      call_args (mkCall (Some "post") DeliveryClient getEntry
                   [ ArgValue (JStr "abc123");
                     ArgParams {[ "locale" := JStr "en-US"; "include" := JNum 10 ]} ])
      = [ ArgValue (js_get {[ "id" := JStr "abc123"; "locale" := JStr "en-US" ]} "id");
          ArgParams params ]
      ∧ is_Some (({[ "id" := JStr "abc123"; "locale" := JStr "en-US" ]}
                  : gmap string JsValue) !! "id")
      ∧ ∀ k, params !! k
             = if decide (k = "id" ∨ k = "preview")
               then queryDefaults deliveryLink !! k
               else match ({[ "id" := JStr "abc123"; "locale" := JStr "en-US" ]}
                           : gmap string JsValue) !! k with
                    | Some v => Some v
                    | None => queryDefaults deliveryLink !! k
                    end.
Proof.
  assert (parseQueryVariables postOperation
          = Ok {[ "id" := JStr "abc123"; "locale" := JStr "en-US" ]}) as Hparse
    by (vm_compute; reflexivity).
  split; [exact Hparse |].
  exact (prepareCall_parameters deliveryLink postOperation _ _ Hparse
           prepareCall_post_by_id).
Defined.

(** X17.  When the root query has no query-type definition to take a root
    key from, the root key is [null]; the orchestrator then reaches the
    client call exactly when the parameter set has an [id] and no entry
    named [hasOwnProperty]; with such an entry it throws the [TypeError] of
    the shadowed method, and without one and without an [id] the
    [TypeError] of [null.replace], before any call. *)
Theorem prepareCall_null_rootKey (link : ContentfulRestLink) (operation : Operation)
    (queryVariables : gmap string JsValue) :
  getRootKey operation = Ok None →
  parseQueryVariables operation = Ok queryVariables →
  (returns (prepareCall link operation)
   ↔ queryVariables !! "hasOwnProperty" = None ∧ is_Some (queryVariables !! "id"))
  ∧ (is_Some (queryVariables !! "hasOwnProperty") →
     prepareCall link operation
     = Throw (TypeError "hasOwnProperty is not a function"))
  ∧ (queryVariables !! "hasOwnProperty" = None → queryVariables !! "id" = None →
     prepareCall link operation
     = Throw (TypeError "Cannot read properties of null (reading 'replace')"))
  ∧ (∀ call, prepareCall link operation = Ok call →
             call_method call = getEntry ∧ call_rootKey call = None).
Proof.
  intros Hroot Hparse.
  destruct (queryVariables !! "hasOwnProperty") as [shadow|] eqn:Hown.
  - rewrite (prepareCall_shadowed link operation None queryVariables Hroot Hparse)
      by eauto.
    split; [| split; [| split]]; try done.
    split; [by intros [? ?] | by intros [? _]].
  - rewrite (prepareCall_dispatch link operation None queryVariables Hroot Hparse
               Hown).
    cbv zeta. destruct (ownProperty queryVariables "id") eqn:Hid.
    + apply ownProperty_true in Hid. split; [| split; [| split]].
      * split; [done | intros _; by eexists].
      * by intros [? ?].
      * intros _ Hnone. rewrite Hnone in Hid. by destruct Hid.
      * by intros call [= <-].
    + apply ownProperty_false in Hid.
      split; [| split; [| split]]; [| by intros [? ?] | done | done].
      split; [by intros [? ?] |]. rewrite Hid. by intros [_ [? ?]].
Qed.

(** X17 at [mutation { publish(id: "1") { ok } }]: no query, an inline [id]. *)
Lemma prepareCall_null_rootKey_witness :
  getRootKey publishOperation = Ok None
  ∧ parseQueryVariables publishOperation = Ok {[ "id" := JStr "1" ]}
  ∧ returns (prepareCall deliveryLink publishOperation).
Proof.
  assert (getRootKey publishOperation = Ok None) as Hroot
    by (vm_compute; reflexivity).
  assert (parseQueryVariables publishOperation = Ok {[ "id" := JStr "1" ]})
    as Hparse by (vm_compute; reflexivity).
  split; [exact Hroot |]. split; [exact Hparse |].
  apply (proj1 (prepareCall_null_rootKey deliveryLink publishOperation _
                  Hroot Hparse)).
  split; vm_compute; eauto.
Defined.

(** X19 at [postCollection]. *)
Lemma prepareCall_content_type_suffix_witness :
  getRootKey latestPostsOperation = Ok (Some "postCollection")
  ∧ onlyAsSuffix "postCollection" "Collection" = true
  ∧ stripSuffix "postCollection" "Collection" = "post"
  ∧ ∃ chosen,
      prepareCall deliveryLink latestPostsOperation
      = Ok (mkCall (Some "postCollection") chosen getEntries
              [ ArgParams
                  ({[ "content_type" := JStr (stripSuffix "postCollection" "Collection") ]}
                   ∪ (omit {[ "order" := JStr "-fields.publishedAt";
                              "limit" := JStr "2" ]} ["preview"]
                      ∪ queryDefaults deliveryLink)) ]).
Proof.
  split; [vm_compute; reflexivity |]. split; [reflexivity |].
  split; [reflexivity |].
  apply (prepareCall_content_type_suffix deliveryLink latestPostsOperation
           "postCollection" {[ "order" := JStr "-fields.publishedAt";
                               "limit" := JStr "2" ]}).
  - vm_compute. reflexivity.
  - vm_compute. reflexivity.
  - vm_compute. reflexivity.
  - vm_compute. reflexivity.
  - reflexivity.
Defined.

(** Nothing in the two translated layers is named [hasOwnProperty] unless
    an inline argument is. *)
Lemma operationQueries_no_method (variableMap : list (string * Binding))
    (variables layer2 : gmap string JsValue) :
  operationQueries variableMap variables = Ok layer2 →
  layer2 !! "hasOwnProperty" = None.
Proof.
  intros ->%operationQueries_Ok.
  apply lookup_mergeItems_None. intros v (variableKey & _ & Hitem)%list_elem_of_omap.
  apply tryTranslate_Some in Hitem as (kind & field & _ & Hcases).
  destruct Hcases as [(_ & <- & Hreserved & _) | (_ & Hkey & _)].
  - revert Hreserved. unfold contentfulReservedParameters.
    rewrite !elem_of_cons. intros H.
    repeat (destruct H as [H | H]; [discriminate H |]).
    by apply not_elem_of_nil in H.
  - pose proof (getSearchKey_fields field) as Hfields.
    rewrite <- Hkey in Hfields. discriminate Hfields.
Qed.

Lemma operationArguments_no_method (arguments : list ArgumentNode) :
  (∀ argument, argument ∈ arguments → arg_name argument ≠ "hasOwnProperty") →
  operationArguments arguments !! "hasOwnProperty" = None.
Proof.
  intros Hnames. unfold operationArguments.
  apply lookup_mergeItems_None. intros v (argument & Hin & Hitem)%list_elem_of_omap.
  apply operationArgument_Some in Hitem as (Hname & _).
  by apply (Hnames argument Hin).
Qed.

(** X6.  Take a document whose root query is read and whose binding map is
    built, whose first operation definition is a query that starts with a
    field, and in which nothing is named [hasOwnProperty]: no runtime
    variable, no bound variable, no inline argument of that field.  Then
    the orchestrator reaches the client call: it throws nothing, the root
    key is the name of that field, and the method is [getEntry] exactly when
    the parameter set has an [id]. *)
Theorem prepareCall_returns (link : ContentfulRestLink) (operation : Operation)
    (defs : list DefinitionNode) (name : option string) (declared : list string)
    (field : string) (arguments : list ArgumentNode)
    (selectionSet : option (list Selection)) (rest : list Selection)
    (variableMap : list (string * Binding)) :
  getRootQuery operation = Ok (Some defs) →
  js_find isOperationDefinition defs
  = Some (OperationDefinition query_op name declared
            (Field field arguments selectionSet :: rest)) →
  buildVariableMap operation = Ok variableMap →
  variables operation !! "hasOwnProperty" = None →
  obj_get "hasOwnProperty" variableMap = None →
  (∀ argument, argument ∈ arguments → arg_name argument ≠ "hasOwnProperty") →
  ∃ call queryVariables,
    prepareCall link operation = Ok call
    ∧ parseQueryVariables operation = Ok queryVariables
    ∧ call_rootKey call = Some field
    ∧ (call_method call = getEntry ↔ is_Some (queryVariables !! "id")).
Proof.
  intros Hroot Hfind Hmap Hvars Hbound Hnames.
  destruct (proj2 (operationQueries_returns variableMap (variables operation)))
    as [layer2 Hlayer2]; [right; split; [done | by left] |].
  pose proof (parseQueryVariables_returns operation defs query_op name declared
                field arguments selectionSet rest variableMap layer2
                Hroot Hfind Hmap Hlayer2) as Hparse.
  set (queryVariables := omit (variables operation) declared
                         ∪ (layer2 ∪ operationArguments arguments)) in *.
  assert (queryVariables !! "hasOwnProperty" = None) as Hown.
  { subst queryVariables. apply lookup_union_None. split.
    - rewrite lookup_omit. by destruct (decide _).
    - apply lookup_union_None. split.
      + by eapply operationQueries_no_method.
      + by apply operationArguments_no_method. }
  assert (getRootKey operation = Ok (Some field)) as Hkey.
  { unfold getRootKey. rewrite (proj2 (rootDefinitions_Ok operation defs) Hroot).
    cbn [mbind Result_bind]. by rewrite (js_find_isQuery defs _ Hfind). }
  pose proof (prepareCall_dispatch link operation _ _ Hkey Hparse Hown) as Hcall.
  cbv zeta in Hcall.
  destruct (ownProperty queryVariables "id") eqn:Hid.
  - eexists _, queryVariables. split; [exact Hcall |]. split; [done |].
    split; [done |]. simpl. split; [intros _ | done].
    by apply ownProperty_true.
  - eexists _, queryVariables. split; [exact Hcall |]. split; [done |].
    split; [done |]. simpl. split; [done |].
    intros Hsome%ownProperty_true. congruence.
Qed.

(** X6 at [{ postCollection(order: [publishedAt_DESC], limit: 2) { items { title } } }]. *)
Lemma prepareCall_returns_witness :
  buildVariableMap latestPostsOperation = Ok []
  ∧ ∃ call queryVariables,
      prepareCall deliveryLink latestPostsOperation = Ok call
      ∧ parseQueryVariables latestPostsOperation = Ok queryVariables
      ∧ call_rootKey call = Some "postCollection"
      ∧ (call_method call = getEntry ↔ is_Some (queryVariables !! "id")).
Proof.
  assert (buildVariableMap latestPostsOperation = Ok []) as Hmap
    by (vm_compute; reflexivity).
  split; [exact Hmap |].
  apply (prepareCall_returns deliveryLink latestPostsOperation
           (definitions (query latestPostsOperation)) None [] "postCollection"
           [ mkArgument "order" (ListValue [EnumValue "publishedAt_DESC"]);
             mkArgument "limit" (IntValue "2") ]
           (Some [ Field "items" [] (Some [ Field "title" [] None ]) ]) [] []).
  - vm_compute. reflexivity.
  - vm_compute. reflexivity.
  - exact Hmap.
  - vm_compute. reflexivity.
  - reflexivity.
  - intros argument Hin.
    apply elem_of_cons in Hin as [-> | Hin]; [discriminate |].
    apply elem_of_cons in Hin as [-> | Hin]; [discriminate |].
    by apply not_elem_of_nil in Hin.
Defined.

End LinkProperties.

(** ** The root key *)

Section RootKey.

Import Scenarios MoreScenarios.

(** X20.  The root key is read off the first selection of the first
    query-type definition and off nothing else: the name of that selection,
    be it a field or a fragment spread; the [TypeError] of a missing [name]
    when it is an inline fragment; [null] when the selection set is empty or
    the root query has no query-type definition.  The selections after the
    first are never looked at. *)
Theorem getRootKey_first_selection (operation : Operation)
    (defs : list DefinitionNode) :
  getRootQuery operation = Ok (Some defs) →
  getRootKey operation
  = match js_find isQuery defs with
    | Some d =>
        match definitionSelections d with
        | [] => Ok None
        | Field name _ _ :: _ => Ok (Some name)
        | FragmentSpread name :: _ => Ok (Some name)
        | InlineFragment _ :: _ =>
            Throw (TypeError "Cannot read properties of undefined (reading 'kind')")
        end
    | None => Ok None
    end.
Proof.
  intros Hroot%rootDefinitions_Ok. unfold getRootKey. rewrite Hroot. simpl.
  destruct (js_find isQuery defs) as [d|] eqn:Hfind; [| done].
  pose proof Hfind as (_ & _ & _ & _ & Hquery)%js_find_Some.
  destruct d as [[] n declared sels|]; try done.
  destruct sels as [|[field arguments inner | name | inner] rest]; done.
Qed.

(** X20 at [query Post { ...PostParts }]: the root key is the name of the
    fragment. *)
Lemma getRootKey_first_selection_witness :
  getRootQuery spreadFirstOperation
  = Ok (Some (definitions (query spreadFirstOperation)))
  ∧ getRootKey spreadFirstOperation = Ok (Some "PostParts").
Proof.
  assert (getRootQuery spreadFirstOperation
          = Ok (Some (definitions (query spreadFirstOperation)))) as Hroot
    by (vm_compute; reflexivity).
  split; [exact Hroot |].
  exact (getRootKey_first_selection spreadFirstOperation
           (definitions (query spreadFirstOperation)) Hroot).
Defined.

(** X5 at that operation, whose top-level selection is a spread: the
    translator throws; and at an operation that binds no variable: it
    returns. *)
Lemma parseQueryVariables_returns_iff_witness :
  ¬ returns (parseQueryVariables spreadFirstOperation)
  ∧ returns (parseQueryVariables latestPostsOperation).
Proof.
  split.
  - intros (defs & d & variableMap & Hroot & Hfields & Hfind & _)
      %parseQueryVariables_returns_iff.
    assert (defs = definitions (query spreadFirstOperation)) as ->.
    { assert (getRootQuery spreadFirstOperation
              = Ok (Some (definitions (query spreadFirstOperation)))) as Hroot'
        by (vm_compute; reflexivity).
      congruence. }
    injection Hfind as <-.
    specialize (Hfields _ (list_elem_of_here _ _) eq_refl).
    apply Forall_cons in Hfields as [Hfield _]. discriminate Hfield.
  - apply parseQueryVariables_returns_iff.
    exists (definitions (query latestPostsOperation)). eexists. exists [].
    split; [vm_compute; reflexivity |].
    split; [| split; [reflexivity | split; [discriminate |]]].
    + intros d Hd _. apply elem_of_cons in Hd as [-> | Hd];
        [| by apply not_elem_of_nil in Hd].
      simpl. by repeat constructor.
    + split; [vm_compute; reflexivity | by left].
Defined.

End RootKey.
